(** * A shallow embedding of the markdown parser (src/lib/parser.ts and
      src/lib/parseTextBody.ts) and the properties of its parsing engine.

    Strings are sequences of UTF-16 code units, regular expressions are
    interpreted by a backtracking matcher that follows the ECMAScript
    matching rules (priority of alternatives, greedy and lazy quantifiers,
    capture groups reset in every iteration), and a thrown exception is an
    explicit outcome of every function that can throw. *)

From Stdlib Require Import String Ascii.
From Stdlib Require Import List NArith ZArith Arith Bool Lia.
Import ListNotations.

Set Implicit Arguments.

(* ================================================================== *)
(** * JavaScript strings *)
(* ================================================================== *)

(** A string is a list of code units. *)
Definition cu := N.
Definition jsstring := list cu.

(** String literals of the development: the ASCII characters of [s]. *)
Definition str (s : string) : jsstring :=
  map N_of_ascii (list_ascii_of_string s).
Arguments str s%_string.

(** The line feed, ['\n']. *)
Definition nl : jsstring := [10%N].

Definition cu_eqb (a b : cu) : bool := N.eqb a b.
Arguments cu_eqb (a b)%_N.

Fixpoint jsstring_eqb (a b : jsstring) : bool :=
  match a, b with
  | [], [] => true
  | x :: a', y :: b' => cu_eqb x y && jsstring_eqb a' b'
  | _, _ => false
  end.

(** ** Character classes *)

(** LineTerminator: LF, CR, LS, PS. *)
Definition is_line_terminator (c : cu) : bool :=
  (c =? 10)%N || (c =? 13)%N || (c =? 8232)%N || (c =? 8233)%N.

(** [\s], and the characters [trim] strips: WhiteSpace and LineTerminator. *)
Definition is_space (c : cu) : bool :=
  ((9 <=? c)%N && (c <=? 13)%N) || (c =? 32)%N || (c =? 160)%N
  || (c =? 5760)%N || ((8192 <=? c)%N && (c <=? 8202)%N)
  || (c =? 8232)%N || (c =? 8233)%N || (c =? 8239)%N || (c =? 8287)%N
  || (c =? 12288)%N || (c =? 65279)%N.

(** [.] without the s flag. *)
Definition is_dot (c : cu) : bool := negb (is_line_terminator c).

(** [\d] *)
Definition is_digit (c : cu) : bool := (48 <=? c)%N && (c <=? 57)%N.

(** [\w] *)
Definition is_word (c : cu) : bool :=
  ((65 <=? c)%N && (c <=? 90)%N) || ((97 <=? c)%N && (c <=? 122)%N)
  || is_digit c || (c =? 95)%N.

(** [[\s\S]] *)
Definition is_any (c : cu) : bool := is_space c || negb (is_space c).

Arguments is_line_terminator c%_N.
Arguments is_space c%_N.
Arguments is_dot c%_N.
Arguments is_digit c%_N.
Arguments is_word c%_N.
Arguments is_any c%_N.

(** ** String methods *)

Fixpoint trimStart (s : jsstring) : jsstring :=
  match s with
  | c :: t => if is_space c then trimStart t else s
  | [] => []
  end.

Definition trimEnd (s : jsstring) : jsstring := rev (trimStart (rev s)).

Definition trim (s : jsstring) : jsstring := trimEnd (trimStart s).

(** The index a relative argument of [slice] denotes in a string of
    length [len]: negative arguments count from the end. *)
Definition rel_index (len : nat) (i : Z) : nat :=
  if (i <? 0)%Z then Z.to_nat (Z.max 0 (Z.of_nat len + i))
  else Nat.min (Z.to_nat i) len.

(** [s.slice(b)], of a string or an array *)
Definition slice1 {A : Type} (s : list A) (b : Z) : list A :=
  skipn (rel_index (length s) b) s.

(** [s.slice(b, e)], of a string or an array *)
Definition slice2 {A : Type} (s : list A) (b e : Z) : list A :=
  let from := rel_index (length s) b in
  let to := rel_index (length s) e in
  firstn (to - from) (skipn from s).

(** [s[i]]: [None] is [undefined]. *)
Definition char_at (s : jsstring) (i : nat) : option jsstring :=
  match nth_error s i with
  | Some c => Some [c]
  | None => None
  end.

Fixpoint starts_with (p s : jsstring) : bool :=
  match p, s with
  | [], _ => true
  | a :: p', b :: s' => cu_eqb a b && starts_with p' s'
  | _ :: _, [] => false
  end.

Fixpoint indexOf_from (needle s : jsstring) (i : Z) : Z :=
  if starts_with needle s then i
  else match s with
       | [] => (-1)%Z
       | _ :: t => indexOf_from needle t (i + 1)%Z
       end.

(** [s.indexOf(needle)], [-1] when [needle] does not occur. *)
Definition indexOf (s needle : jsstring) : Z := indexOf_from needle s 0%Z.

(** A value that is a string or [undefined] ([None]). *)
Definition strU := option jsstring.

(** ToString of such a value, as string concatenation applies it. *)
Definition to_string (v : strU) : jsstring :=
  match v with
  | Some s => s
  | None => str "undefined"
  end.

(** [v ?? ''] *)
Definition or_empty (v : strU) : jsstring :=
  match v with
  | Some s => s
  | None => []
  end.

(* ================================================================== *)
(** * Regular expressions *)
(* ================================================================== *)

(** The syntax the patterns of the parser use.  A non-capturing group is
    its body; [Grp i r] is the [i]-th capturing group. *)
Inductive regex : Type :=
| Eps
| Chr (c : cu)
| Cls (p : cu -> bool)
| Bol
| Eol
| Seq (a b : regex)
| Alt (a b : regex)
| Rep (greedy : bool) (min : nat) (max : option nat) (r : regex)
| Grp (i : nat) (r : regex).
Arguments Chr c%_N.

(** The state of a match: the index reached, the input from there on and
    the captures made so far, latest first. *)
Record mstate : Type := MState {
  m_pos : nat;
  m_rest : jsstring;
  m_caps : list (nat * jsstring)
}.

Definition cont := mstate -> option mstate.

Definition accept : cont := fun y => Some y.

Definition advance (x : mstate) (t : jsstring) : mstate :=
  MState (S (m_pos x)) t (m_caps x).

Fixpoint groups (r : regex) : list nat :=
  match r with
  | Seq a b | Alt a b => groups a ++ groups b
  | Rep _ _ _ a => groups a
  | Grp i a => i :: groups a
  | _ => []
  end.

Definition clear_caps (gs : list nat) (x : mstate) : mstate :=
  MState (m_pos x) (m_rest x)
         (filter (fun e => negb (existsb (Nat.eqb (fst e)) gs)) (m_caps x)).

Definition set_cap (i : nat) (s : jsstring) (x : mstate) : mstate :=
  MState (m_pos x) (m_rest x) ((i, s) :: m_caps x).

Fixpoint lookup_cap (i : nat) (cs : list (nat * jsstring)) : strU :=
  match cs with
  | [] => None
  | (j, s) :: t => if Nat.eqb i j then Some s else lookup_cap i t
  end.

Definition is_zero (max : option nat) : bool :=
  match max with
  | Some 0 => true
  | _ => false
  end.

(** RepeatMatcher: [mb] matches one iteration, [gs] are the groups of the
    body, [n] bounds the number of iterations still possible.  With
    [min = 0] an iteration that consumes nothing is rejected, so every
    further iteration advances in the input. *)
Fixpoint repeat (mb : cont -> mstate -> option mstate) (gs : list nat)
  (greedy : bool) (k : cont) (n min : nat) (max : option nat) (x : mstate)
  {struct n} : option mstate :=
  match n with
  | 0 => None
  | S n' =>
      if is_zero max then k x
      else
        let d := fun y =>
          if (min =? 0) && (m_pos y =? m_pos x) then None
          else repeat mb gs greedy k n' (pred min) (option_map pred max) y in
        if negb (min =? 0) then mb d (clear_caps gs x)
        else if greedy then
          match mb d (clear_caps gs x) with
          | Some z => Some z
          | None => k x
          end
        else
          match k x with
          | Some z => Some z
          | None => mb d (clear_caps gs x)
          end
  end.

(** The matcher of a pattern: [m r k x] tries [r] at [x] and then the
    continuation [k], backtracking into [r] when [k] fails. *)
Fixpoint m (r : regex) (k : cont) (x : mstate) {struct r} : option mstate :=
  match r with
  | Eps => k x
  | Chr c =>
      match m_rest x with
      | c' :: t => if cu_eqb c' c then k (advance x t) else None
      | [] => None
      end
  | Cls p =>
      match m_rest x with
      | c' :: t => if p c' then k (advance x t) else None
      | [] => None
      end
  | Bol => if m_pos x =? 0 then k x else None
  | Eol => match m_rest x with [] => k x | _ :: _ => None end
  | Seq a b => m a (fun y => m b k y) x
  | Alt a b =>
      match m a k x with
      | Some z => Some z
      | None => m b k x
      end
  | Rep greedy min max a =>
      repeat (fun k' y => m a k' y) (groups a) greedy k
             (S (min + length (m_rest x))) min max x
  | Grp i a =>
      m a (fun y => k (set_cap i (firstn (m_pos y - m_pos x) (m_rest x)) y)) x
  end.

(** The result of a successful [exec]: [match.index], [match[0]] and the
    captures. *)
Record MatchResult : Type := MkMatch {
  index : nat;
  match0 : jsstring;
  captures : list (nat * jsstring)
}.

(** [match[i]] for [i >= 1]. *)
Definition cap (mr : MatchResult) (i : nat) : strU :=
  lookup_cap i (captures mr).

(** The search of a pattern without the g and y flags: the first index,
    from [i] on, at which the pattern matches. *)
Fixpoint exec_from (r : regex) (i : nat) (rest : jsstring)
  : option MatchResult :=
  match m r accept (MState i rest []) with
  | Some y => Some (MkMatch i (firstn (m_pos y - i) rest) (m_caps y))
  | None =>
      match rest with
      | [] => None
      | _ :: t => exec_from r (S i) t
      end
  end.

(** [r.exec(s)] and [s.match(r)] *)
Definition exec (r : regex) (s : jsstring) : option MatchResult :=
  exec_from r 0 s.

(** [r.test(s)] *)
Definition test (r : regex) (s : jsstring) : bool :=
  match exec r s with
  | Some _ => true
  | None => false
  end.

(** Concatenation of patterns, and the usual quantifiers. *)
Fixpoint seq (rs : list regex) : regex :=
  match rs with
  | [] => Eps
  | [r] => r
  | r :: t => Seq r (seq t)
  end.

Definition lit (s : string) : regex := seq (map Chr (str s)).
Arguments lit s%_string.
Definition star (r : regex) : regex := Rep true 0 None r.
Definition plus (r : regex) : regex := Rep true 1 None r.
Definition opt (r : regex) : regex := Rep true 0 (Some 1) r.
Definition lazy_star (r : regex) : regex := Rep false 0 None r.
Definition lazy_plus (r : regex) : regex := Rep false 1 None r.

Definition ch (a : ascii) : regex := Chr (N_of_ascii a).
Arguments ch a%_char.

(** ** String methods that take a pattern *)

(** [s.replace(r, ...)] for a pattern without the g flag; [repl] is the
    replacement expanded at a match. *)
Definition replace (s : jsstring) (r : regex)
  (repl : MatchResult -> jsstring) : jsstring :=
  match exec r s with
  | None => s
  | Some mr =>
      firstn (index mr) s ++ repl mr
      ++ skipn (index mr + length (match0 mr)) s
  end.

(** [s.replace(r, ...)] for a pattern with the g flag, from index [i] on:
    every match is replaced, the search resumes at the end of the previous
    match, one further after an empty match. *)
Fixpoint replace_g_from (n : nat) (r : regex)
  (repl : MatchResult -> jsstring) (i : nat) (rest : jsstring) : jsstring :=
  match n with
  | 0 => rest
  | S n' =>
      match exec_from r i rest with
      | None => rest
      | Some mr =>
          let pre := firstn (index mr - i) rest in
          let after := skipn (index mr - i + length (match0 mr)) rest in
          match match0 mr with
          | [] =>
              pre ++ repl mr ++
              match after with
              | [] => []
              | c :: t => c :: replace_g_from n' r repl (S (index mr)) t
              end
          | _ :: _ =>
              pre ++ repl mr ++
              replace_g_from n' r repl (index mr + length (match0 mr)) after
          end
      end
  end.

Definition replace_g (s : jsstring) (r : regex)
  (repl : MatchResult -> jsstring) : jsstring :=
  replace_g_from (S (length s)) r repl 0 s.

(** The replacement ['$1']. *)
Definition dollar1 (mr : MatchResult) : jsstring := or_empty (cap mr 1).

(** [s.split(r)] for a pattern without capturing groups: [p] is the start
    of the piece being collected, [q] the index at which a separator is
    tried next. *)
Fixpoint split_loop (n : nat) (r : regex) (s : jsstring) (p q : nat)
  : list jsstring :=
  match n with
  | 0 => [skipn p s]
  | S n' =>
      if q <? length s then
        match m r accept (MState q (skipn q s) []) with
        | None => split_loop n' r s p (S q)
        | Some y =>
            let e := Nat.min (m_pos y) (length s) in
            if e =? p then split_loop n' r s p (S q)
            else firstn (q - p) (skipn p s) :: split_loop n' r s e e
        end
      else [skipn p s]
  end.

Definition split_re (s : jsstring) (r : regex) : list jsstring :=
  match s with
  | [] =>
      match m r accept (MState 0 [] []) with
      | Some _ => []
      | None => [s]
      end
  | _ :: _ => split_loop (2 * length s + 2) r s 0 0
  end.

(* ================================================================== *)
(** * The data model (src/lib/definition) *)
(* ================================================================== *)

Inductive TextBodyStyle : Type := plain | italic | strong | code.

Definition style_eqb (a b : TextBodyStyle) : bool :=
  match a, b with
  | plain, plain | italic, italic | strong, strong | code, code => true
  | _, _ => false
  end.

(** [{ type: 'textBody', style, value }]; [value] is declared a string,
    and is [undefined] where the code stores a missing character. *)
Record TextBody : Type := MkTextBody {
  style : TextBodyStyle;
  value : strU
}.

(** [{ type: 'link', body, url }] *)
Record Link : Type := MkLink {
  body : list TextBody;
  url : jsstring
}.

(** [TextBody | Link] *)
Inductive Span : Type :=
| SText (t : TextBody)
| SLink (l : Link).

Inductive Block : Type :=
| HeadingBlock (level : nat) (body : list Span)
| QuoteBlock (body : list Span)
| ListBlock (ordered : bool) (items : list (list Span))
| ImageBlock (url altText caption : jsstring)
| CodeBlock (lang : strU) (body : jsstring)
| ThematicBreakBlock
| ParagraphBlock (body : list Span).

(* ================================================================== *)
(** * Outcomes *)
(* ================================================================== *)

(** What a call can throw: the [TypeError] of a property read on
    [undefined], or [new Error(message)]. *)
Inductive exn : Type :=
| TypeError
| Error (message : jsstring).

(** A call returns, throws, or exceeds the recursion bound [n] of the
    function ([OutOfFuel]); the bounds chosen below are never exceeded. *)
Inductive outcome (A : Type) : Type :=
| Ok (a : A)
| Throw (e : exn)
| OutOfFuel.
Arguments Ok {A} a.
Arguments Throw {A} e.
Arguments OutOfFuel {A}.

Definition bind {A B : Type} (o : outcome A) (f : A -> outcome B)
  : outcome B :=
  match o with
  | Ok a => f a
  | Throw e => Throw e
  | OutOfFuel => OutOfFuel
  end.

Notation "x <- o ;; f" := (bind o (fun x => f))
  (at level 61, o at next level, right associativity).

(** A value whose property is read: reading one of [undefined] throws. *)
Definition defined {A : Type} (v : option A) : outcome A :=
  match v with
  | Some a => Ok a
  | None => Throw TypeError
  end.

(* ================================================================== *)
(** * The patterns of src/lib/parser.ts *)
(* ================================================================== *)

Definition dot : regex := Cls is_dot.
Definition ws : regex := Cls is_space.

(** [/^(#{1,6})\s(.+)/] *)
Definition headingRegexp : regex :=
  seq [Bol; Grp 1 (Rep true 1 (Some 6) (ch "#")); ws; Grp 2 (plus dot)].

(** [/^(?:>\s.*\n?)+/] *)
Definition quoteRegexp : regex :=
  seq [Bol; plus (seq [ch ">"; ws; star dot; opt (Chr 10)])].

(** [/^(?:(?:-|\d+\.)\s(.+)\n?)+/] *)
Definition listRegexp : regex :=
  seq [Bol;
       plus (seq [Alt (ch "-") (seq [plus (Cls is_digit); ch "."]);
                  ws; Grp 1 (plus dot); opt (Chr 10)])].

(** The pattern of [imageRegexp] (parser.ts, line 84): [!], [[], a group
    of a greedy run of [.], [](], a group of a lazy non-empty run of [.],
    [)], a group of a greedy run of [.]. *)
Definition imageRegexp : regex :=
  seq [Bol; ch "!"; ch "["; Grp 1 (star dot); ch "]"; ch "(";
       Grp 2 (lazy_plus dot); ch ")"; Grp 3 (star dot)].

(** [/^```(\w+)?\n([\s\S]*?)\n```/] *)
Definition codeRegexp : regex :=
  seq [Bol; lit "```"; opt (Grp 1 (plus (Cls is_word))); Chr 10;
       Grp 2 (lazy_star (Cls is_any)); Chr 10; lit "```"].

(** [/^-{3,}/] *)
Definition thematicBreakRegexp : regex :=
  seq [Bol; Rep true 3 None (ch "-")].

(** [/\[.+?\]\(.+?\)/] *)
Definition linkRegexp : regex :=
  seq [ch "["; lazy_plus dot; ch "]"; ch "("; lazy_plus dot; ch ")"].

(** [/^([\s\S]+?)(?:\n|$)/] *)
Definition paragraphRegexp : regex :=
  seq [Bol; Grp 1 (lazy_plus (Cls is_any)); Alt (Chr 10) Eol].

(* ================================================================== *)
(** * The inline tokenizer of src/lib/parser.ts *)
(* ================================================================== *)

(** [{ style, text }], the run in progress; [text] is [undefined] when
    it was taken as the first character of an empty string. *)
Record Progress : Type := MkProgress {
  p_style : TextBodyStyle;
  p_text : strU
}.

Record TextBodyParseResult : Type := MkParse {
  text : jsstring;
  progress : option Progress;
  result : list TextBody
}.

(** [/^\*{2}/], [/^\*{1}/], [/^_{1}/] and the same for the backquote. *)
Definition strongHead : regex := seq [Bol; Rep true 2 (Some 2) (ch "*")].
Definition starHead : regex := seq [Bol; Rep true 1 (Some 1) (ch "*")].
Definition underscoreHead : regex := seq [Bol; Rep true 1 (Some 1) (ch "_")].
Definition backquoteHead : regex := seq [Bol; Rep true 1 (Some 1) (ch "`")].

Definition checkHeadStyle (text : jsstring) : TextBodyStyle * jsstring :=
  if test strongHead text then (strong, slice1 text 2)
  else if test starHead text then (italic, slice1 text 1)
  else if test underscoreHead text then (italic, slice1 text 1)
  else if test backquoteHead text then (code, slice1 text 1)
  else (plain, text).

(** [result[result.length - 1]]: [undefined] for an empty [result]. *)
Definition last_elem {A : Type} (l : list A) : option A :=
  match l with
  | [] => None
  | _ :: _ => nth_error l (length l - 1)
  end.

(** The marker the merge of an unterminated run writes back. *)
Definition mark (s : TextBodyStyle) : jsstring :=
  match s with
  | code => str "`"
  | strong => str "**"
  | _ => str "_"
  end.

(** [parseTextBodyStyle], with the bound [n] on the nested calls.  The
    two [default] branches of the source, which throw 'Unexpected style',
    belong to no value of the closed type [TextBodyStyle] and have no
    counterpart here. *)
Fixpoint parseTextBodyStyle_fuel (n : nat) (a : TextBodyParseResult)
  : outcome TextBodyParseResult :=
  match n with
  | 0 => OutOfFuel
  | S n' =>
      if length (text a) =? 0 then
        match progress a with
        | Some p =>
            if negb (style_eqb (p_style p) plain) then
              l <- defined (last_elem (result a)) ;;
              if style_eqb (style l) plain then
                Ok (MkParse (text a) None
                      (slice2 (result a) 0 (-1)
                       ++ [MkTextBody plain
                             (Some (to_string (value l) ++ mark (p_style p)
                                    ++ to_string (p_text p)))]))
              else
                Ok (MkParse (text a) None
                      (result a ++ [MkTextBody (p_style p) (p_text p)]))
            else
              Ok (MkParse (text a) None
                    (result a ++ [MkTextBody (p_style p) (p_text p)]))
        | None => Ok (MkParse (text a) None (result a))
        end
      else
        let (headStyle, headText) := checkHeadStyle (text a) in
        let progressStyle := option_map p_style (progress a) in
        let progressText :=
          match progress a with Some p => p_text p | None => None end in
        let first := char_at headText 0 in
        let rest := slice1 headText 1 in
        match progressStyle with
        | None =>
            parseTextBodyStyle_fuel n'
              (MkParse rest (Some (MkProgress headStyle first)) (result a))
        | Some plain =>
            match headStyle with
            | plain =>
                parseTextBodyStyle_fuel n'
                  (MkParse rest
                     (Some (MkProgress plain
                              (Some (or_empty progressText
                                     ++ to_string first))))
                     (result a))
            | _ =>
                parseTextBodyStyle_fuel n'
                  (MkParse rest (Some (MkProgress headStyle first))
                     (match progress a with
                      | Some p =>
                          result a ++ [MkTextBody plain (p_text p)]
                      | None => result a
                      end))
            end
        | Some ps =>
            if style_eqb headStyle ps then
              parseTextBodyStyle_fuel n'
                (MkParse headText None
                   (result a
                    ++ [MkTextBody ps (Some (or_empty progressText))]))
            else
              parseTextBodyStyle_fuel n'
                (MkParse rest
                   (Some (MkProgress ps
                            (Some (or_empty progressText
                                   ++ to_string first))))
                   (result a))
        end
  end.

(** The recursion consumes at least one character of [text] in every
    call, so [length text + 1] calls suffice. *)
Definition parseTextBodyStyle (a : TextBodyParseResult)
  : outcome TextBodyParseResult :=
  parseTextBodyStyle_fuel (S (length (text a))) a.

(** The tokenizer proper: the finished runs of a scan that starts with
    no run in progress. *)
Definition tokenize (input : jsstring) : outcome (list TextBody) :=
  r <- parseTextBodyStyle (MkParse input None []) ;; Ok (result r).

(* ================================================================== *)
(** * The link extractor and the inline-body builder *)
(* ================================================================== *)

(** [/\[(.+)\]/] and [/\((.+)\)/] *)
Definition labelRegexp : regex := seq [ch "["; Grp 1 (plus dot); ch "]"].
Definition urlRegexp : regex := seq [ch "("; Grp 1 (plus dot); ch ")"].

(** [match?.[1]] *)
Definition cap1_of (o : option MatchResult) : strU :=
  match o with
  | Some mr => cap mr 1
  | None => None
  end.

(** What [filter(Boolean)] keeps of a list of strings and links. *)
Definition truthy (item : jsstring + Link) : bool :=
  match item with
  | inl s => negb (length s =? 0)
  | inr _ => true
  end.

Fixpoint parseLinkInText_fuel (n : nat) (input : jsstring)
  : outcome (list (jsstring + Link)) :=
  match n with
  | 0 => OutOfFuel
  | S n' =>
      match exec linkRegexp input with
      | None => Ok [inl input]
      | Some linkMatch =>
          let link := match0 linkMatch in
          r <- parseTextBodyStyle
                 (MkParse (or_empty (cap1_of (exec labelRegexp link)))
                          None []) ;;
          let body := result r in
          let url := or_empty (cap1_of (exec urlRegexp link)) in
          let linkBlock := MkLink body url in
          let linkStartIndex := indexOf input link in
          let before := slice2 input 0 linkStartIndex in
          let after :=
            slice1 input (linkStartIndex + Z.of_nat (length link)) in
          tl <- parseLinkInText_fuel n' after ;;
          Ok (filter truthy ([inl before; inr linkBlock] ++ tl))
      end
  end.

(** Every recursive call is on the text after a non-empty link. *)
Definition parseLinkInText (input : jsstring)
  : outcome (list (jsstring + Link)) :=
  parseLinkInText_fuel (S (length input)) input.

(** The [map] and [flat] of [parseTextBody], item by item. *)
Fixpoint styleItems (items : list (jsstring + Link)) : outcome (list Span) :=
  match items with
  | [] => Ok []
  | inl s :: tl =>
      r <- parseTextBodyStyle (MkParse s None []) ;;
      spans <- styleItems tl ;;
      Ok (map SText (result r) ++ spans)
  | inr l :: tl =>
      spans <- styleItems tl ;;
      Ok (SLink l :: spans)
  end.

Definition parseTextBody (input : jsstring) : outcome (list Span) :=
  linkParsedTextList <- parseLinkInText input ;;
  styleItems linkParsedTextList.

(* ================================================================== *)
(** * The block builders *)
(* ================================================================== *)

Definition parseParagraphBlock (input : jsstring) : outcome Block :=
  body <- parseTextBody input ;; Ok (ParagraphBlock body).

Definition parseHeadingBlock (input : jsstring) : outcome Block :=
  match exec headingRegexp input with
  | None => Throw (Error (str "Invalid heading block"))
  | Some mr =>
      hashes <- defined (cap mr 1) ;;
      let level := length hashes in
      text <- defined (cap mr 2) ;;
      body <- parseTextBody text ;;
      Ok (HeadingBlock level body)
  end.

(** [/\n>[ ]?/g] and [/^>\s/] *)
Definition quoteLineRegexp : regex := seq [Chr 10; ch ">"; opt (ch " ")].
Definition quoteHeadRegexp : regex := seq [Bol; ch ">"; ws].

Definition parseQuoteBlock (input : jsstring) : outcome Block :=
  match exec quoteRegexp input with
  | None => Throw (Error (str "Invalid quote block"))
  | Some mr =>
      let text :=
        replace (replace_g (match0 mr) quoteLineRegexp (fun _ => nl))
                quoteHeadRegexp (fun _ => []) in
      body <- parseTextBody text ;;
      Ok (QuoteBlock body)
  end.

(** [/\n+/] and [/^\d{1,}\./] *)
Definition newlinesRegexp : regex := plus (Chr 10).
Definition orderedRegexp : regex :=
  seq [Bol; Rep true 1 None (Cls is_digit); ch "."].

Definition nonBlank (line : jsstring) : bool :=
  negb (jsstring_eqb (trim line) []).

Definition parseListItem (line : jsstring) : outcome (list Span) :=
  match exec listRegexp line with
  | None => Throw (Error (str "Invalid list item"))
  | Some mr =>
      content <- defined (cap mr 1) ;;
      parseTextBody content
  end.

(** [lines.map(parseListItem)], in order. *)
Fixpoint mapM {A B : Type} (f : A -> outcome B) (l : list A)
  : outcome (list B) :=
  match l with
  | [] => Ok []
  | a :: t => b <- f a ;; bs <- mapM f t ;; Ok (b :: bs)
  end.

Definition parseListBlock (input : jsstring) : outcome Block :=
  let lines := filter nonBlank (split_re input newlinesRegexp) in
  let matches := map (exec listRegexp) lines in
  let ordered :=
    forallb (fun o => match o with
                      | Some mr => test orderedRegexp (match0 mr)
                      | None => false
                      end) matches in
  items <- mapM parseListItem lines ;;
  Ok (ListBlock ordered items).

(** [/^\((.+)\)$/] *)
Definition captionRegexp : regex :=
  seq [Bol; ch "("; Grp 1 (plus dot); ch ")"; Eol].

Definition parseImageBlock (input : jsstring) : outcome Block :=
  match exec imageRegexp input with
  | None => Throw (Error (str "Invalid image block"))
  | Some mr =>
      altText <- defined (cap mr 1) ;;
      url <- defined (cap mr 2) ;;
      tail <- defined (cap mr 3) ;;
      let caption := replace tail captionRegexp dollar1 in
      Ok (ImageBlock url altText caption)
  end.

(** [v || undefined] *)
Definition or_undefined (v : strU) : strU :=
  match v with
  | Some [] => None
  | _ => v
  end.

Definition parseCodeBlock (input : jsstring) : outcome Block :=
  match exec codeRegexp input with
  | None => Throw (Error (str "Invalid code block"))
  | Some mr =>
      let lang := or_undefined (cap mr 1) in
      body <- defined (cap mr 2) ;;
      Ok (CodeBlock lang body)
  end.

Definition parseThematicBreakBlock (_ : jsstring) : outcome Block :=
  Ok ThematicBreakBlock.

(* ================================================================== *)
(** * The block matcher *)
(* ================================================================== *)

Definition regexpToParserPairs : list (regex * (jsstring -> outcome Block)) :=
  [ (headingRegexp, parseHeadingBlock);
    (quoteRegexp, parseQuoteBlock);
    (listRegexp, parseListBlock);
    (imageRegexp, parseImageBlock);
    (codeRegexp, parseCodeBlock);
    (thematicBreakRegexp, parseThematicBreakBlock);
    (paragraphRegexp, parseParagraphBlock) ].

Definition noMatchingBlock (input : jsstring) : exn :=
  Error (str "No matching block found for input: " ++ input).

(** The [for] loop of [parseBlocks] over the rules [pairs]; [recur] is
    the recursive call. *)
Fixpoint firstMatch (recur : jsstring -> outcome (list Block))
  (pairs : list (regex * (jsstring -> outcome Block))) (input : jsstring)
  : outcome (list Block) :=
  match pairs with
  | [] => Throw (noMatchingBlock input)
  | (regexp, parser) :: tl =>
      if test regexp input then
        match exec regexp input with
        | None => Throw (Error (str "Invalid block"))
        | Some mr =>
            b <- parser (trim (match0 mr)) ;;
            bs <- recur (trim (slice1 input (Z.of_nat (length (match0 mr))))) ;;
            Ok (b :: bs)
        end
      else firstMatch recur tl input
  end.

Fixpoint parseBlocks_fuel (n : nat) (input : jsstring)
  : outcome (list Block) :=
  match n with
  | 0 => OutOfFuel
  | S n' =>
      if jsstring_eqb (trim input) [] then Ok []
      else firstMatch (parseBlocks_fuel n') regexpToParserPairs input
  end.

(** Every recursive call is on a strictly shorter input, so
    [length input + 1] nested calls suffice. *)
Definition parseBlocks (input : jsstring) : outcome (list Block) :=
  parseBlocks_fuel (S (length input)) input.

(* ================================================================== *)
(** * The document splitter, the frontmatter and [parse] *)
(* ================================================================== *)

(** [/^(---\n[\s\S]*?---)\n*/] *)
Definition headRegexp : regex :=
  seq [Bol;
       Grp 1 (seq [lit "---"; Chr 10; lazy_star (Cls is_any); lit "---"]);
       star (Chr 10)].

(** [split(input)]: the pair of [head] and [body]. *)
Definition split (input : jsstring) : jsstring * jsstring :=
  let trimmed := trim input in
  let head := or_empty (cap1_of (exec headRegexp trimmed)) in
  let body := trim (slice1 trimmed (Z.of_nat (length head))) in
  (head, body).

(** [/---\n+([\s\S]+)---/] and [/^(.+?):\s(.+)/] *)
Definition contentRegexp : regex :=
  seq [lit "---"; plus (Chr 10); Grp 1 (plus (Cls is_any)); lit "---"].
Definition keyValueRegexp : regex :=
  seq [Bol; Grp 1 (lazy_plus dot); ch ":"; ws; Grp 2 (plus dot)].

(** The pattern that strips one quote character on either side of a
    value: an optional single or double quote, a group of a lazy
    non-empty run of [.], an optional quote, the end of the string. *)
Definition is_quote (c : cu) : bool := (c =? 34)%N || (c =? 39)%N.
Definition unquoteRegexp : regex :=
  seq [Bol; opt (Cls is_quote); Grp 1 (lazy_plus dot); opt (Cls is_quote);
       Eol].

(** [map.set(key, value)] on the entries of a [Map], in insertion
    order. *)
Fixpoint map_set (entries : list (jsstring * jsstring)) (key value : jsstring)
  : list (jsstring * jsstring) :=
  match entries with
  | [] => [(key, value)]
  | (k, v) :: tl =>
      if jsstring_eqb k key then (k, value) :: tl
      else (k, v) :: map_set tl key value
  end.

(** The body of the [for] loop of [parseFrontmatter]. *)
Definition frontmatterLine (entries : list (jsstring * jsstring))
  (line : jsstring) : list (jsstring * jsstring) :=
  match exec keyValueRegexp line with
  | None => entries
  | Some mr =>
      match cap mr 1, cap mr 2 with
      | Some ((_ :: _) as key), Some ((_ :: _) as value) =>
          let trimmedKey := trim key in
          let trimmedValue := replace (trim value) unquoteRegexp dollar1 in
          map_set entries trimmedKey trimmedValue
      | _, _ => entries
      end
  end.

(** The entries of the returned record. *)
Definition parseFrontmatter (input : jsstring) : list (jsstring * jsstring) :=
  match cap1_of (exec contentRegexp input) with
  | None | Some [] => []
  | Some content =>
      let lines := filter nonBlank (split_re content newlinesRegexp) in
      fold_left frontmatterLine lines []
  end.

Record Document : Type := MkDocument {
  frontmatter : list (jsstring * jsstring);
  blocks : list Block
}.

Definition parse (input : jsstring) : outcome Document :=
  let (head, body) := split input in
  let frontmatter := parseFrontmatter head in
  blocks <- parseBlocks body ;;
  Ok (MkDocument frontmatter blocks).

(* ================================================================== *)
(** * The standalone tokenizer of src/lib/parseTextBody.ts *)
(* ================================================================== *)

Module Standalone.

(** [{ style, text }], the run in progress and the finished runs. *)
Record Run : Type := MkRun {
  r_style : TextBodyStyle;
  r_text : strU
}.

Record ParseResult : Type := MkResult {
  text : jsstring;
  progress : option Run;
  result : list Run
}.

Definition checkHeadStyle (text : jsstring) : TextBodyStyle * jsstring :=
  if test strongHead text then (strong, slice1 text 2)
  else if test starHead text then (italic, slice1 text 1)
  else if test underscoreHead text then (italic, slice1 text 1)
  else if test backquoteHead text then (code, slice1 text 1)
  else (plain, text).

(** [parseTextBodyStyle] of parseTextBody.ts, with the bound [n] on the
    nested calls. *)
Fixpoint parseTextBodyStyle_fuel (n : nat) (a : ParseResult)
  : outcome ParseResult :=
  match n with
  | 0 => OutOfFuel
  | S n' =>
      if length (text a) =? 0 then
        Ok (MkResult (text a) None
              (match progress a with
               | Some p => result a ++ [p]
               | None => result a
               end))
      else
        let (headStyle, headText) := checkHeadStyle (text a) in
        let progressStyle := option_map r_style (progress a) in
        let progressText :=
          match progress a with Some p => r_text p | None => None end in
        let first := char_at headText 0 in
        let rest := slice1 headText 1 in
        match progressStyle with
        | None =>
            parseTextBodyStyle_fuel n'
              (MkResult rest (Some (MkRun headStyle first)) (result a))
        | Some plain =>
            match headStyle with
            | plain =>
                parseTextBodyStyle_fuel n'
                  (MkResult rest
                     (Some (MkRun plain
                              (Some (or_empty progressText
                                     ++ to_string first))))
                     (result a))
            | _ =>
                parseTextBodyStyle_fuel n'
                  (MkResult rest (Some (MkRun headStyle first))
                     (match progress a with
                      | Some p => result a ++ [p]
                      | None => result a
                      end))
            end
        | Some ps =>
            if style_eqb headStyle ps then
              parseTextBodyStyle_fuel n'
                (MkResult headText None
                   (result a ++ [MkRun ps (Some (or_empty progressText))]))
            else
              parseTextBodyStyle_fuel n'
                (MkResult rest
                   (Some (MkRun ps
                            (Some (or_empty progressText
                                   ++ to_string first))))
                   (result a))
        end
  end.

Definition parseTextBodyStyle (a : ParseResult) : outcome ParseResult :=
  parseTextBodyStyle_fuel (S (length (text a))) a.

Definition parseTextBody (input : jsstring) : outcome (list TextBody) :=
  r <- parseTextBodyStyle (MkResult input None []) ;;
  Ok (map (fun run => MkTextBody (r_style run) (r_text run)) (result r)).

End Standalone.

(* ================================================================== *)
(** * Notions the properties are stated with *)
(* ================================================================== *)

(** The markers: [*], [_] and the backquote. *)
Definition is_marker (c : cu) : bool :=
  (c =? 42)%N || (c =? 95)%N || (c =? 96)%N.

(** What [parseTextBodyStyle] returns once [text] is exhausted. *)
Definition finish (a : TextBodyParseResult) : outcome TextBodyParseResult :=
  match progress a with
  | Some p =>
      if negb (style_eqb (p_style p) plain) then
        l <- defined (last_elem (result a)) ;;
        if style_eqb (style l) plain then
          Ok (MkParse (text a) None
                (slice2 (result a) 0 (-1)
                 ++ [MkTextBody plain
                       (Some (to_string (value l) ++ mark (p_style p)
                              ++ to_string (p_text p)))]))
        else
          Ok (MkParse (text a) None
                (result a ++ [MkTextBody (p_style p) (p_text p)]))
      else
        Ok (MkParse (text a) None
              (result a ++ [MkTextBody (p_style p) (p_text p)]))
  | None => Ok (MkParse (text a) None (result a))
  end.

(** The argument of the recursive call of [parseTextBodyStyle] on a
    non-empty [text]: one step of the scan. *)
Definition next (a : TextBodyParseResult) : TextBodyParseResult :=
  let (headStyle, headText) := checkHeadStyle (text a) in
  let first := char_at headText 0 in
  let rest := slice1 headText 1 in
  match progress a with
  | None => MkParse rest (Some (MkProgress headStyle first)) (result a)
  | Some p =>
      match p_style p with
      | plain =>
          match headStyle with
          | plain =>
              MkParse rest
                (Some (MkProgress plain
                         (Some (or_empty (p_text p) ++ to_string first))))
                (result a)
          | _ =>
              MkParse rest (Some (MkProgress headStyle first))
                (result a ++ [MkTextBody plain (p_text p)])
          end
      | ps =>
          if style_eqb headStyle ps then
            MkParse headText None
              (result a ++ [MkTextBody ps (Some (or_empty (p_text p)))])
          else
            MkParse rest
              (Some (MkProgress ps
                       (Some (or_empty (p_text p) ++ to_string first))))
              (result a)
      end
  end.

(** The state in which the scan ends: [next] repeated until [text] is
    exhausted. *)
Fixpoint scan_fuel (n : nat) (a : TextBodyParseResult) : TextBodyParseResult :=
  match n with
  | 0 => a
  | S n' => if length (text a) =? 0 then a else scan_fuel n' (next a)
  end.

Definition scan (a : TextBodyParseResult) : TextBodyParseResult :=
  scan_fuel (length (text a)) a.

(** The state in which the scan of a whole input ends. *)
Definition scanEnd (input : jsstring) : TextBodyParseResult :=
  scan (MkParse input None []).

(** [a] and [b] are consecutive elements of [l]. *)
Definition consecutive {A : Type} (l : list A) (a b : A) : Prop :=
  exists i, nth_error l i = Some a /\ nth_error l (S i) = Some b.

(** No two consecutive runs are both plain. *)
Definition no_plain_pair (l : list TextBody) : Prop :=
  forall a b, consecutive l a b -> ~ (style a = plain /\ style b = plain).

(** The invariant of the scan: the finished runs have no two consecutive
    plain runs, and a plain run is last only while a styled run is in
    progress. *)
Definition scan_inv (a : TextBodyParseResult) : Prop :=
  no_plain_pair (result a) /\
  forall y, last_elem (result a) = Some y -> style y = plain ->
            exists p, progress a = Some p /\ p_style p <> plain.

(** A state of the standalone tokenizer as a state of the tokenizer of
    parser.ts. *)
Definition run_body (r : Standalone.Run) : TextBody :=
  MkTextBody (Standalone.r_style r) (Standalone.r_text r).

Definition run_progress (r : Standalone.Run) : Progress :=
  MkProgress (Standalone.r_style r) (Standalone.r_text r).

Definition of_standalone (b : Standalone.ParseResult) : TextBodyParseResult :=
  MkParse (Standalone.text b) (option_map run_progress (Standalone.progress b))
          (map run_body (Standalone.result b)).

(** The finished runs with the run in progress, if any, appended as it
    is. *)
Definition flushed (a : TextBodyParseResult) : list TextBody :=
  match progress a with
  | Some p => result a ++ [MkTextBody (p_style p) (p_text p)]
  | None => result a
  end.

(** One step of the scan of the standalone tokenizer. *)
Definition standalone_next (b : Standalone.ParseResult)
  : Standalone.ParseResult :=
  let (headStyle, headText) := Standalone.checkHeadStyle (Standalone.text b) in
  let first := char_at headText 0 in
  let rest := slice1 headText 1 in
  match Standalone.progress b with
  | None =>
      Standalone.MkResult rest (Some (Standalone.MkRun headStyle first))
        (Standalone.result b)
  | Some p =>
      match Standalone.r_style p with
      | plain =>
          match headStyle with
          | plain =>
              Standalone.MkResult rest
                (Some (Standalone.MkRun plain
                         (Some (or_empty (Standalone.r_text p)
                                ++ to_string first))))
                (Standalone.result b)
          | _ =>
              Standalone.MkResult rest
                (Some (Standalone.MkRun headStyle first))
                (Standalone.result b ++ [p])
          end
      | ps =>
          if style_eqb headStyle ps then
            Standalone.MkResult headText None
              (Standalone.result b
               ++ [Standalone.MkRun ps
                     (Some (or_empty (Standalone.r_text p)))])
          else
            Standalone.MkResult rest
              (Some (Standalone.MkRun ps
                       (Some (or_empty (Standalone.r_text p)
                              ++ to_string first))))
              (Standalone.result b)
      end
  end.

(** ** Marked-up source text *)

(** The markers as they are written: [**], [*], [_] and the backquote. *)
Inductive Marker : Type := Star2 | Star | Underscore | Backquote.

Definition marker_str (mk : Marker) : jsstring :=
  match mk with
  | Star2 => str "**"
  | Star => str "*"
  | Underscore => str "_"
  | Backquote => str "`"
  end.

Definition marker_style (mk : Marker) : TextBodyStyle :=
  match mk with
  | Star2 => strong
  | Star | Underscore => italic
  | Backquote => code
  end.

(** [reconstructs runs s]: [s] is the concatenation of the values of
    [runs], each styled value between an opening and a closing marker of
    its style. *)
Inductive reconstructs : list TextBody -> jsstring -> Prop :=
| rec_nil : reconstructs [] []
| rec_plain (v : jsstring) (runs : list TextBody) (s : jsstring) :
    reconstructs runs s ->
    reconstructs (MkTextBody plain (Some v) :: runs) (v ++ s)
| rec_styled (o c : Marker) (v : jsstring) (runs : list TextBody)
    (s : jsstring) :
    marker_style o = marker_style c ->
    reconstructs runs s ->
    reconstructs (MkTextBody (marker_style o) (Some v) :: runs)
                 (marker_str o ++ v ++ marker_str c ++ s).

(** A piece of marked-up text: a plain stretch, or a span between an
    opening and a closing marker. *)
Inductive Segment : Type :=
| PlainSeg (v : jsstring)
| StyledSeg (o c : Marker) (v : jsstring).

Definition seg_source (s : Segment) : jsstring :=
  match s with
  | PlainSeg v => v
  | StyledSeg o c v => marker_str o ++ v ++ marker_str c
  end.

Definition seg_run (s : Segment) : TextBody :=
  match s with
  | PlainSeg v => MkTextBody plain (Some v)
  | StyledSeg o _ v => MkTextBody (marker_style o) (Some v)
  end.

Definition marker_free (v : jsstring) : bool :=
  forallb (fun c => negb (is_marker c)) v.

Definition nonempty (v : jsstring) : bool := negb (length v =? 0).

(** A stretch or the text of a span is not empty and holds no marker
    character; the two markers of a span have the same style. *)
Definition seg_ok (s : Segment) : bool :=
  match s with
  | PlainSeg v => nonempty v && marker_free v
  | StyledSeg o c v =>
      style_eqb (marker_style o) (marker_style c)
      && nonempty v && marker_free v
  end.

(** [s2] may follow [s1]: two plain stretches are one stretch, and after
    an italic span closed with [*] no span opens with [*]. *)
Definition seg_follows (s1 s2 : Segment) : bool :=
  match s1, s2 with
  | PlainSeg _, PlainSeg _ => false
  | StyledSeg _ Star _, StyledSeg Star _ _ => false
  | StyledSeg _ Star _, StyledSeg Star2 _ _ => false
  | _, _ => true
  end.

Fixpoint segs_ok (l : list Segment) : bool :=
  match l with
  | [] => true
  | s :: t =>
      seg_ok s
      && match t with
         | [] => true
         | s2 :: _ => seg_follows s s2
         end
      && segs_ok t
  end.

Definition segs_source (l : list Segment) : jsstring :=
  concat (map seg_source l).

(** ** Notions about matches and outcomes *)

(** A lower bound of the length of what a pattern matches. *)
Fixpoint minlen (r : regex) : nat :=
  match r with
  | Eps | Bol | Eol => 0
  | Chr _ | Cls _ => 1
  | Seq a b => minlen a + minlen b
  | Alt a b => Nat.min (minlen a) (minlen b)
  | Rep _ min max a => if (min =? 0) || is_zero max then 0 else minlen a
  | Grp _ a => minlen a
  end.

(** [y] is reached from [x] by consuming [w]. *)
Definition consumes (x y : mstate) (w : jsstring) : Prop :=
  m_rest x = w ++ m_rest y /\ m_pos y = m_pos x + length w.

(** The property of a matcher that [m_consuming] establishes: when it
    succeeds, the continuation succeeded in a state reached by consuming
    at least [d] characters. *)
Definition consuming (d : nat) (mb : cont -> mstate -> option mstate) : Prop :=
  forall k x z, mb k x = Some z ->
  exists y w, consumes x y w /\ d <= length w /\ k y = Some z.

(** A matcher is local when it calls its continuation only in states
    reached by consuming input: two continuations that agree there give
    the same result. *)
Definition local (mb : cont -> mstate -> option mstate) : Prop :=
  forall k1 k2 x,
    (forall y w, consumes x y w -> k1 y = k2 y) -> mb k1 x = mb k2 x.

(** An outcome that is a value or an exception that satisfies [P]. *)
Definition throws_only {A : Type} (P : exn -> Prop) (o : outcome A) : Prop :=
  match o with
  | Ok _ => True
  | Throw e => P e
  | OutOfFuel => False
  end.

(** The exceptions of the block builders and of the unreachable
    ['Invalid block'] branch: a [TypeError], or an [Error] whose message
    starts with ["Invalid "]. *)
Definition builder_error (e : exn) : Prop :=
  match e with
  | TypeError => True
  | Error message => starts_with (str "Invalid ") message = true
  end.

(** The length of the text up to the first line feed, the line feed
    included. *)
Fixpoint line_length (s : jsstring) : nat :=
  match s with
  | [] => 0
  | c :: t => if cu_eqb c 10%N then 1 else S (line_length t)
  end.

(** The input holds an occurrence of the link syntax: ["["], a label,
    ["]("], a url and [")"], where the label and the url are not empty
    and hold no line terminator. *)
Definition has_link (input : jsstring) : Prop :=
  exists pre label url post,
    input = pre ++ str "[" ++ label ++ str "](" ++ url ++ str ")" ++ post
    /\ label <> [] /\ url <> []
    /\ forallb is_dot label = true /\ forallb is_dot url = true.

(** ** Quoted lines *)

(** A line of a quote: [>], a space and the content of the line. *)
Definition quote_line (c : jsstring) : jsstring := str "> " ++ c.

(** The lines joined by line feeds. *)
Fixpoint join_lines (l : list jsstring) : jsstring :=
  match l with
  | [] => []
  | [x] => x
  | x :: t => x ++ nl ++ join_lines t
  end.

(** The text starts with [>] and a white-space character. *)
Definition starts_quote (s : jsstring) : bool :=
  match s with
  | c1 :: c2 :: _ => cu_eqb c1 62 && is_space c2
  | _ => false
  end.

(** The content of a line: no line terminator in it. *)
Definition line_content (c : jsstring) : bool := forallb is_dot c.

(** The content is not empty and does not end with white space. *)
Definition ends_with_text (c : jsstring) : bool :=
  match rev c with
  | x :: _ => negb (is_space x)
  | [] => false
  end.

(** What may follow the quoted lines: nothing, or a line feed and a text
    that does not start a further quoted line. *)
Definition after_quote (tail : jsstring) : bool :=
  match tail with
  | [] => true
  | c :: rest => cu_eqb c 10 && negb (starts_quote rest)
  end.

(** The body of [quoteRegexp], one line of a quote. *)
Definition quoteLine : regex :=
  seq [ch ">"; ws; star dot; opt (Chr 10)].

(** The text of the quoted lines with the contents [c1 :: l]. *)
Definition quoted (c1 : jsstring) (l : list jsstring) : jsstring :=
  quote_line c1 ++ concat (map (fun y => nl ++ quote_line y) l).

(* ================================================================== *)
(** * Further notions *)
(* ================================================================== *)

(** The value of a run is a string that is not empty. *)
Definition value_ok (t : TextBody) : Prop :=
  exists s, value t = Some s /\ s <> [].

(** The invariant of the scan about values: the finished runs have
    non-empty values, and the text of the run in progress is not empty,
    or [undefined] once the input is exhausted. *)
Definition value_inv (a : TextBodyParseResult) : Prop :=
  Forall value_ok (result a)
  /\ match progress a with
     | None => True
     | Some p =>
         match p_text p with
         | Some t => t <> []
         | None => text a = []
         end
     end.

(* ================================================================== *)
(** * [splitLinkFromText] (src/lib/parser.ts) *)
(* ================================================================== *)

(** What [filter(Boolean)] keeps of a list of strings. *)
Definition truthy_string (s : jsstring) : bool := negb (length s =? 0).

Fixpoint splitLinkFromText_fuel (n : nat) (input : jsstring)
  : outcome (list jsstring) :=
  match n with
  | 0 => OutOfFuel
  | S n' =>
      match exec linkRegexp input with
      | None => Ok [input]
      | Some linkMatch =>
          let link := match0 linkMatch in
          let linkStartIndex := indexOf input link in
          let before := slice2 input 0 linkStartIndex in
          let after :=
            slice1 input (linkStartIndex + Z.of_nat (length link)) in
          tl <- splitLinkFromText_fuel n' after ;;
          Ok (filter truthy_string ([before; link] ++ tl))
      end
  end.

(** Every recursive call is on the text after a non-empty link. *)
Definition splitLinkFromText (input : jsstring) : outcome (list jsstring) :=
  splitLinkFromText_fuel (S (length input)) input.

(** An item of [parseLinkInText] and the piece of [splitLinkFromText] it
    comes from: the same string, or the link built from the link
    literal. *)
Definition item_of_piece (item : jsstring + Link) (piece : jsstring) : Prop :=
  match item with
  | inl s => s = piece
  | inr l =>
      tokenize (or_empty (cap1_of (exec labelRegexp piece))) = Ok (body l)
      /\ url l = or_empty (cap1_of (exec urlRegexp piece))
      /\ piece <> []
  end.

(** ** Runs of one character *)

(** A matcher that consumes one character that satisfies [p]: the
    matcher of a literal character or of a class. *)
Definition char_matcher (p : cu -> bool)
  (mb : cont -> mstate -> option mstate) : Prop :=
  (forall k pos c t caps,
      mb k (MState pos (c :: t) caps)
      = if p c then k (MState (S pos) t caps) else None)
  /\ (forall k pos caps, mb k (MState pos [] caps) = None).

(** The text starts with no character that satisfies [p]. *)
Definition stops (p : cu -> bool) (s : jsstring) : bool :=
  match s with
  | [] => true
  | c :: _ => negb (p c)
  end.

(** [k] times the character [#], and [k] times the character [-]. *)
Definition hashes (k : nat) : jsstring := List.repeat 35%N k.
Definition hyphens (k : nat) : jsstring := List.repeat 45%N k.

(** ** Lines of a paragraph *)

(** Every character but the line feed. *)
Definition not_lf (c : cu) : bool := negb (cu_eqb c 10%N).

(** The first character of a heading, a quote, a list, an image, a code
    block or a thematic break. *)
Definition opens_block (c : cu) : bool :=
  cu_eqb c 35%N || cu_eqb c 62%N || cu_eqb c 45%N || cu_eqb c 33%N
  || cu_eqb c 96%N || is_digit c.

(** ** Fenced code *)

(** Three backquotes, and the line feed and three backquotes that end a
    block of code. *)
Definition ticks : jsstring := str "```".
Definition fence : jsstring := nl ++ ticks.

(** The captures of the code pattern: the language, when there is one,
    and the body. *)
Definition lang_caps (lang : jsstring) : list (nat * jsstring) :=
  match lang with
  | [] => []
  | _ :: _ => [(1, lang)]
  end.

(** ** Images *)

(** The text does not hold the character [c]. *)
Definition no_char (c : cu) (s : jsstring) : bool :=
  forallb (fun x => negb (cu_eqb x c)) s.
Arguments no_char c%_N s.

(** ** Lists *)

(** The marker of a list item: a hyphen, or a number and a dot. *)
Inductive ItemMark : Type :=
| Bullet
| Number (digits : jsstring).

Definition mark_str (mk : ItemMark) : jsstring :=
  match mk with
  | Bullet => str "-"
  | Number d => d ++ str "."
  end.

Definition numbered (mk : ItemMark) : bool :=
  match mk with
  | Bullet => false
  | Number _ => true
  end.

(** The number of a marker is not empty and made of digits. *)
Definition mark_ok (mk : ItemMark) : bool :=
  match mk with
  | Bullet => true
  | Number d => negb (length d =? 0) && forallb is_digit d
  end.

(** A line of a list: the marker, a space and the content. *)
Definition item_line (it : ItemMark * jsstring) : jsstring :=
  mark_str (fst it) ++ str " " ++ snd it.

(** The content of an item is not empty and holds no line terminator. *)
Definition item_ok (it : ItemMark * jsstring) : bool :=
  mark_ok (fst it) && negb (length (snd it) =? 0) && line_content (snd it).

(** The first character of a marker. *)
Definition opens_item (c : cu) : bool := cu_eqb c 45%N || is_digit c.

(** What may follow the lines of a list: nothing, or a line feed and a
    text that does not start with a hyphen or a digit. *)
Definition after_list (tail : jsstring) : bool :=
  match tail with
  | [] => true
  | c :: rest => cu_eqb c 10%N && stops opens_item rest
  end.

(** The body of [listRegexp], one item. *)
Definition listItem : regex :=
  seq [Alt (ch "-") (seq [plus (Cls is_digit); ch "."]);
       ws; Grp 1 (plus dot); opt (Chr 10)].

(** A line of a text split at line feeds: not empty, no line feed. *)
Definition line_ok (l : jsstring) : bool :=
  negb (length l =? 0) && forallb not_lf l.

(** ** The frontmatter *)

(** One quote character, or nothing. *)
Definition opt_quote (q : jsstring) : bool :=
  match q with
  | [] => true
  | [c] => is_quote c
  | _ => false
  end.

(** The text has a last character, and it is no quote character. *)
Definition ends_unquoted (s : jsstring) : bool :=
  match rev s with
  | [] => false
  | c :: _ => negb (is_quote c)
  end.

(** A line of the frontmatter: the key, a colon, a space and the
    value. *)
Definition entry_line (kv : jsstring * jsstring) : jsstring :=
  fst kv ++ str ": " ++ snd kv.

(** The key and the value are not empty and hold no line terminator, and
    the key holds no colon. *)
Definition entry_ok (kv : jsstring * jsstring) : bool :=
  negb (length (fst kv) =? 0) && line_content (fst kv)
  && no_char 58 (fst kv)
  && negb (length (snd kv) =? 0) && line_content (snd kv).

(** What [parseFrontmatter] stores for a line: the trimmed key, and the
    trimmed value without the quote characters around it. *)
Definition set_entry (entries : list (jsstring * jsstring))
  (kv : jsstring * jsstring) : list (jsstring * jsstring) :=
  map_set entries (trim (fst kv))
          (replace (trim (snd kv)) unquoteRegexp dollar1).


(* ================================================================== *)
(** * Facts about the string methods *)
(* ================================================================== *)

Lemma rel_index_of_nat (len n : nat) :
  rel_index len (Z.of_nat n) = Nat.min n len.
Proof.
  unfold rel_index.
  destruct (Z.ltb_spec (Z.of_nat n) 0) as [H | H]; [lia |].
  now rewrite Nat2Z.id.
Qed.

Lemma slice1_of_nat {A : Type} (s : list A) (n : nat) :
  slice1 s (Z.of_nat n) = skipn n s.
Proof.
  unfold slice1. rewrite rel_index_of_nat.
  destruct (Nat.le_ge_cases n (length s)) as [H | H].
  - now rewrite Nat.min_l.
  - rewrite Nat.min_r by assumption.
    now rewrite !skipn_all2 by lia.
Qed.

Lemma slice1_1 {A : Type} (s : list A) : slice1 s 1 = skipn 1 s.
Proof. exact (slice1_of_nat s 1). Qed.

Lemma slice1_2 {A : Type} (s : list A) : slice1 s 2 = skipn 2 s.
Proof. exact (slice1_of_nat s 2). Qed.

Lemma slice2_init {A : Type} (l : list A) (x : A) :
  slice2 (l ++ [x]) 0 (-1) = l.
Proof.
  unfold slice2, rel_index. simpl.
  rewrite length_app. simpl.
  replace (Z.to_nat (Z.max 0 (Z.of_nat (length l + 1) + -1))) with (length l)
    by lia.
  rewrite Nat.sub_0_r, firstn_app, Nat.sub_diag, firstn_all. simpl.
  apply app_nil_r.
Qed.

Lemma last_elem_snoc {A : Type} (l : list A) (x : A) :
  last_elem (l ++ [x]) = Some x.
Proof.
  unfold last_elem.
  destruct (l ++ [x]) eqn:E.
  - now destruct l.
  - rewrite <- E, length_app. simpl.
    rewrite nth_error_app2 by lia.
    now replace (length l + 1 - 1 - length l) with 0 by lia.
Qed.

Lemma last_elem_inv {A : Type} (l : list A) (x : A) :
  last_elem l = Some x -> exists l', l = l' ++ [x].
Proof.
  destruct l as [| a l] using rev_ind; [discriminate |].
  rewrite last_elem_snoc. intros [= ->]. now exists l.
Qed.

Lemma trimStart_length (s : jsstring) : length (trimStart s) <= length s.
Proof.
  induction s as [| c s IH]; simpl; [lia |].
  destruct (is_space c); simpl; lia.
Qed.

Lemma trim_length (s : jsstring) : length (trim s) <= length s.
Proof.
  unfold trim, trimEnd.
  rewrite length_rev.
  etransitivity; [apply trimStart_length |].
  rewrite length_rev. apply trimStart_length.
Qed.

Lemma jsstring_eqb_nil (s : jsstring) : jsstring_eqb s [] = true <-> s = [].
Proof. destruct s; simpl; split; congruence. Qed.

(* ================================================================== *)
(** * Facts about the matcher *)
(* ================================================================== *)

(** A pattern that starts with [^] matches at index 0 only. *)
Lemma exec_from_Bol (r : regex) (rest : jsstring) (i : nat) :
  0 < i -> exec_from (Seq Bol r) i rest = None.
Proof.
  revert i. induction rest as [| c rest IH]; intros i Hi; simpl;
    destruct (Nat.eqb_spec i 0); try lia; auto.
Qed.

Lemma exec_anchored (r : regex) (s : jsstring) :
  exec (Seq Bol r) s =
  match m r accept (MState 0 s []) with
  | Some y => Some (MkMatch 0 (firstn (m_pos y) s) (m_caps y))
  | None => None
  end.
Proof.
  unfold exec. destruct s as [| c s]; simpl.
  - destruct (m r accept (MState 0 [] [])); [| reflexivity].
    now rewrite Nat.sub_0_r.
  - destruct (m r accept (MState 0 (c :: s) [])).
    + now rewrite Nat.sub_0_r.
    + apply exec_from_Bol. lia.
Qed.

(** The four tests of [checkHeadStyle] look at the first one or two
    characters. *)
Lemma test_head1 (c : cu) (s : jsstring) :
  test (Seq Bol (Rep true 1 (Some 1) (Chr c))) s =
  match s with
  | c' :: _ => cu_eqb c' c
  | [] => false
  end.
Proof.
  unfold test. rewrite exec_anchored.
  destruct s as [| c' s]; simpl; [reflexivity |].
  now destruct (cu_eqb c' c).
Qed.

Lemma test_head2 (c : cu) (s : jsstring) :
  test (Seq Bol (Rep true 2 (Some 2) (Chr c))) s =
  match s with
  | c1 :: c2 :: _ => cu_eqb c1 c && cu_eqb c2 c
  | _ => false
  end.
Proof.
  unfold test. rewrite exec_anchored.
  destruct s as [| c1 [| c2 s]]; simpl; [reflexivity | |].
  - now destruct (cu_eqb c1 c).
  - destruct (cu_eqb c1 c); simpl; [| reflexivity].
    now destruct (cu_eqb c2 c).
Qed.

Lemma checkHeadStyle_eq (text : jsstring) :
  checkHeadStyle text =
  match text with
  | c1 :: t1 =>
      if (c1 =? 42)%N then
        match t1 with
        | c2 :: t2 => if (c2 =? 42)%N then (strong, t2) else (italic, t1)
        | [] => (italic, t1)
        end
      else if (c1 =? 95)%N then (italic, t1)
      else if (c1 =? 96)%N then (code, t1)
      else (plain, text)
  | [] => (plain, text)
  end.
Proof.
  unfold checkHeadStyle.
  change strongHead with (Seq Bol (Rep true 2 (Some 2) (Chr 42))).
  change starHead with (Seq Bol (Rep true 1 (Some 1) (Chr 42))).
  change underscoreHead with (Seq Bol (Rep true 1 (Some 1) (Chr 95))).
  change backquoteHead with (Seq Bol (Rep true 1 (Some 1) (Chr 96))).
  rewrite test_head2, !test_head1, slice1_1, slice1_2.
  unfold cu_eqb.
  destruct text as [| c1 [| c2 t2]]; simpl; [reflexivity | |].
  - now destruct (c1 =? 42)%N.
  - destruct (c1 =? 42)%N; simpl; [| reflexivity].
    now destruct (c2 =? 42)%N.
Qed.

Lemma Standalone_checkHeadStyle_eq (text : jsstring) :
  Standalone.checkHeadStyle text = checkHeadStyle text.
Proof. reflexivity. Qed.

(* ================================================================== *)
(** * What a match consumes *)
(* ================================================================== *)

Lemma consumes_refl (x : mstate) : consumes x x [].
Proof. split; simpl; [reflexivity | lia]. Qed.

Lemma consumes_trans (x y z : mstate) (w1 w2 : jsstring) :
  consumes x y w1 -> consumes y z w2 -> consumes x z (w1 ++ w2).
Proof.
  intros [H1 H2] [H3 H4]. split.
  - now rewrite H1, H3, app_assoc.
  - rewrite length_app. lia.
Qed.

Lemma clear_caps_nil (x : mstate) : clear_caps [] x = x.
Proof.
  destruct x as [pos rest caps]. unfold clear_caps. simpl. f_equal.
  induction caps as [| e caps IH]; simpl; congruence.
Qed.

Lemma repeat_consuming (d : nat) (mb : cont -> mstate -> option mstate)
  (gs : list nat) (greedy : bool) (k : cont) :
  consuming d mb ->
  forall n min max x z,
    repeat mb gs greedy k n min max x = Some z ->
    exists y w, consumes x y w
                /\ (if (min =? 0) || is_zero max then 0 else d) <= length w
                /\ k y = Some z.
Proof.
  intros Hmb. induction n as [| n IH]; intros min max x z; [discriminate |].
  cbn [repeat].
  destruct (is_zero max) eqn:Hmax.
  { intros Hk. exists x, []. rewrite orb_true_r.
    split; [apply consumes_refl | split; [simpl; lia | assumption]]. }
  rewrite orb_false_r.
  set (d' := fun y => if (min =? 0) && (m_pos y =? m_pos x) then None
                      else repeat mb gs greedy k n (pred min)
                                  (option_map pred max) y).
  assert (Hiter : mb d' (clear_caps gs x) = Some z ->
                  exists y w, consumes x y w /\ d <= length w /\ k y = Some z).
  { intros H. apply Hmb in H as [y1 [w1 [[Hc1 Hp1] [Hd1 H]]]].
    unfold d' in H.
    destruct ((min =? 0) && (m_pos y1 =? m_pos x)); [discriminate |].
    apply IH in H as [y [w [Hc [_ Hk]]]].
    exists y, (w1 ++ w). split; [| split; [| assumption]].
    - apply consumes_trans with (y := y1); [| assumption].
      split; assumption.
    - rewrite length_app. lia. }
  assert (Hskip : k x = Some z ->
                  exists y w, consumes x y w /\ 0 <= length w /\ k y = Some z).
  { intros Hk. exists x, [].
    split; [apply consumes_refl | split; [simpl; lia | assumption]]. }
  destruct (min =? 0) eqn:Hmin; simpl.
  - assert (Hweak : mb d' (clear_caps gs x) = Some z ->
                    exists y w, consumes x y w /\ 0 <= length w
                                /\ k y = Some z).
    { intros H. destruct (Hiter H) as [y [w [Hc [_ Hk]]]].
      exists y, w. split; [assumption | split; [lia | assumption]]. }
    destruct greedy.
    + destruct (mb d' (clear_caps gs x)) as [z' |] eqn:E.
      * intros [= <-]. now apply Hweak.
      * exact Hskip.
    + destruct (k x) as [z' |] eqn:E.
      * intros [= <-]. now apply Hskip.
      * exact Hweak.
  - exact Hiter.
Qed.

(** Whenever a pattern matches, the continuation succeeded after at
    least [minlen r] characters. *)
Lemma m_consuming (r : regex) : consuming (minlen r) (m r).
Proof.
  induction r as [| c | p | | | a IHa b IHb | a IHa b IHb
                  | greedy min max a IHa | i a IHa];
    intros k x z; cbn [m minlen].
  - intros H. exists x, []. split; [apply consumes_refl | auto].
  - destruct (m_rest x) as [| c' t] eqn:Hrest; [discriminate |].
    destruct (cu_eqb c' c); [| discriminate].
    intros H. exists (advance x t), [c'].
    split; [split; simpl; [assumption | lia] | simpl; auto].
  - destruct (m_rest x) as [| c' t] eqn:Hrest; [discriminate |].
    destruct (p c'); [| discriminate].
    intros H. exists (advance x t), [c'].
    split; [split; simpl; [assumption | lia] | simpl; auto].
  - destruct (m_pos x =? 0); [| discriminate].
    intros H. exists x, []. split; [apply consumes_refl | auto].
  - destruct (m_rest x); [| discriminate].
    intros H. exists x, []. split; [apply consumes_refl | auto].
  - intros H. apply IHa in H as [y1 [w1 [Hc1 [Hd1 H]]]].
    apply IHb in H as [y [w [Hc [Hd H]]]].
    exists y, (w1 ++ w).
    split; [now apply consumes_trans with (y := y1) |].
    rewrite length_app. split; [lia | assumption].
  - destruct (m a k x) as [z' |] eqn:E.
    + intros [= <-]. apply IHa in E as [y [w [Hc [Hd H]]]].
      exists y, w. split; [assumption | split; [lia | assumption]].
    + intros H. apply IHb in H as [y [w [Hc [Hd H]]]].
      exists y, w. split; [assumption | split; [lia | assumption]].
  - apply repeat_consuming. exact IHa.
  - intros H. apply IHa in H as [y [w [[Hc Hp] [Hd H]]]].
    eexists _, w. split; [| split; [assumption | exact H]].
    split; simpl; assumption.
Qed.

(** What a successful search returns: the match is a part of the subject
    of length at least [minlen r]. *)
Lemma exec_from_Some (r : regex) (rest : jsstring) (i : nat)
  (mr : MatchResult) :
  exec_from r i rest = Some mr ->
  exists pre post,
    rest = pre ++ match0 mr ++ post
    /\ index mr = i + length pre
    /\ minlen r <= length (match0 mr).
Proof.
  revert i. induction rest as [| c rest IH]; intros i; cbn [exec_from];
    destruct (m r accept (MState i _ [])) as [y |] eqn:E;
    try discriminate.
  - intros [= <-]. apply m_consuming in E as [y' [w [[Hc Hp] [Hd [= ->]]]]].
    simpl in *. exists [], (m_rest y). simpl.
    rewrite Hp, Hc. replace (i + length w - i) with (length w) by lia.
    rewrite firstn_app, Nat.sub_diag, firstn_all. simpl. rewrite app_nil_r.
    auto with arith.
  - intros [= <-]. apply m_consuming in E as [y' [w [[Hc Hp] [Hd [= ->]]]]].
    simpl in *. exists [], (m_rest y). simpl.
    rewrite Hp, Hc. replace (i + length w - i) with (length w) by lia.
    rewrite firstn_app, Nat.sub_diag, firstn_all. simpl. rewrite app_nil_r.
    auto with arith.
  - intros H. apply IH in H as [pre [post [H1 [H2 H3]]]].
    exists (c :: pre), post. simpl. rewrite H1 at 1.
    split; [reflexivity | split; [lia | assumption]].
Qed.

(** And for a pattern that starts with [^]: the match is a prefix. *)
Lemma exec_anchored_Some (r : regex) (s : jsstring) (mr : MatchResult) :
  exec (Seq Bol r) s = Some mr ->
  index mr = 0
  /\ minlen r <= length (match0 mr)
  /\ s = match0 mr ++ skipn (length (match0 mr)) s.
Proof.
  rewrite exec_anchored.
  destruct (m r accept (MState 0 s [])) as [y |] eqn:E; [| discriminate].
  intros [= <-]. simpl.
  apply m_consuming in E as [y' [w [[Hc Hp] [Hd [= ->]]]]]. simpl in *.
  rewrite Hp, Hc, firstn_app, Nat.sub_diag, firstn_all. simpl.
  rewrite app_nil_r, skipn_app, Nat.sub_diag, skipn_all. simpl.
  auto.
Qed.

(* ================================================================== *)
(** * The matcher, step by step *)
(* ================================================================== *)

Lemma repeat_S (mb : cont -> mstate -> option mstate) (gs : list nat)
  (greedy : bool) (k : cont) (n min : nat) (max : option nat) (x : mstate) :
  repeat mb gs greedy k (S n) min max x =
  if is_zero max then k x
  else
    let d := fun y =>
      if (min =? 0) && (m_pos y =? m_pos x) then None
      else repeat mb gs greedy k n (pred min) (option_map pred max) y in
    if negb (min =? 0) then mb d (clear_caps gs x)
    else if greedy then
      match mb d (clear_caps gs x) with
      | Some z => Some z
      | None => k x
      end
    else
      match k x with
      | Some z => Some z
      | None => mb d (clear_caps gs x)
      end.
Proof. reflexivity. Qed.

Lemma m_Chr_cons (c c' : cu) (k : cont) (pos : nat) (t : jsstring)
  (caps : list (nat * jsstring)) :
  m (Chr c) k (MState pos (c' :: t) caps) =
  if cu_eqb c' c then k (MState (S pos) t caps) else None.
Proof. reflexivity. Qed.

Lemma m_Chr_nil (c : cu) (k : cont) (pos : nat)
  (caps : list (nat * jsstring)) :
  m (Chr c) k (MState pos [] caps) = None.
Proof. reflexivity. Qed.

Lemma m_Cls_cons (p : cu -> bool) (c' : cu) (k : cont) (pos : nat)
  (t : jsstring) (caps : list (nat * jsstring)) :
  m (Cls p) k (MState pos (c' :: t) caps) =
  if p c' then k (MState (S pos) t caps) else None.
Proof. reflexivity. Qed.

Lemma m_Cls_nil (p : cu -> bool) (k : cont) (pos : nat)
  (caps : list (nat * jsstring)) :
  m (Cls p) k (MState pos [] caps) = None.
Proof. reflexivity. Qed.

Lemma m_Seq (a b : regex) (k : cont) (x : mstate) :
  m (Seq a b) k x = m a (fun y => m b k y) x.
Proof. reflexivity. Qed.

Lemma m_Alt (a b : regex) (k : cont) (x : mstate) :
  m (Alt a b) k x =
  match m a k x with
  | Some z => Some z
  | None => m b k x
  end.
Proof. reflexivity. Qed.

Lemma m_Eol (k : cont) (x : mstate) :
  m Eol k x = match m_rest x with [] => k x | _ :: _ => None end.
Proof. reflexivity. Qed.

Lemma m_Rep (greedy : bool) (min : nat) (max : option nat) (a : regex)
  (k : cont) (x : mstate) :
  m (Rep greedy min max a) k x =
  repeat (fun k' y => m a k' y) (groups a) greedy k
         (S (min + length (m_rest x))) min max x.
Proof. reflexivity. Qed.

Lemma m_Grp (i : nat) (a : regex) (k : cont) (x : mstate) :
  m (Grp i a) k x =
  m a (fun y => k (set_cap i (firstn (m_pos y - m_pos x) (m_rest x)) y)) x.
Proof. reflexivity. Qed.

Lemma succ_neqb (n : nat) : (S n =? n) = false.
Proof. apply Nat.eqb_neq. lia. Qed.

(* ================================================================== *)
(** * The paragraph rule *)
(* ================================================================== *)

Lemma is_any_true (c : cu) : is_any c = true.
Proof. unfold is_any. now destruct (is_space c). Qed.

(** The lazy run of the paragraph pattern stops at the first line feed
    or at the end of the input. *)
Lemma paragraph_run (g : mstate -> mstate) :
  (forall y, m_pos (g y) = m_pos y /\ m_rest (g y) = m_rest y) ->
  forall rest n pos caps,
    length rest < n ->
    exists z,
      repeat (fun k' y => m (Cls is_any) k' y) [] false
             (fun y => m (Alt (Chr 10) Eol) accept (g y))
             n 0 None (MState pos rest caps) = Some z
      /\ m_pos z = pos + line_length rest.
Proof.
  intros Hg. induction rest as [| c t IH]; intros n pos caps Hn;
    (destruct n as [| n]; [simpl in Hn; lia |]);
    rewrite repeat_S; cbn [is_zero negb Nat.eqb]; cbv beta zeta;
    rewrite m_Alt.
  - destruct (Hg (MState pos [] caps)) as [Hp Hr].
    destruct (g (MState pos [] caps)) as [gp gr gc]. simpl in Hp, Hr. subst.
    rewrite m_Chr_nil, m_Eol. simpl.
    eexists. split; [reflexivity |]. simpl. lia.
  - destruct (Hg (MState pos (c :: t) caps)) as [Hp Hr].
    destruct (g (MState pos (c :: t) caps)) as [gp gr gc].
    simpl in Hp, Hr. subst.
    rewrite m_Chr_cons, m_Eol. cbn [line_length m_rest].
    destruct (cu_eqb c 10) eqn:Ec.
    + eexists. split; [reflexivity |]. simpl. lia.
    + rewrite clear_caps_nil, m_Cls_cons, is_any_true.
      cbn [m_pos andb pred option_map]. rewrite succ_neqb.
      destruct (IH n (S pos) caps ltac:(simpl in Hn; lia)) as [z [Hz Hpz]].
      rewrite Hz. exists z. split; [reflexivity | lia].
Qed.

(** The paragraph rule matches every input that is not empty: the first
    character and the text up to the next line feed, the line feed
    included, or up to the end of the input. *)
Lemma exec_paragraphRegexp (c : cu) (t : jsstring) :
  exists caps,
    exec paragraphRegexp (c :: t)
    = Some (MkMatch 0 (c :: firstn (line_length t) t) caps).
Proof.
  change paragraphRegexp
    with (Seq Bol (Seq (Grp 1 (Rep false 1 None (Cls is_any)))
                       (Alt (Chr 10) Eol))).
  rewrite exec_anchored, m_Seq, m_Grp, m_Rep.
  cbn [m_rest length Nat.add groups]. rewrite repeat_S.
  cbn [is_zero negb Nat.eqb]. cbv beta zeta.
  rewrite clear_caps_nil, m_Cls_cons, is_any_true.
  cbn [andb pred option_map].
  set (g := fun y : mstate =>
              set_cap 1 (firstn (m_pos y - m_pos (MState 0 (c :: t) []))
                                (m_rest (MState 0 (c :: t) []))) y).
  destruct (@paragraph_run g ltac:(intros y; split; reflexivity)
              t (S (S (length t))) 1 [] ltac:(lia)) as [z [Hz Hpz]].
  unfold g in Hz. cbn [m_rest] in Hz. rewrite Hz. exists (m_caps z). rewrite Hpz. reflexivity.
Qed.

(* ================================================================== *)
(** * The bound of a repetition is never exceeded *)
(* ================================================================== *)

Lemma consumes_clear_caps (gs : list nat) (x y : mstate) (w : jsstring) :
  consumes (clear_caps gs x) y w -> consumes x y w.
Proof. intros H. exact H. Qed.

Lemma repeat_local (mb : cont -> mstate -> option mstate) (gs : list nat)
  (greedy : bool) :
  local mb ->
  forall n min max, local (fun k x => repeat mb gs greedy k n min max x).
Proof.
  intros Hmb. induction n as [| n IH]; intros min max k1 k2 x Hk;
    [reflexivity |].
  rewrite !repeat_S.
  assert (Hx : k1 x = k2 x) by (apply (Hk x []), consumes_refl).
  assert (Hd : mb (fun y => if (min =? 0) && (m_pos y =? m_pos x) then None
                            else repeat mb gs greedy k1 n (pred min)
                                        (option_map pred max) y)
                  (clear_caps gs x)
               = mb (fun y => if (min =? 0) && (m_pos y =? m_pos x) then None
                              else repeat mb gs greedy k2 n (pred min)
                                          (option_map pred max) y)
                    (clear_caps gs x)).
  { apply Hmb. intros y w Hy.
    destruct ((min =? 0) && (m_pos y =? m_pos x)); [reflexivity |].
    apply (IH (pred min) (option_map pred max)).
    intros y' w' Hy'. apply (Hk y' (w ++ w')).
    apply consumes_trans with (y := y); [| assumption].
    now apply consumes_clear_caps with (gs := gs). }
  cbv zeta. now rewrite Hx, Hd.
Qed.

Lemma m_local (r : regex) : local (m r).
Proof.
  induction r as [| c | p | | | a IHa b IHb | a IHa b IHb
                  | greedy min max a IHa | i a IHa];
    intros k1 k2 x Hk; cbn [m].
  - apply (Hk x []), consumes_refl.
  - destruct (m_rest x) as [| c' t] eqn:E; [reflexivity |].
    destruct (cu_eqb c' c); [| reflexivity].
    apply (Hk _ [c']). split; simpl; [assumption | lia].
  - destruct (m_rest x) as [| c' t] eqn:E; [reflexivity |].
    destruct (p c'); [| reflexivity].
    apply (Hk _ [c']). split; simpl; [assumption | lia].
  - destruct (m_pos x =? 0); [| reflexivity].
    apply (Hk x []), consumes_refl.
  - destruct (m_rest x); [| reflexivity].
    apply (Hk x []), consumes_refl.
  - apply IHa. intros y w Hy. apply IHb. intros y' w' Hy'.
    apply (Hk y' (w ++ w')). now apply consumes_trans with (y := y).
  - rewrite (IHa k1 k2 x Hk), (IHb k1 k2 x Hk). reflexivity.
  - apply (@repeat_local (fun k' y => m a k' y) (groups a) greedy);
      [| assumption].
    intros k1' k2' x' Hk'. now apply IHa.
  - apply IHa. intros y w [Hy1 Hy2]. apply (Hk _ w). split; assumption.
Qed.

(** With more iterations allowed than [min] and the characters left, a
    repetition does not depend on the bound: every iteration, once [min]
    are done, consumes a character. *)
Lemma repeat_bound (mb : cont -> mstate -> option mstate) (gs : list nat)
  (greedy : bool) (k : cont) :
  local mb ->
  forall n n' min max x,
    min + length (m_rest x) < n ->
    min + length (m_rest x) < n' ->
    repeat mb gs greedy k n min max x = repeat mb gs greedy k n' min max x.
Proof.
  intros Hmb. induction n as [| n IH]; intros n' min max x Hn Hn'; [lia |].
  destruct n' as [| n']; [lia |].
  rewrite !repeat_S.
  assert (Hd : mb (fun y => if (min =? 0) && (m_pos y =? m_pos x) then None
                            else repeat mb gs greedy k n (pred min)
                                        (option_map pred max) y)
                  (clear_caps gs x)
               = mb (fun y => if (min =? 0) && (m_pos y =? m_pos x) then None
                              else repeat mb gs greedy k n' (pred min)
                                          (option_map pred max) y)
                    (clear_caps gs x)).
  { apply Hmb. intros y w [Hy1 Hy2]. cbn [clear_caps m_rest m_pos] in Hy1, Hy2.
    destruct (Nat.eqb_spec min 0) as [Hmin | Hmin]; cbn [andb].
    - destruct (Nat.eqb_spec (m_pos y) (m_pos x)) as [Hpos | Hpos];
        [reflexivity |].
      assert (Hlen : length (m_rest x) = length w + length (m_rest y))
        by (rewrite Hy1; apply length_app).
      apply IH; subst min; simpl; lia.
    - assert (Hlen : length (m_rest x) = length w + length (m_rest y))
        by (rewrite Hy1; apply length_app).
      apply IH; lia. }
  cbv zeta. now rewrite Hd.
Qed.

(** So the bound [m] gives to a repetition is adequate. *)
Lemma m_Rep_bound (greedy : bool) (min : nat) (max : option nat)
  (a : regex) (k : cont) (x : mstate) (n : nat) :
  min + length (m_rest x) < n ->
  repeat (fun k' y => m a k' y) (groups a) greedy k n min max x
  = m (Rep greedy min max a) k x.
Proof.
  intros Hn. rewrite m_Rep. apply repeat_bound; [| assumption | lia].
  intros k1 k2 y Hk. now apply m_local.
Qed.

(* ================================================================== *)
(** * The scan of the tokenizer *)
(* ================================================================== *)

Lemma parseTextBodyStyle_fuel_S (n : nat) (a : TextBodyParseResult) :
  parseTextBodyStyle_fuel (S n) a =
  if length (text a) =? 0 then finish a
  else parseTextBodyStyle_fuel n (next a).
Proof.
  unfold finish, next. cbn [parseTextBodyStyle_fuel].
  destruct (length (text a) =? 0); [reflexivity |].
  destruct (checkHeadStyle (text a)) as [headStyle headText].
  destruct (progress a) as [p |]; cbn [option_map]; [| reflexivity].
  destruct (p_style p), headStyle; reflexivity.
Qed.

Lemma checkHeadStyle_length (t : jsstring) :
  length (snd (checkHeadStyle t)) <= length t /\
  (fst (checkHeadStyle t) <> plain ->
   length (snd (checkHeadStyle t)) < length t).
Proof.
  rewrite checkHeadStyle_eq.
  destruct t as [| c1 t1]; simpl; [split; [lia | congruence] |].
  destruct (c1 =? 42)%N.
  - destruct t1 as [| c2 t2]; simpl; [split; lia |].
    destruct (c2 =? 42)%N; simpl; split; lia.
  - destruct (c1 =? 95)%N; simpl; [split; lia |].
    destruct (c1 =? 96)%N; simpl; split; (lia || congruence).
Qed.

(** Every step consumes at least one character. *)
Lemma next_length (a : TextBodyParseResult) :
  length (text a) <> 0 -> length (text (next a)) < length (text a).
Proof.
  intros Hne. unfold next.
  pose proof (checkHeadStyle_length (text a)) as [Hle Hlt].
  destruct (checkHeadStyle (text a)) as [hs ht]. simpl in Hle, Hlt.
  assert (Hrest : length (slice1 ht 1) < length (text a)).
  { rewrite slice1_1, length_skipn. lia. }
  destruct (progress a) as [p |]; [| exact Hrest].
  destruct (p_style p) eqn:Hp; destruct hs; simpl; try exact Hrest;
    apply Hlt; discriminate.
Qed.

(** The bound of [parseTextBodyStyle] is never exceeded: more fuel
    changes nothing. *)
Lemma parseTextBodyStyle_fuel_enough (n : nat) (a : TextBodyParseResult) :
  length (text a) < n ->
  parseTextBodyStyle_fuel n a = parseTextBodyStyle a.
Proof.
  unfold parseTextBodyStyle.
  remember (length (text a)) as len eqn:Hlen.
  revert n a Hlen.
  induction len as [len IH] using lt_wf_ind; intros n a Hlen Hn.
  destruct n as [| n]; [lia |].
  rewrite !parseTextBodyStyle_fuel_S.
  destruct (Nat.eqb_spec (length (text a)) 0) as [E | E]; [reflexivity |].
  pose proof (next_length a E) as Hlt.
  rewrite (IH (length (text (next a)))) by lia.
  rewrite (IH (length (text (next a))) ltac:(lia) len (next a)) by lia.
  reflexivity.
Qed.

(** The defining equation of [parseTextBodyStyle]. *)
Lemma parseTextBodyStyle_eq (a : TextBodyParseResult) :
  parseTextBodyStyle a =
  if length (text a) =? 0 then finish a else parseTextBodyStyle (next a).
Proof.
  unfold parseTextBodyStyle at 1. rewrite parseTextBodyStyle_fuel_S.
  destruct (Nat.eqb_spec (length (text a)) 0) as [E | E]; [reflexivity |].
  apply parseTextBodyStyle_fuel_enough. now apply next_length.
Qed.

Lemma scan_fuel_enough (n : nat) (a : TextBodyParseResult) :
  length (text a) <= n -> scan_fuel n a = scan a.
Proof.
  unfold scan.
  remember (length (text a)) as len eqn:Hlen.
  revert n a Hlen.
  induction len as [len IH] using lt_wf_ind; intros n a Hlen Hn.
  destruct n as [| n].
  - assert (len = 0) by lia. subst len. now rewrite H.
  - destruct len as [| len].
    + simpl. now rewrite <- Hlen.
    + simpl. rewrite <- Hlen. simpl.
      assert (E : length (text a) <> 0) by lia.
      pose proof (next_length a E) as Hlt.
      rewrite (IH (length (text (next a)))) by lia.
      rewrite (IH (length (text (next a))) ltac:(lia) len (next a)) by lia.
      reflexivity.
Qed.

Lemma scan_eq (a : TextBodyParseResult) :
  scan a = if length (text a) =? 0 then a else scan (next a).
Proof.
  unfold scan at 1.
  destruct (length (text a)) as [| len] eqn:Hlen; simpl; [reflexivity |].
  rewrite Hlen. simpl.
  apply scan_fuel_enough.
  pose proof (next_length a). lia.
Qed.

Lemma scan_text (a : TextBodyParseResult) : text (scan a) = [].
Proof.
  remember (length (text a)) as len eqn:Hlen.
  revert a Hlen.
  induction len as [len IH] using lt_wf_ind; intros a Hlen.
  rewrite scan_eq.
  destruct (Nat.eqb_spec (length (text a)) 0) as [E | E].
  - now apply length_zero_iff_nil.
  - apply (IH (length (text (next a)))); [| reflexivity].
    pose proof (next_length a E). lia.
Qed.

(** [parseTextBodyStyle] is the scan followed by the final flush. *)
Lemma parseTextBodyStyle_scan (a : TextBodyParseResult) :
  parseTextBodyStyle a = finish (scan a).
Proof.
  remember (length (text a)) as len eqn:Hlen.
  revert a Hlen.
  induction len as [len IH] using lt_wf_ind; intros a Hlen.
  rewrite parseTextBodyStyle_eq, scan_eq.
  destruct (Nat.eqb_spec (length (text a)) 0) as [E | E]; [reflexivity |].
  apply (IH (length (text (next a)))); [| reflexivity].
  pose proof (next_length a E). lia.
Qed.

Lemma scan_invariant (P : TextBodyParseResult -> Prop) :
  (forall a, length (text a) <> 0 -> P a -> P (next a)) ->
  forall a, P a -> P (scan a).
Proof.
  intros Hstep a.
  remember (length (text a)) as len eqn:Hlen.
  revert a Hlen.
  induction len as [len IH] using lt_wf_ind; intros a Hlen Ha.
  rewrite scan_eq.
  destruct (Nat.eqb_spec (length (text a)) 0) as [E | E]; [assumption |].
  apply (IH (length (text (next a)))); auto.
  pose proof (next_length a E). lia.
Qed.

(** ** Consecutive plain runs *)

Lemma consecutive_snoc {A : Type} (l : list A) (x a b : A) :
  consecutive (l ++ [x]) a b ->
  consecutive l a b \/ (last_elem l = Some a /\ b = x).
Proof.
  intros [i [Ha Hb]].
  destruct (Nat.lt_ge_cases (S i) (length l)) as [Hi | Hi].
  - left. exists i.
    rewrite nth_error_app1 in Ha by lia.
    rewrite nth_error_app1 in Hb by lia. auto.
  - assert (HS : S i < length (l ++ [x])).
    { apply nth_error_Some. congruence. }
    rewrite length_app in HS. simpl in HS.
    assert (S i = length l) by lia.
    right. split.
    + rewrite nth_error_app1 in Ha by lia.
      unfold last_elem. destruct l as [| c l]; [simpl in *; lia |].
      now replace (length (c :: l) - 1) with i by lia.
    + rewrite nth_error_app2 in Hb by lia.
      replace (S i - length l) with 0 in Hb by lia. simpl in Hb. congruence.
Qed.

Lemma consecutive_app_l {A : Type} (l l' : list A) (a b : A) :
  consecutive l a b -> consecutive (l ++ l') a b.
Proof.
  intros [i [Ha Hb]]. exists i.
  assert (S i < length l) by (apply nth_error_Some; congruence).
  rewrite !nth_error_app1 by lia. auto.
Qed.

Lemma consecutive_last {A : Type} (l : list A) (a x : A) :
  last_elem l = Some a -> consecutive (l ++ [x]) a x.
Proof.
  intros H. apply last_elem_inv in H as [l' ->].
  exists (length l'). split.
  - rewrite <- app_assoc.
    rewrite nth_error_app2 by lia. now rewrite Nat.sub_diag.
  - rewrite nth_error_app2 by (rewrite length_app; simpl; lia).
    assert (E : length (l' ++ [a]) = S (length l'))
      by (rewrite length_app; simpl; lia).
    now rewrite E, Nat.sub_diag.
Qed.

Lemma no_plain_pair_nil : no_plain_pair [].
Proof. intros a b [i [Ha _]]. now destruct i. Qed.

Lemma no_plain_pair_snoc (l : list TextBody) (x : TextBody) :
  no_plain_pair l ->
  (forall y, last_elem l = Some y -> ~ (style y = plain /\ style x = plain)) ->
  no_plain_pair (l ++ [x]).
Proof.
  intros Hl Hx a b Hab.
  apply consecutive_snoc in Hab as [Hab | [Ha ->]]; auto.
Qed.

Lemma no_plain_pair_replace_last (l : list TextBody) (x y : TextBody) :
  no_plain_pair (l ++ [y]) -> style x = style y -> no_plain_pair (l ++ [x]).
Proof.
  intros Hl Hxy a b Hab.
  apply consecutive_snoc in Hab as [Hab | [Ha ->]].
  - apply Hl. now apply consecutive_app_l.
  - rewrite Hxy. apply Hl. now apply consecutive_last.
Qed.

Local Ltac styled_step :=
  match goal with
  | |- no_plain_pair (_ ++ [_]) =>
      apply no_plain_pair_snoc; [assumption |];
      intros ? _ [_ Hx]; discriminate Hx
  | |- no_plain_pair _ => assumption
  | |- forall y, last_elem (_ ++ [_]) = Some y -> _ =>
      intros y Hy Hs; rewrite last_elem_snoc in Hy;
      injection Hy as <-; discriminate Hs
  | |- forall y, _ -> _ -> exists p, Some _ = Some p /\ _ =>
      intros; eexists; split; [reflexivity | discriminate]
  end.

Lemma scan_inv_next (a : TextBodyParseResult) :
  scan_inv a -> scan_inv (next a).
Proof.
  intros [Hnp Hlast]. unfold next.
  destruct (checkHeadStyle (text a)) as [hs ht].
  destruct (progress a) as [p |] eqn:Hp.
  - destruct (p_style p) eqn:Hps.
    + (* a plain run in progress *)
      assert (Hl : forall y, last_elem (result a) = Some y ->
                             style y <> plain).
      { intros y Hy Hpl. destruct (Hlast y Hy Hpl) as [q [[= <-] Hq]].
        congruence. }
      destruct hs; split; simpl; intros;
        try (apply no_plain_pair_snoc; [assumption |];
             intros y Hy [Hpl _]; now apply (Hl y));
        try assumption;
        try (exfalso; now apply (Hl y));
        try (eexists; split; [reflexivity | discriminate]).
    + destruct (style_eqb hs italic); split; simpl; styled_step.
    + destruct (style_eqb hs strong); split; simpl; styled_step.
    + destruct (style_eqb hs code); split; simpl; styled_step.
  - split; simpl; [assumption |].
    intros y Hy Hpl. destruct (Hlast y Hy Hpl) as [q [[=] _]].
Qed.

Lemma scan_inv_finish (a r : TextBodyParseResult) :
  scan_inv a -> finish a = Ok r -> no_plain_pair (result r).
Proof.
  intros [Hnp Hlast]. unfold finish.
  destruct (progress a) as [p |] eqn:Hp.
  - destruct (style_eqb (p_style p) plain) eqn:Hps; simpl.
    + intros [= <-]. simpl.
      apply no_plain_pair_snoc; [assumption |].
      intros y Hy [Hpl _].
      destruct (Hlast y Hy Hpl) as [q [[= <-] Hq]].
      destruct (p_style p); discriminate || congruence.
    + destruct (last_elem (result a)) as [l |] eqn:Hl; simpl; [| discriminate].
      destruct (style_eqb (style l) plain) eqn:Hsl; intros [= <-]; simpl.
      * destruct (last_elem_inv _ Hl) as [l' El].
        rewrite El, slice2_init.
        apply no_plain_pair_replace_last with (y := l).
        -- now rewrite <- El.
        -- simpl. destruct (style l); discriminate || reflexivity.
      * apply no_plain_pair_snoc; [assumption |].
        intros y Hy [_ Hx]. simpl in Hx. rewrite Hx in Hps. discriminate.
  - intros [= <-]. assumption.
Qed.

Lemma tokenize_scan (input : jsstring) :
  tokenize input = r <- finish (scanEnd input) ;; Ok (result r).
Proof. unfold tokenize, scanEnd. now rewrite parseTextBodyStyle_scan. Qed.

(* ================================================================== *)
(** * The tokenizer: properties *)
(* ================================================================== *)

(** C1 (the code breaks the claim): the tokenizer of parser.ts throws a
    [TypeError] on ["*a"].  The scan ends with the italic run ["a"] in
    progress and no finished run, and the test
    [result[result.length - 1].style] reads a property of [undefined];
    [parseTextBody] passes the exception on. *)
Theorem tokenizer_throws_on_open_run_without_finished_run :
  progress (scanEnd (str "*a")) = Some (MkProgress italic (Some (str "a")))
  /\ result (scanEnd (str "*a")) = []
  /\ tokenize (str "*a") = Throw TypeError
  /\ parseTextBody (str "*a") = Throw TypeError.
Proof. repeat split; vm_compute; reflexivity. Qed.

(** The same on every input whose scan ends like that of ["*a"]. *)
Lemma tokenize_throws (input : jsstring) (p : Progress) :
  progress (scanEnd input) = Some p ->
  p_style p <> plain ->
  result (scanEnd input) = [] ->
  tokenize input = Throw TypeError.
Proof.
  intros Hp Hs Hr. rewrite tokenize_scan. unfold finish.
  rewrite Hp, Hr. destruct (p_style p); try congruence; reflexivity.
Qed.

(** C3, as stated, fails: the runs of ["*a*_b_"] are two consecutive
    italic runs. *)
Lemma consecutive_italic_runs :
  tokenize (str "*a*_b_")
  = Ok [MkTextBody italic (Some (str "a")); MkTextBody italic (Some (str "b"))]
  /\ ~ (forall runs a b,
          tokenize (str "*a*_b_") = Ok runs ->
          consecutive runs a b -> style a <> style b).
Proof.
  split; [vm_compute; reflexivity |].
  intros H.
  apply (H _ (MkTextBody italic (Some (str "a")))
           (MkTextBody italic (Some (str "b")))
           ltac:(vm_compute; reflexivity)).
  - exists 0. split; reflexivity.
  - reflexivity.
Qed.

(** C3, amended: for every input on which the tokenizer returns, no two
    consecutive runs of the returned sequence are both plain. *)
Theorem tokenize_no_consecutive_plain
  (input : jsstring) (runs : list TextBody) (a b : TextBody) :
  tokenize input = Ok runs ->
  consecutive runs a b ->
  ~ (style a = plain /\ style b = plain).
Proof.
  rewrite tokenize_scan. intros Hr.
  destruct (finish (scanEnd input)) as [r | |] eqn:Hf; try discriminate.
  injection Hr as <-.
  apply (scan_inv_finish (a := scanEnd input)); [| assumption].
  unfold scanEnd.
  apply scan_invariant; [intros; now apply scan_inv_next |].
  split; simpl; [apply no_plain_pair_nil | discriminate].
Qed.

Lemma tokenize_no_consecutive_plain_witness :
  tokenize (str "a*b*c")
  = Ok [MkTextBody plain (Some (str "a")); MkTextBody italic (Some (str "b"));
        MkTextBody plain (Some (str "c"))]
  /\ ~ (style (MkTextBody plain (Some (str "a"))) = plain
        /\ style (MkTextBody italic (Some (str "b"))) = plain).
Proof.
  split; [vm_compute; reflexivity |].
  apply (@tokenize_no_consecutive_plain (str "a*b*c")
           [MkTextBody plain (Some (str "a"));
            MkTextBody italic (Some (str "b"));
            MkTextBody plain (Some (str "c"))]).
  - vm_compute; reflexivity.
  - exists 0. split; reflexivity.
Defined.

(** C5, as stated, fails: in ["a *b"] the unterminated italic run was
    opened with [*], and the merge writes [_] back. *)
Lemma unterminated_italic_marker :
  progress (scanEnd (str "a *b")) = Some (MkProgress italic (Some (str "b")))
  /\ result (scanEnd (str "a *b")) = [MkTextBody plain (Some (str "a "))]
  /\ tokenize (str "a *b") = Ok [MkTextBody plain (Some (str "a _b"))]
  /\ tokenize (str "a *b")
     <> Ok [MkTextBody plain (Some (str "a " ++ str "*" ++ str "b"))].
Proof. repeat split; try (vm_compute; reflexivity). vm_compute. discriminate. Qed.

(** C5, amended: when the scan of the input ends with a non-plain run in
    progress whose text is [t], and the last finished run is a plain run
    [v], the tokenizer returns the finished runs with that last run
    replaced by the plain run [v ++ mark ++ t], where [mark] is the fixed
    marker of the style of the open run: the backquote for code, [**] for
    strong and [_] for italic, whichever of [*] and [_] opened it. *)
Theorem unterminated_run_merged
  (input : jsstring) (p : Progress) (t v : jsstring) (init : list TextBody) :
  progress (scanEnd input) = Some p ->
  p_style p <> plain ->
  p_text p = Some t ->
  result (scanEnd input) = init ++ [MkTextBody plain (Some v)] ->
  tokenize input
  = Ok (init ++ [MkTextBody plain (Some (v ++ mark (p_style p) ++ t))])
  /\ mark code = str "`" /\ mark strong = str "**" /\ mark italic = str "_".
Proof.
  intros Hp Hs Ht Hr.
  split; [| repeat split].
  rewrite tokenize_scan. unfold finish.
  rewrite Hp, Hr, last_elem_snoc, slice2_init, Ht.
  destruct (p_style p); try congruence; reflexivity.
Qed.

Lemma unterminated_run_merged_witness :
  tokenize (str "a **b")
  = Ok ([] ++ [MkTextBody plain (Some (str "a " ++ mark strong ++ str "b"))])
  /\ mark code = str "`" /\ mark strong = str "**" /\ mark italic = str "_".
Proof.
  apply (@unterminated_run_merged (str "a **b")
           (MkProgress strong (Some (str "b"))) (str "b") (str "a ") []).
  - vm_compute; reflexivity.
  - simpl; discriminate.
  - reflexivity.
  - vm_compute; reflexivity.
Defined.

(** ** The two tokenizers *)

Lemma standalone_fuel_S (n : nat) (b : Standalone.ParseResult) :
  Standalone.parseTextBodyStyle_fuel (S n) b =
  if length (Standalone.text b) =? 0 then
    Ok (Standalone.MkResult (Standalone.text b) None
          (match Standalone.progress b with
           | Some p => Standalone.result b ++ [p]
           | None => Standalone.result b
           end))
  else Standalone.parseTextBodyStyle_fuel n (standalone_next b).
Proof.
  unfold standalone_next. cbn [Standalone.parseTextBodyStyle_fuel].
  destruct (length (Standalone.text b) =? 0); [reflexivity |].
  destruct (Standalone.checkHeadStyle (Standalone.text b)) as [hs ht].
  destruct (Standalone.progress b) as [p |]; cbn [option_map]; [| reflexivity].
  destruct (Standalone.r_style p), hs; reflexivity.
Qed.

(** The two scans proceed in lockstep. *)
Lemma of_standalone_next (b : Standalone.ParseResult) :
  of_standalone (standalone_next b) = next (of_standalone b).
Proof.
  unfold standalone_next, next, of_standalone.
  rewrite Standalone_checkHeadStyle_eq. simpl.
  destruct (checkHeadStyle (Standalone.text b)) as [hs ht].
  destruct (Standalone.progress b) as [[ps pt] |]; simpl; [| reflexivity].
  destruct ps, hs; simpl; rewrite ?map_app; reflexivity.
Qed.

(** The standalone tokenizer returns the finished runs of the scan with
    the run in progress appended as it is. *)
Lemma standalone_flushed (n : nat) (b : Standalone.ParseResult) :
  length (Standalone.text b) < n ->
  exists r, Standalone.parseTextBodyStyle_fuel n b = Ok r /\
            map run_body (Standalone.result r)
            = flushed (scan (of_standalone b)).
Proof.
  revert b. induction n as [| n IH]; intros b Hn; [lia |].
  rewrite standalone_fuel_S, scan_eq.
  change (text (of_standalone b)) with (Standalone.text b).
  destruct (Nat.eqb_spec (length (Standalone.text b)) 0) as [E | E].
  - eexists. split; [reflexivity |].
    unfold flushed, of_standalone. simpl.
    destruct (Standalone.progress b); simpl; [| reflexivity].
    now rewrite map_app.
  - rewrite <- of_standalone_next. apply IH.
    pose proof (next_length (of_standalone b) E) as Hlt.
    rewrite <- of_standalone_next in Hlt. simpl in Hlt, Hn. 
    change (text (of_standalone (standalone_next b)))
      with (Standalone.text (standalone_next b)) in Hlt.
    lia.
Qed.

(** C9: for every input whose scan ends with no styled run in progress
    (every opened styled run was closed), the standalone tokenizer of
    parseTextBody.ts and the tokenizer of parser.ts return the same
    sequence of runs. *)
Theorem tokenizers_agree (input : jsstring) :
  (forall p, progress (scanEnd input) = Some p -> p_style p = plain) ->
  exists runs, tokenize input = Ok runs
               /\ Standalone.parseTextBody input = Ok runs.
Proof.
  intros Hclosed.
  destruct (@standalone_flushed (S (length input))
              (Standalone.MkResult input None []) ltac:(simpl; lia))
    as [r [Hr Hm]].
  exists (flushed (scanEnd input)). split.
  - rewrite tokenize_scan. unfold finish, flushed.
    destruct (progress (scanEnd input)) as [p |] eqn:Hp; [| reflexivity].
    now rewrite (Hclosed p eq_refl).
  - unfold Standalone.parseTextBody, Standalone.parseTextBodyStyle.
    simpl Standalone.text. rewrite Hr. simpl.
    f_equal. exact Hm.
Qed.

Lemma tokenizers_agree_witness :
  exists runs, tokenize (str "a *b* `c`") = Ok runs
               /\ Standalone.parseTextBody (str "a *b* `c`") = Ok runs.
Proof.
  apply tokenizers_agree.
  vm_compute. intros p [=].
Defined.

(** ** Marked-up text that the tokenizer reads back *)

Arguments parseTextBodyStyle : simpl never.

Lemma is_marker_false (c : cu) :
  is_marker c = false ->
  (c =? 42)%N = false /\ (c =? 95)%N = false /\ (c =? 96)%N = false.
Proof.
  unfold is_marker. intros H.
  apply orb_false_elim in H as [H H3]. apply orb_false_elim in H as [H1 H2].
  auto.
Qed.

Lemma checkHeadStyle_plain (c : cu) (t : jsstring) :
  is_marker c = false -> checkHeadStyle (c :: t) = (plain, c :: t).
Proof.
  intros H. apply is_marker_false in H as [H1 [H2 H3]].
  rewrite checkHeadStyle_eq. now rewrite H1, H2, H3.
Qed.

(** A character that is no marker extends the run in progress. *)
Lemma parseTextBodyStyle_char (c : cu) (t : jsstring) (s : TextBodyStyle)
  (p : jsstring) (r : list TextBody) :
  is_marker c = false ->
  parseTextBodyStyle (MkParse (c :: t) (Some (MkProgress s (Some p))) r)
  = parseTextBodyStyle (MkParse t (Some (MkProgress s (Some (p ++ [c])))) r).
Proof.
  intros H. rewrite parseTextBodyStyle_eq. simpl.
  unfold next. simpl. rewrite (@checkHeadStyle_plain c t H), slice1_1.
  now destruct s.
Qed.

Lemma parseTextBodyStyle_chars (v t : jsstring) (s : TextBodyStyle)
  (p : jsstring) (r : list TextBody) :
  marker_free v = true ->
  parseTextBodyStyle (MkParse (v ++ t) (Some (MkProgress s (Some p))) r)
  = parseTextBodyStyle (MkParse t (Some (MkProgress s (Some (p ++ v)))) r).
Proof.
  revert p. induction v as [| c v IH]; intros p Hv; simpl.
  - now rewrite app_nil_r.
  - simpl in Hv. apply andb_prop in Hv as [Hc Hv].
    apply negb_true_iff in Hc.
    rewrite parseTextBodyStyle_char by assumption.
    rewrite IH by assumption. now rewrite <- app_assoc.
Qed.

(** A plain stretch read with no run in progress. *)
Lemma parseTextBodyStyle_plain (v t : jsstring) (r : list TextBody) :
  nonempty v = true -> marker_free v = true ->
  parseTextBodyStyle (MkParse (v ++ t) None r)
  = parseTextBodyStyle (MkParse t (Some (MkProgress plain (Some v))) r).
Proof.
  destruct v as [| c v]; [discriminate |]. intros _ Hv.
  simpl in Hv. apply andb_prop in Hv as [Hc Hv]. apply negb_true_iff in Hc.
  rewrite parseTextBodyStyle_eq. simpl.
  unfold next. simpl. rewrite (@checkHeadStyle_plain c _ Hc), slice1_1. simpl.
  change (char_at (c :: v ++ t) 0) with (Some [c]).
  now rewrite parseTextBodyStyle_chars.
Qed.

(** The head of a text that starts with a marker and a character that
    is no marker. *)
Lemma checkHeadStyle_marker (o : Marker) (c : cu) (t : jsstring) :
  is_marker c = false ->
  checkHeadStyle (marker_str o ++ c :: t) = (marker_style o, c :: t).
Proof.
  intros H. apply is_marker_false in H as [H1 _].
  rewrite checkHeadStyle_eq.
  destruct o; simpl; try reflexivity.
  now rewrite H1.
Qed.

(** An opening marker, read with no run or a plain run in progress. *)
Lemma parseTextBodyStyle_open (o : Marker) (c : cu) (t : jsstring)
  (prog : option Progress) (r : list TextBody) :
  is_marker c = false ->
  (forall p, prog = Some p -> p_style p = plain) ->
  parseTextBodyStyle (MkParse (marker_str o ++ c :: t) prog r)
  = parseTextBodyStyle
      (MkParse t (Some (MkProgress (marker_style o) (Some [c])))
               (flushed (MkParse [] prog r))).
Proof.
  intros Hc Hprog. rewrite parseTextBodyStyle_eq.
  replace (length (text (MkParse (marker_str o ++ c :: t) prog r)) =? 0)
    with false by (now destruct o).
  unfold next. cbn [text progress result].
  rewrite (@checkHeadStyle_marker o c t Hc), slice1_1. simpl.
  destruct prog as [p |]; [| reflexivity].
  unfold flushed. simpl. rewrite (Hprog p eq_refl).
  now destruct o.
Qed.

(** The head of a text that starts with a closing marker. *)
Lemma checkHeadStyle_close (c : Marker) (t : jsstring) :
  (c = Star -> forall t', t <> 42%N :: t') ->
  checkHeadStyle (marker_str c ++ t) = (marker_style c, t).
Proof.
  intros Ht. rewrite checkHeadStyle_eq.
  destruct c; simpl; try reflexivity.
  destruct t as [| c2 t2]; [reflexivity |].
  destruct (N.eqb_spec c2 42) as [-> | _]; [| reflexivity].
  now specialize (Ht eq_refl t2).
Qed.

(** A closing marker, read with a run of its style in progress. *)
Lemma parseTextBodyStyle_close (c : Marker) (t p : jsstring)
  (r : list TextBody) :
  (c = Star -> forall t', t <> 42%N :: t') ->
  parseTextBodyStyle
    (MkParse (marker_str c ++ t) (Some (MkProgress (marker_style c) (Some p))) r)
  = parseTextBodyStyle
      (MkParse t None (r ++ [MkTextBody (marker_style c) (Some p)])).
Proof.
  intros Ht. rewrite parseTextBodyStyle_eq.
  replace (length (text (MkParse (marker_str c ++ t)
                           (Some (MkProgress (marker_style c) (Some p))) r))
           =? 0)
    with false by (now destruct c).
  unfold next. cbn [text progress result].
  rewrite (@checkHeadStyle_close c t Ht).
  now destruct c.
Qed.

(** A whole span. *)
Lemma parseTextBodyStyle_span (o c : Marker) (v t : jsstring)
  (prog : option Progress) (r : list TextBody) :
  seg_ok (StyledSeg o c v) = true ->
  (forall p, prog = Some p -> p_style p = plain) ->
  (c = Star -> forall t', t <> 42%N :: t') ->
  parseTextBodyStyle
    (MkParse (seg_source (StyledSeg o c v) ++ t) prog r)
  = parseTextBodyStyle
      (MkParse t None
         (flushed (MkParse [] prog r) ++ [seg_run (StyledSeg o c v)])).
Proof.
  intros Hok Hprog Ht. simpl in Hok.
  apply andb_prop in Hok as [Hok Hfree]. apply andb_prop in Hok as [Hst Hne].
  destruct v as [| c1 v]; [discriminate |].
  simpl in Hfree. apply andb_prop in Hfree as [Hc1 Hfree].
  apply negb_true_iff in Hc1.
  assert (Hs : marker_style o = marker_style c)
    by (destruct o, c; simpl in Hst; congruence || reflexivity).
  cbn [seg_source seg_run].
  rewrite <- !app_assoc. cbn [app].
  rewrite parseTextBodyStyle_open by assumption.
  rewrite parseTextBodyStyle_chars by assumption.
  rewrite Hs. now rewrite parseTextBodyStyle_close.
Qed.

Lemma seg_source_head (s : Segment) (t : jsstring) :
  seg_ok s = true ->
  match s with
  | PlainSeg _ | StyledSeg Underscore _ _ | StyledSeg Backquote _ _ => True
  | _ => False
  end ->
  forall t', seg_source s ++ t <> 42%N :: t'.
Proof.
  intros Hok Hs t'. destruct s as [v | o c v].
  - simpl in *. apply andb_prop in Hok as [Hne Hfree].
    destruct v as [| c1 v]; [discriminate |].
    simpl in Hfree. apply andb_prop in Hfree as [Hc1 _].
    apply negb_true_iff in Hc1. apply is_marker_false in Hc1 as [H1 _].
    simpl. intros [= -> _]. discriminate.
  - destruct o; try contradiction; simpl; discriminate.
Qed.

(** The two cases of the induction: the segments read with no run in
    progress, and the segments after a plain stretch. *)
Lemma parseTextBodyStyle_segs (l : list Segment) :
  segs_ok l = true ->
  (forall r, parseTextBodyStyle (MkParse (segs_source l) None r)
             = Ok (MkParse [] None (r ++ map seg_run l)))
  /\ (forall r v,
        match l with PlainSeg _ :: _ => False | _ => True end ->
        parseTextBodyStyle
          (MkParse (segs_source l) (Some (MkProgress plain (Some v))) r)
        = Ok (MkParse [] None (r ++ MkTextBody plain (Some v) :: map seg_run l))).
Proof.
  induction l as [| s l IH]; intros Hok.
  - split; intros; rewrite parseTextBodyStyle_eq; simpl.
    + now rewrite app_nil_r.
    + reflexivity.
  - cbn [segs_ok] in Hok.
    apply andb_prop in Hok as [Hok Hl]. apply andb_prop in Hok as [Hs Hnext].
    destruct (IH Hl) as [IH1 IH2].
    unfold segs_source in *. cbn [map concat].
    assert (Hclose : forall o c v, s = StyledSeg o c v -> c = Star ->
                     forall t', concat (map seg_source l) <> 42%N :: t').
    { intros o c v -> -> t'.
      destruct l as [| s2 l]; [discriminate |].
      cbn [map concat]. cbn [segs_ok] in Hl.
      apply andb_prop in Hl as [Hl _]. apply andb_prop in Hl as [Hs2 _].
      apply seg_source_head; [assumption |].
      destruct s2 as [| [] ? ?]; simpl in Hnext; trivial; discriminate. }
    destruct s as [v | o c v].
    + split; [| contradiction].
      intros r. simpl in Hs. apply andb_prop in Hs as [Hne Hfree].
      cbn [seg_source]. rewrite parseTextBodyStyle_plain by assumption.
      rewrite IH2; [reflexivity |].
      destruct l as [| [] ?]; simpl in Hnext; trivial; discriminate.
    + split.
      * intros r.
        rewrite parseTextBodyStyle_span;
          [| assumption | discriminate | now apply (Hclose o c v)].
        rewrite IH1. unfold flushed. cbn [map progress result].
        now rewrite <- app_assoc.
      * intros r v' _.
        rewrite parseTextBodyStyle_span;
          [| assumption | now intros p [= <-] | now apply (Hclose o c v)].
        rewrite IH1. unfold flushed. cbn [map progress result p_style p_text].
        now rewrite <- !app_assoc.
Qed.

Lemma reconstructs_segs (l : list Segment) :
  segs_ok l = true -> reconstructs (map seg_run l) (segs_source l).
Proof.
  induction l as [| s l IH]; intros Hok; [constructor |].
  cbn [segs_ok] in Hok.
  apply andb_prop in Hok as [Hok Hl]. apply andb_prop in Hok as [Hs _].
  unfold segs_source. cbn [map concat].
  destruct s as [v | o c v]; cbn [seg_run seg_source].
  - constructor. now apply IH.
  - rewrite <- !app_assoc. constructor; [| now apply IH].
    simpl in Hs. apply andb_prop in Hs as [Hs _].
    apply andb_prop in Hs as [Hs _].
    destruct o, c; simpl in Hs; congruence || reflexivity.
Qed.

(** C4, as stated, fails: ["a *b"] is returned as the one plain run
    ["a _b"], from which no reinsertion of markers gives the input
    back. *)
Lemma round_trip_fails :
  tokenize (str "a *b") = Ok [MkTextBody plain (Some (str "a _b"))]
  /\ ~ reconstructs [MkTextBody plain (Some (str "a _b"))] (str "a *b").
Proof.
  split; [vm_compute; reflexivity |].
  intros H. inversion H as [| | o c v runs s Ho Hr Hst Hs].
  destruct o; discriminate Hst.
Qed.

(** C4, amended: for every input that is a concatenation of plain
    stretches (not empty, without marker characters, no two in a row) and
    of spans (an opening marker, a text that is not empty and without
    marker characters, a closing marker of the same style; no span that
    opens with [*] right after an italic span closed with [*]), the
    tokenizer returns one run for each stretch and span, and the values
    of these runs, with the markers put back around the styled ones,
    concatenate to the input. *)
Theorem round_trip_of_closed_spans (l : list Segment) :
  segs_ok l = true ->
  tokenize (segs_source l) = Ok (map seg_run l)
  /\ reconstructs (map seg_run l) (segs_source l).
Proof.
  intros Hok. split; [| now apply reconstructs_segs].
  unfold tokenize.
  destruct (parseTextBodyStyle_segs l Hok) as [H _].
  now rewrite H.
Qed.

Lemma round_trip_of_closed_spans_witness :
  tokenize (str "*a* and _b_`c`")
  = Ok [MkTextBody italic (Some (str "a")); MkTextBody plain (Some (str " and "));
        MkTextBody italic (Some (str "b")); MkTextBody code (Some (str "c"))]
  /\ reconstructs
       [MkTextBody italic (Some (str "a")); MkTextBody plain (Some (str " and "));
        MkTextBody italic (Some (str "b")); MkTextBody code (Some (str "c"))]
       (str "*a* and _b_`c`").
Proof.
  apply (round_trip_of_closed_spans
           [StyledSeg Star Star (str "a"); PlainSeg (str " and ");
            StyledSeg Underscore Underscore (str "b");
            StyledSeg Backquote Backquote (str "c")]).
  vm_compute; reflexivity.
Defined.

(* ================================================================== *)
(** * The link extractor *)
(* ================================================================== *)

(** What a run of a character class consumes. *)
Lemma repeat_class (p : cu -> bool) (greedy : bool) (k : cont) :
  forall n min max x z,
    repeat (fun k' y => m (Cls p) k' y) [] greedy k n min max x = Some z ->
    exists w rest',
      m_rest x = w ++ rest'
      /\ forallb p w = true
      /\ (min <> 0 -> is_zero max = false -> 1 <= length w)
      /\ k (MState (m_pos x + length w) rest' (m_caps x)) = Some z.
Proof.
  induction n as [| n IH]; intros min max x z; [discriminate |].
  rewrite repeat_S.
  assert (Hskip : k x = Some z ->
                  (min <> 0 -> is_zero max = false -> False) ->
                  exists w rest',
                    m_rest x = w ++ rest' /\ forallb p w = true
                    /\ (min <> 0 -> is_zero max = false -> 1 <= length w)
                    /\ k (MState (m_pos x + length w) rest' (m_caps x))
                       = Some z).
  { intros Hk Hmin. exists [], (m_rest x). simpl. rewrite Nat.add_0_r.
    destruct x. repeat split; auto. intros. exfalso. auto. }
  destruct (is_zero max) eqn:Hmax; [intros; apply Hskip; congruence |].
  cbv zeta. rewrite clear_caps_nil.
  set (d := fun y => if (min =? 0) && (m_pos y =? m_pos x) then None
                     else repeat (fun k' y0 => m (Cls p) k' y0) [] greedy k n
                                 (pred min) (option_map pred max) y).
  assert (Hiter : m (Cls p) d x = Some z ->
                  exists w rest',
                    m_rest x = w ++ rest' /\ forallb p w = true
                    /\ (min <> 0 -> false = false -> 1 <= length w)
                    /\ k (MState (m_pos x + length w) rest' (m_caps x))
                       = Some z).
  { destruct x as [pos [| c t] caps]; [discriminate |].
    rewrite m_Cls_cons. destruct (p c) eqn:Hc; [| discriminate].
    unfold d. destruct ((min =? 0) && _); [discriminate |].
    intros H. apply IH in H as [w [rest' [Hr [Hw [_ Hk]]]]].
    simpl in Hr, Hk. exists (c :: w), rest'. simpl.
    rewrite Hr, Hc, Hw. repeat split; try lia.
    now replace (pos + S (length w)) with (S (pos + length w)) by lia. }
  destruct (min =? 0) eqn:Hmin; cbn [negb].
  - apply Nat.eqb_eq in Hmin.
    destruct greedy.
    + destruct (m (Cls p) d x) as [z' |] eqn:E.
      * exact Hiter.
      * intros Hk. apply Hskip; [assumption | congruence].
    + destruct (k x) as [z' |] eqn:E.
      * intros Hk. apply Hskip; [assumption | congruence].
      * exact Hiter.
  - exact Hiter.
Qed.

(** A successful search found a match at some index. *)
Lemma exec_from_inv (r : regex) (rest : jsstring) (i : nat)
  (mr : MatchResult) :
  exec_from r i rest = Some mr ->
  exists pre rest' y,
    rest = pre ++ rest'
    /\ m r accept (MState (i + length pre) rest' []) = Some y.
Proof.
  revert i. induction rest as [| c rest IH]; intros i; cbn [exec_from];
    destruct (m r accept (MState i _ [])) as [y |] eqn:E;
    try discriminate.
  - intros _. exists [], [], y. simpl. now rewrite Nat.add_0_r.
  - intros _. exists [], (c :: rest), y. simpl. now rewrite Nat.add_0_r.
  - intros H. apply IH in H as [pre [rest' [y [H1 H2]]]].
    exists (c :: pre), rest', y. simpl.
    replace (i + S (length pre)) with (S i + length pre) by lia.
    now rewrite H1.
Qed.

Lemma nonempty_length {A : Type} (w : list A) : 1 <= length w -> w <> [].
Proof. destruct w; simpl; [lia | discriminate]. Qed.

(** A literal character of the pattern, at a match. *)
Local Ltac step_chr H :=
  rewrite m_Chr_cons in H; unfold cu_eqb in H;
  match type of H with
  | context [(?c =? ?n)%N] =>
      destruct (N.eqb_spec c n) as [-> |]; [| discriminate H]
  end.

(** Where [linkRegexp] matches, there is an occurrence of the link
    syntax. *)
Lemma linkRegexp_has_link (input : jsstring) (mr : MatchResult) :
  exec linkRegexp input = Some mr -> has_link input.
Proof.
  intros H. apply exec_from_inv in H as [pre [rest [y [Hin H]]]].
  change linkRegexp
    with (Seq (Chr 91) (Seq (Rep false 1 None (Cls is_dot))
           (Seq (Chr 93) (Seq (Chr 40) (Seq (Rep false 1 None (Cls is_dot))
                                           (Chr 41)))))) in H.
  rewrite m_Seq in H.
  destruct rest as [| c0 rest]; [discriminate |].
  step_chr H.
  rewrite m_Seq, m_Rep in H.
  apply repeat_class in H as [label [rest1 [Hr1 [Hlabel [Hne1 H]]]]].
  cbn [m_rest m_pos m_caps] in Hr1, H.
  rewrite m_Seq in H.
  destruct rest1 as [| c1 rest1]; [discriminate |].
  step_chr H.
  rewrite m_Seq in H.
  destruct rest1 as [| c2 rest1]; [discriminate |].
  step_chr H.
  rewrite m_Seq, m_Rep in H.
  apply repeat_class in H as [url [rest2 [Hr2 [Hurl [Hne2 H]]]]].
  cbn [m_rest m_pos m_caps] in Hr2, H.
  destruct rest2 as [| c3 rest2]; [discriminate |].
  step_chr H.
  exists pre, label, url, rest2.
  split; [| repeat split; auto].
  - rewrite Hin, Hr1, Hr2. reflexivity.
  - apply nonempty_length, Hne1; [discriminate | reflexivity].
  - apply nonempty_length, Hne2; [discriminate | reflexivity].
Qed.

Lemma has_link_bracket (input : jsstring) :
  has_link input -> In 91%N input.
Proof.
  intros [pre [label [url [post [-> _]]]]].
  apply in_or_app. right. now left.
Qed.

(** C8: [parseLinkInText] of ["see [x](http://e) now"] is the text
    before the link, the link with the plain run ["x"] as body and
    ["http://e"] as url, and the text after it; and an input without an
    occurrence of the link syntax is returned whole, as a single
    string. *)
Theorem parseLinkInText_spec :
  parseLinkInText (str "see [x](http://e) now")
  = Ok [inl (str "see ");
        inr (MkLink [MkTextBody plain (Some (str "x"))] (str "http://e"));
        inl (str " now")]
  /\ forall input, ~ has_link input -> parseLinkInText input = Ok [inl input].
Proof.
  split; [vm_compute; reflexivity |].
  intros input Hno. unfold parseLinkInText. cbn [parseLinkInText_fuel].
  destruct (exec linkRegexp input) as [mr |] eqn:Hex; [| reflexivity].
  exfalso. apply Hno. exact (@linkRegexp_has_link input mr Hex).
Qed.

Lemma parseLinkInText_spec_witness :
  parseLinkInText (str "no link (here)") = Ok [inl (str "no link (here)")].
Proof.
  apply (proj2 parseLinkInText_spec).
  intros H. apply has_link_bracket in H. vm_compute in H.
  repeat (destruct H as [H | H]; [discriminate H |]). exact H.
Defined.

(* ================================================================== *)
(** * The rules of the block matcher *)
(* ================================================================== *)

(** Every rule matches a non-empty prefix of the input. *)
Lemma rule_match (regexp : regex) (parser : jsstring -> outcome Block)
  (input : jsstring) (mr : MatchResult) :
  In (regexp, parser) regexpToParserPairs ->
  exec regexp input = Some mr ->
  index mr = 0
  /\ 1 <= length (match0 mr)
  /\ input = match0 mr ++ skipn (length (match0 mr)) input.
Proof.
  intros Hin Hex.
  assert (H : exists r', regexp = Seq Bol r' /\ 1 <= minlen r').
  { simpl in Hin.
    repeat (destruct Hin as [[= <- _] | Hin];
            [eexists; split; [reflexivity | vm_compute; lia] |]).
    contradiction. }
  destruct H as [r' [-> Hmin]].
  apply exec_anchored_Some in Hex as [H1 [H2 H3]].
  split; [assumption | split; [lia | assumption]].
Qed.

(** So the text left after a match is shorter than the input. *)
Lemma rule_remainder (regexp : regex) (parser : jsstring -> outcome Block)
  (input : jsstring) (mr : MatchResult) :
  In (regexp, parser) regexpToParserPairs ->
  exec regexp input = Some mr ->
  length (trim (slice1 input (Z.of_nat (length (match0 mr))))) < length input.
Proof.
  intros Hin Hex.
  destruct (@rule_match regexp parser input mr Hin Hex) as [_ [Hlen Hpre]].
  eapply Nat.le_lt_trans; [apply trim_length |].
  rewrite slice1_of_nat, length_skipn.
  assert (length (match0 mr) <= length input).
  { apply (f_equal (@length cu)) in Hpre.
    rewrite length_app in Hpre. lia. }
  lia.
Qed.

Lemma firstMatch_ext (recur1 recur2 : jsstring -> outcome (list Block))
  (pairs : list (regex * (jsstring -> outcome Block))) (input : jsstring) :
  (forall q, In q pairs -> In q regexpToParserPairs) ->
  (forall s, length s < length input -> recur1 s = recur2 s) ->
  firstMatch recur1 pairs input = firstMatch recur2 pairs input.
Proof.
  intros Hsub Hrec. induction pairs as [| [regexp parser] tl IH];
    [reflexivity |].
  cbn [firstMatch].
  destruct (test regexp input); [| apply IH; intros; apply Hsub; now right].
  destruct (exec regexp input) as [mr |] eqn:Hex; [| reflexivity].
  rewrite Hrec; [reflexivity |].
  apply (@rule_remainder regexp parser); [| assumption].
  apply Hsub. now left.
Qed.

(** The bound of [parseBlocks] is never exceeded. *)
Lemma parseBlocks_fuel_enough (n : nat) (input : jsstring) :
  length input < n -> parseBlocks_fuel n input = parseBlocks input.
Proof.
  unfold parseBlocks.
  remember (length input) as len eqn:Hlen.
  revert n input Hlen.
  induction len as [len IH] using lt_wf_ind; intros n input Hlen Hn.
  destruct n as [| n]; [lia |].
  cbn [parseBlocks_fuel].
  destruct (jsstring_eqb (trim input) []); [reflexivity |].
  apply firstMatch_ext; [auto |].
  intros s Hs.
  rewrite (IH (length s)) by lia.
  rewrite (IH (length s) ltac:(lia) len s) by lia.
  reflexivity.
Qed.

(** The defining equation of [parseBlocks]. *)
Lemma parseBlocks_eq (input : jsstring) :
  parseBlocks input =
  if jsstring_eqb (trim input) [] then Ok []
  else firstMatch parseBlocks regexpToParserPairs input.
Proof.
  unfold parseBlocks at 1. cbn [parseBlocks_fuel].
  destruct (jsstring_eqb (trim input) []); [reflexivity |].
  apply firstMatch_ext; [auto |].
  intros s Hs. now apply parseBlocks_fuel_enough.
Qed.

(* ================================================================== *)
(** * What the functions can throw *)
(* ================================================================== *)

Lemma throws_only_bind {A B : Type} (P : exn -> Prop) (o : outcome A)
  (f : A -> outcome B) :
  throws_only P o -> (forall a, throws_only P (f a)) ->
  throws_only P (bind o f).
Proof. destruct o; simpl; auto. Qed.

Lemma throws_only_weaken {A : Type} (P Q : exn -> Prop) (o : outcome A) :
  (forall e, P e -> Q e) -> throws_only P o -> throws_only Q o.
Proof. destruct o; simpl; auto. Qed.

Lemma throws_only_defined {A : Type} (v : option A) :
  throws_only builder_error (defined v).
Proof. now destruct v. Qed.

(** The tokenizer returns or throws a [TypeError]. *)
Lemma parseTextBodyStyle_throws (a : TextBodyParseResult) :
  throws_only (eq TypeError) (parseTextBodyStyle a).
Proof.
  rewrite parseTextBodyStyle_scan. unfold finish.
  destruct (progress (scan a)) as [p |]; [| exact I].
  destruct (negb (style_eqb (p_style p) plain)); [| exact I].
  destruct (last_elem (result (scan a))) as [l |]; simpl; [| reflexivity].
  now destruct (style_eqb (style l) plain).
Qed.

Lemma indexOf_from_lower (needle s : jsstring) (i : Z) :
  (-1 <= i)%Z -> (-1 <= indexOf_from needle s i)%Z.
Proof.
  revert i. induction s as [| c s IH]; intros i Hi; simpl;
    destruct (starts_with needle _); try lia.
  apply IH. lia.
Qed.

(** The text after the first link is shorter than the input. *)
Lemma link_remainder (input : jsstring) (linkMatch : MatchResult) :
  exec linkRegexp input = Some linkMatch ->
  length (slice1 input (indexOf input (match0 linkMatch)
                        + Z.of_nat (length (match0 linkMatch))))
  < length input.
Proof.
  intros Hex. apply exec_from_Some in Hex as [pre [post [Hin [_ Hmin]]]].
  change (minlen linkRegexp) with 6 in Hmin.
  assert (Hlen : 6 <= length input).
  { rewrite Hin, !length_app. lia. }
  pose proof (@indexOf_from_lower (match0 linkMatch) input 0 ltac:(lia)) as Hi.
  fold (indexOf input (match0 linkMatch)) in Hi.
  unfold slice1, rel_index. rewrite length_skipn.
  destruct (Z.ltb_spec (indexOf input (match0 linkMatch)
                        + Z.of_nat (length (match0 linkMatch))) 0); lia.
Qed.

(** The bound of [parseLinkInText] is never exceeded. *)
Lemma parseLinkInText_fuel_enough (n : nat) (input : jsstring) :
  length input < n ->
  parseLinkInText_fuel n input = parseLinkInText input.
Proof.
  unfold parseLinkInText.
  remember (length input) as len eqn:Hlen.
  revert n input Hlen.
  induction len as [len IH] using lt_wf_ind; intros n input Hlen Hn.
  destruct n as [| n]; [lia |].
  cbn [parseLinkInText_fuel].
  destruct (exec linkRegexp input) as [linkMatch |] eqn:Hex; [| reflexivity].
  pose proof (@link_remainder input linkMatch Hex) as Hlt.
  set (after := slice1 input (indexOf input (match0 linkMatch)
                              + Z.of_nat (length (match0 linkMatch)))) in *.
  rewrite (IH (length after)) by lia.
  rewrite (IH (length after) ltac:(lia) len after) by lia.
  reflexivity.
Qed.

Lemma parseLinkInText_fuel_throws (n : nat) (input : jsstring) :
  length input < n ->
  throws_only (eq TypeError) (parseLinkInText_fuel n input).
Proof.
  revert input. induction n as [| n IH]; intros input Hn; [lia |].
  cbn [parseLinkInText_fuel].
  destruct (exec linkRegexp input) as [linkMatch |] eqn:Hex; [| exact I].
  apply throws_only_bind; [apply parseTextBodyStyle_throws |].
  intros r. apply throws_only_bind; [| intros; exact I].
  apply IH. pose proof (@link_remainder input linkMatch Hex). lia.
Qed.

Lemma styleItems_throws (items : list (jsstring + Link)) :
  throws_only (eq TypeError) (styleItems items).
Proof.
  induction items as [| [s | l] tl IH]; simpl; [exact I | |].
  - apply throws_only_bind; [apply parseTextBodyStyle_throws |].
    intros r. apply throws_only_bind; [exact IH | intros; exact I].
  - apply throws_only_bind; [exact IH | intros; exact I].
Qed.

Lemma parseTextBody_throws (input : jsstring) :
  throws_only builder_error (parseTextBody input).
Proof.
  apply throws_only_weaken with (P := eq TypeError);
    [now intros e <- |].
  apply throws_only_bind.
  - apply parseLinkInText_fuel_throws. lia.
  - intros. apply styleItems_throws.
Qed.

Lemma mapM_throws {A B : Type} (P : exn -> Prop) (f : A -> outcome B)
  (l : list A) :
  (forall a, throws_only P (f a)) -> throws_only P (mapM f l).
Proof.
  intros Hf. induction l as [| a l IH]; simpl; [exact I |].
  apply throws_only_bind; [apply Hf |].
  intros b. apply throws_only_bind; [exact IH | intros; exact I].
Qed.

Local Ltac builder_throws :=
  repeat first
    [ exact I
    | reflexivity
    | apply parseTextBody_throws
    | apply throws_only_defined
    | apply throws_only_bind; [| intros ]
    | apply mapM_throws; intros ].

(** Every block builder returns, or throws a [TypeError] or one of the
    ['Invalid ...'] errors. *)
Lemma builders_throw (regexp : regex) (parser : jsstring -> outcome Block)
  (s : jsstring) :
  In (regexp, parser) regexpToParserPairs ->
  throws_only builder_error (parser s).
Proof.
  intros Hin. simpl in Hin.
  repeat (destruct Hin as [[= _ <-] | Hin]); try contradiction.
  - unfold parseHeadingBlock.
    destruct (exec headingRegexp s); builder_throws.
  - unfold parseQuoteBlock.
    destruct (exec quoteRegexp s); builder_throws.
  - unfold parseListBlock. builder_throws.
    unfold parseListItem.
    destruct (exec listRegexp _); builder_throws.
  - unfold parseImageBlock.
    destruct (exec imageRegexp s); builder_throws.
  - unfold parseCodeBlock.
    destruct (exec codeRegexp s); builder_throws.
  - exact I.
  - unfold parseParagraphBlock. builder_throws.
Qed.

Lemma test_paragraphRegexp (input : jsstring) :
  input <> [] -> test paragraphRegexp input = true.
Proof.
  destruct input as [| c t]; [congruence |]. intros _.
  unfold test. destruct (exec_paragraphRegexp c t) as [caps ->]. reflexivity.
Qed.

Lemma firstMatch_throws (recur : jsstring -> outcome (list Block))
  (pairs : list (regex * (jsstring -> outcome Block))) (input : jsstring) :
  (forall q, In q pairs -> In q regexpToParserPairs) ->
  (forall s, length s < length input -> throws_only builder_error (recur s)) ->
  (exists parser, In (paragraphRegexp, parser) pairs) ->
  input <> [] ->
  throws_only builder_error (firstMatch recur pairs input).
Proof.
  intros Hsub Hrec Hpar Hne.
  induction pairs as [| [regexp parser] tl IH];
    [destruct Hpar as [? []] |].
  cbn [firstMatch].
  destruct (test regexp input) eqn:Htest.
  - destruct (exec regexp input) as [mr |] eqn:Hex; [| reflexivity].
    apply throws_only_bind.
    + apply (@builders_throw regexp parser). apply Hsub. now left.
    + intros b. apply throws_only_bind; [| intros; exact I].
      apply Hrec.
      apply (@rule_remainder regexp parser); [| assumption].
      apply Hsub. now left.
  - apply IH.
    + intros q Hq. apply Hsub. now right.
    + destruct Hpar as [parser' [[= -> _] | Hin]].
      * rewrite test_paragraphRegexp in Htest by assumption. discriminate.
      * now exists parser'.
Qed.

Lemma trim_nil : trim [] = [].
Proof. reflexivity. Qed.

(** [parseBlocks] returns, or throws what a block builder throws. *)
Lemma parseBlocks_throws (input : jsstring) :
  throws_only builder_error (parseBlocks input).
Proof.
  remember (length input) as len eqn:Hlen.
  revert input Hlen.
  induction len as [len IH] using lt_wf_ind; intros input Hlen.
  rewrite parseBlocks_eq.
  destruct (jsstring_eqb (trim input) []) eqn:Hblank; [exact I |].
  apply firstMatch_throws.
  - auto.
  - intros s Hs. apply (IH (length s)); [lia | reflexivity].
  - exists parseParagraphBlock. simpl. tauto.
  - intros ->. discriminate.
Qed.

(* ================================================================== *)
(** * The block matcher: properties *)
(* ================================================================== *)

Lemma noMatchingBlock_not_builder_error (s : jsstring) :
  ~ builder_error (noMatchingBlock s).
Proof. simpl. discriminate. Qed.

(** C6: for every input that is not blank the paragraph rule, the last
    of the list, matches at index 0: the first character and the text up
    to the next line feed (included) or the end of the input.  So a rule
    of the list matches, and [parseBlocks] never throws the
    'No matching block found' error, on the input or in a recursive
    call. *)
Theorem no_matching_block_unreachable (input : jsstring) :
  trim input <> [] ->
  (exists mr,
      exec paragraphRegexp input = Some mr
      /\ index mr = 0
      /\ match0 mr = firstn (S (line_length (skipn 1 input))) input
      /\ match0 mr <> [])
  /\ In (paragraphRegexp, parseParagraphBlock) regexpToParserPairs
  /\ test paragraphRegexp input = true
  /\ forall s, parseBlocks input <> Throw (noMatchingBlock s).
Proof.
  intros Hne.
  destruct input as [| c t]; [now rewrite trim_nil in Hne |].
  repeat split.
  - destruct (exec_paragraphRegexp c t) as [caps Hex].
    eexists. split; [exact Hex |]. simpl. repeat split. discriminate.
  - simpl. tauto.
  - now apply test_paragraphRegexp.
  - intros s Hthrow.
    pose proof (parseBlocks_throws (c :: t)) as H.
    rewrite Hthrow in H. now apply noMatchingBlock_not_builder_error in H.
Qed.

Lemma no_matching_block_unreachable_witness :
  (exists mr,
      exec paragraphRegexp (str ">Q") = Some mr
      /\ index mr = 0
      /\ match0 mr = firstn (S (line_length (skipn 1 (str ">Q")))) (str ">Q")
      /\ match0 mr <> [])
  /\ In (paragraphRegexp, parseParagraphBlock) regexpToParserPairs
  /\ test paragraphRegexp (str ">Q") = true
  /\ forall s, parseBlocks (str ">Q") <> Throw (noMatchingBlock s).
Proof.
  apply no_matching_block_unreachable.
  vm_compute. discriminate.
Defined.

(** C10: [parseBlocks] terminates on every input.  A rule that matches,
    matches a non-empty prefix, so the trimmed remainder handed to the
    recursive call is strictly shorter than the input; a blank input ends
    the recursion; and [length input + 1] nested calls are never exceeded:
    with any larger bound the result is the same, and it is a value or an
    exception. *)
Theorem parseBlocks_terminates (n : nat) (input : jsstring) :
  length input < n ->
  (forall regexp parser mr,
      In (regexp, parser) regexpToParserPairs ->
      exec regexp input = Some mr ->
      1 <= length (match0 mr)
      /\ length (trim (slice1 input (Z.of_nat (length (match0 mr)))))
         < length input)
  /\ (trim input = [] -> parseBlocks input = Ok [])
  /\ parseBlocks_fuel n input = parseBlocks input
  /\ parseBlocks input <> OutOfFuel.
Proof.
  intros Hn. split; [| repeat split].
  - intros regexp parser mr Hin Hex. split.
    + now destruct (@rule_match regexp parser input mr Hin Hex) as [_ [? _]].
    + now apply (@rule_remainder regexp parser).
  - intros Hblank. rewrite parseBlocks_eq, Hblank. reflexivity.
  - now apply parseBlocks_fuel_enough.
  - intros Hout. pose proof (parseBlocks_throws input) as H.
    now rewrite Hout in H.
Qed.

Lemma parseBlocks_terminates_witness :
  (forall regexp parser mr,
      In (regexp, parser) regexpToParserPairs ->
      exec regexp (str "# T") = Some mr ->
      1 <= length (match0 mr)
      /\ length (trim (slice1 (str "# T") (Z.of_nat (length (match0 mr)))))
         < length (str "# T"))
  /\ (trim (str "# T") = [] -> parseBlocks (str "# T") = Ok [])
  /\ parseBlocks_fuel 4 (str "# T") = parseBlocks (str "# T")
  /\ parseBlocks (str "# T") <> OutOfFuel.
Proof.
  apply parseBlocks_terminates.
  vm_compute. lia.
Defined.

Lemma firstMatch_find (recur : jsstring -> outcome (list Block))
  (pairs : list (regex * (jsstring -> outcome Block))) (input : jsstring) :
  firstMatch recur pairs input =
  match find (fun q => test (fst q) input) pairs with
  | None => Throw (noMatchingBlock input)
  | Some (regexp, parser) =>
      match exec regexp input with
      | None => Throw (Error (str "Invalid block"))
      | Some mr =>
          b <- parser (trim (match0 mr)) ;;
          bs <- recur (trim (slice1 input (Z.of_nat (length (match0 mr))))) ;;
          Ok (b :: bs)
      end
  end.
Proof.
  induction pairs as [| [regexp parser] tl IH]; [reflexivity |].
  cbn [firstMatch find fst]. now destruct (test regexp input).
Qed.

(** C2: the rules of [parseBlocks] are, in this order, heading, quote,
    list, image, code, thematic break and paragraph; on an input that is
    not blank the first rule of the list whose pattern matches builds the
    first block from the trimmed match, and the other blocks are those of
    the trimmed remainder; and [parse] of ["# T\n> Q\nP"] is a heading of
    level 1, a quote and a paragraph. *)
Theorem parseBlocks_rule_order :
  map fst regexpToParserPairs
  = [headingRegexp; quoteRegexp; listRegexp; imageRegexp; codeRegexp;
     thematicBreakRegexp; paragraphRegexp]
  /\ (forall input,
        parseBlocks input =
        if jsstring_eqb (trim input) [] then Ok []
        else
          match find (fun q => test (fst q) input) regexpToParserPairs with
          | None => Throw (noMatchingBlock input)
          | Some (regexp, parser) =>
              match exec regexp input with
              | None => Throw (Error (str "Invalid block"))
              | Some mr =>
                  b <- parser (trim (match0 mr)) ;;
                  bs <- parseBlocks
                          (trim (slice1 input
                                   (Z.of_nat (length (match0 mr))))) ;;
                  Ok (b :: bs)
              end
          end)
  /\ parse (str "# T" ++ nl ++ str "> Q" ++ nl ++ str "P")
     = Ok (MkDocument []
             [HeadingBlock 1 [SText (MkTextBody plain (Some (str "T")))];
              QuoteBlock [SText (MkTextBody plain (Some (str "Q")))];
              ParagraphBlock [SText (MkTextBody plain (Some (str "P")))]]).
Proof.
  split; [reflexivity | split].
  - intros input. rewrite parseBlocks_eq. now rewrite firstMatch_find.
  - vm_compute. reflexivity.
Qed.

(* ================================================================== *)
(** * The quote rule *)
(* ================================================================== *)

(** A greedy run of a class takes every character of the class. *)
Lemma greedy_class_run (p : cu -> bool) (k : cont) (z : mstate)
  (rest' : jsstring) (caps : list (nat * jsstring)) :
  match rest' with [] => True | c :: _ => p c = false end ->
  forall w n pos,
    forallb p w = true ->
    length (w ++ rest') < n ->
    k (MState (pos + length w) rest' caps) = Some z ->
    repeat (fun k' y => m (Cls p) k' y) [] true k n 0 None
           (MState pos (w ++ rest') caps) = Some z.
Proof.
  intros Hrest. induction w as [| c w IH]; intros n pos Hw Hn Hk;
    (destruct n as [| n]; [simpl in Hn; lia |]);
    rewrite repeat_S; cbn [is_zero negb Nat.eqb]; cbv zeta;
    rewrite clear_caps_nil.
  - simpl in Hk. rewrite Nat.add_0_r in Hk. cbn [app].
    destruct rest' as [| c t].
    + now rewrite m_Cls_nil.
    + now rewrite m_Cls_cons, Hrest.
  - simpl in Hw. apply andb_prop in Hw as [Hc Hw].
    cbn [app]. rewrite m_Cls_cons, Hc.
    cbn [m_pos andb pred option_map]. rewrite succ_neqb.
    rewrite (IH n (S pos)); [reflexivity | assumption | simpl in Hn; lia |].
    simpl in Hk. now replace (S pos + length w) with (pos + S (length w)) by lia.
Qed.

(** The optional line feed at the end of a line. *)
Lemma opt_nl_cons (k : cont) (z : mstate) (pos : nat) (t : jsstring)
  (caps : list (nat * jsstring)) :
  k (MState (S pos) t caps) = Some z ->
  m (Rep true 0 (Some 1) (Chr 10)) k (MState pos (10%N :: t) caps) = Some z.
Proof.
  intros Hk. rewrite m_Rep. cbn [m_rest length Nat.add groups].
  rewrite repeat_S. cbn [is_zero negb Nat.eqb]. cbv zeta.
  rewrite clear_caps_nil, m_Chr_cons. cbn [cu_eqb N.eqb Pos.eqb].
  cbn [m_pos andb pred option_map]. rewrite succ_neqb.
  rewrite repeat_S. cbn [is_zero]. now rewrite Hk.
Qed.

Lemma opt_nl_nil (k : cont) (pos : nat) (caps : list (nat * jsstring)) :
  m (Rep true 0 (Some 1) (Chr 10)) k (MState pos [] caps)
  = k (MState pos [] caps).
Proof. reflexivity. Qed.

Lemma is_dot_nl : is_dot 10 = false.
Proof. reflexivity. Qed.

(** One line of a quote: [>], a space, the content and the line feed
    after it, if there is one. *)
Lemma quoteLine_cons (k : cont) (z : mstate) (c after : jsstring)
  (pos : nat) (caps : list (nat * jsstring)) :
  line_content c = true ->
  k (MState (pos + 2 + length c + 1) after caps) = Some z ->
  m quoteLine k (MState pos (quote_line c ++ nl ++ after) caps) = Some z.
Proof.
  intros Hc Hk.
  change quoteLine
    with (Seq (Chr 62) (Seq (Cls is_space)
            (Seq (Rep true 0 None (Cls is_dot))
                 (Rep true 0 (Some 1) (Chr 10))))).
  change (quote_line c ++ nl ++ after)
    with (62%N :: 32%N :: c ++ 10%N :: after).
  rewrite m_Seq, m_Chr_cons. cbn [cu_eqb N.eqb Pos.eqb].
  rewrite m_Seq, m_Cls_cons.
  change (is_space 32) with true. cbv iota.
  rewrite m_Seq, m_Rep. cbn [m_rest Nat.add groups].
  apply greedy_class_run;
    [apply is_dot_nl | exact Hc | lia |].
  apply opt_nl_cons.
  now replace (S (S (S pos) + length c)) with (pos + 2 + length c + 1) by lia.
Qed.

Lemma quoteLine_last (k : cont) (z : mstate) (c : jsstring)
  (pos : nat) (caps : list (nat * jsstring)) :
  line_content c = true ->
  k (MState (pos + 2 + length c) [] caps) = Some z ->
  m quoteLine k (MState pos (quote_line c) caps) = Some z.
Proof.
  intros Hc Hk.
  change quoteLine
    with (Seq (Chr 62) (Seq (Cls is_space)
            (Seq (Rep true 0 None (Cls is_dot))
                 (Rep true 0 (Some 1) (Chr 10))))).
  change (quote_line c) with (62%N :: 32%N :: c).
  rewrite m_Seq, m_Chr_cons. cbn [cu_eqb N.eqb Pos.eqb].
  rewrite m_Seq, m_Cls_cons.
  change (is_space 32) with true. cbv iota.
  rewrite m_Seq, m_Rep. cbn [m_rest Nat.add groups].
  replace (MState (S (S pos)) c caps)
    with (MState (S (S pos)) (c ++ []) caps) by now rewrite app_nil_r.
  apply greedy_class_run;
    [exact I | exact Hc | rewrite app_nil_r; lia |].
  rewrite opt_nl_nil.
  now replace (S (S pos) + length c) with (pos + 2 + length c) by lia.
Qed.

(** No line of a quote where the text does not start with [>] and a
    white-space character. *)
Lemma quoteLine_none (k : cont) (rest : jsstring) (pos : nat)
  (caps : list (nat * jsstring)) :
  starts_quote rest = false ->
  m quoteLine k (MState pos rest caps) = None.
Proof.
  intros H.
  change quoteLine
    with (Seq (Chr 62) (Seq (Cls is_space)
            (Seq (Rep true 0 None (Cls is_dot))
                 (Rep true 0 (Some 1) (Chr 10))))).
  rewrite m_Seq.
  destruct rest as [| c1 rest]; [reflexivity |].
  rewrite m_Chr_cons.
  destruct (cu_eqb c1 62) eqn:E1; [| reflexivity].
  rewrite m_Seq.
  destruct rest as [| c2 rest]; [reflexivity |].
  rewrite m_Cls_cons. simpl in H. rewrite E1 in H. simpl in H.
  now rewrite H.
Qed.

(** The loop of [quoteRegexp] after its last line. *)
Lemma quote_loop_end (n pos : nat) (rest : jsstring)
  (caps : list (nat * jsstring)) :
  starts_quote rest = false ->
  repeat (fun k' y => m quoteLine k' y) [] true accept (S n) 0 None
         (MState pos rest caps)
  = Some (MState pos rest caps).
Proof.
  intros H. rewrite repeat_S. cbn [is_zero negb Nat.eqb]. cbv zeta.
  rewrite clear_caps_nil. now rewrite quoteLine_none.
Qed.

(** One more turn of the loop. *)
Lemma quote_loop_step (n min pos : nat) (rest : jsstring) (z : mstate) :
  min <= 1 ->
  m quoteLine
    (fun y => if (min =? 0) && (m_pos y =? pos) then None
              else repeat (fun k' y0 => m quoteLine k' y0) [] true accept n
                          0 None y)
    (MState pos rest []) = Some z ->
  repeat (fun k' y => m quoteLine k' y) [] true accept (S n) min None
         (MState pos rest []) = Some z.
Proof.
  intros Hmin H. rewrite repeat_S. cbn [is_zero]. cbv zeta.
  rewrite clear_caps_nil. cbn [m_pos option_map].
  destruct min as [| [| min]]; [| | lia]; cbn [Nat.eqb negb pred andb];
    cbn [Nat.eqb negb pred andb] in H.
  - now rewrite H.
  - exact H.
Qed.

Lemma after_quote_inv (tail : jsstring) :
  after_quote tail = true ->
  tail = [] \/ exists rest, tail = 10%N :: rest /\ starts_quote rest = false.
Proof.
  destruct tail as [| c rest]; [now left |]. simpl. intros H.
  apply andb_prop in H as [Hc Hr]. right. exists rest.
  apply N.eqb_eq in Hc. subst c.
  now apply negb_true_iff in Hr.
Qed.

Lemma pos_neqb (pos d : nat) : (pos + 2 + d =? pos) = false.
Proof. apply Nat.eqb_neq. lia. Qed.

Lemma firstn_prefix {A : Type} (s w r : list A) :
  s = w ++ r -> firstn (length w) s = w.
Proof.
  intros ->. rewrite firstn_app, Nat.sub_diag, firstn_all.
  cbn [firstn]. apply app_nil_r.
Qed.

Lemma length_quote_line (c : jsstring) :
  length (quote_line c) = 2 + length c.
Proof. reflexivity. Qed.

(** The loop of [quoteRegexp] over quoted lines: it takes every line and
    the line feed after the last one. *)
Lemma quote_loop (l : list jsstring) :
  forall c1 n min pos tail,
    line_content c1 = true ->
    forallb line_content l = true ->
    after_quote tail = true ->
    min <= 1 ->
    length (quoted c1 l ++ tail) < n ->
    repeat (fun k' y => m quoteLine k' y) [] true accept n min None
           (MState pos (quoted c1 l ++ tail) [])
    = Some (MState (pos + length (quoted c1 l ++ firstn 1 tail))
                   (skipn 1 tail) []).
Proof.
  induction l as [| c2 l IH]; intros c1 n min pos tail Hc1 Hl Htail Hmin Hn;
    (destruct n as [| n]; [lia |]); apply quote_loop_step; try assumption;
    unfold quoted in *; cbn [map concat] in *.
  - rewrite app_nil_r in *.
    assert (Hlen : length (quote_line c1) = 2 + length c1) by reflexivity.
    destruct (after_quote_inv _ Htail) as [-> | [rest [-> Hrest]]].
    + rewrite app_nil_r in *. apply quoteLine_last; [assumption |].
      cbv beta. cbn [m_pos].
      rewrite andb_comm, pos_neqb. cbn [andb].
      destruct n as [| n]; [simpl in Hn; lia |].
      rewrite quote_loop_end by reflexivity.
      cbn [firstn skipn]. rewrite app_nil_r, Hlen. do 2 f_equal. lia.
    + change (quote_line c1 ++ 10%N :: rest)
        with (quote_line c1 ++ nl ++ rest).
      apply quoteLine_cons; [assumption |].
      cbv beta. cbn [m_pos].
      replace (pos + 2 + length c1 + 1) with (pos + 2 + (length c1 + 1))
        by lia.
      rewrite andb_comm, pos_neqb. cbn [andb].
      destruct n as [| n]; [rewrite length_app in Hn; simpl in Hn; lia |].
      rewrite quote_loop_end by assumption.
      cbn [firstn skipn]. rewrite length_app, Hlen. simpl.
      do 2 f_equal. lia.
  - simpl in Hl. apply andb_prop in Hl as [Hc2 Hl].
    rewrite <- !app_assoc.
    apply quoteLine_cons; [assumption |].
    cbv beta. cbn [m_pos].
    replace (pos + 2 + length c1 + 1) with (pos + 2 + (length c1 + 1)) by lia.
    rewrite andb_comm, pos_neqb. cbn [andb].
    rewrite app_assoc.
    rewrite IH; try assumption; try lia.
    + f_equal. f_equal. repeat rewrite length_app.
      rewrite !length_quote_line. change (length nl) with 1. lia.
    + repeat rewrite length_app in Hn. repeat rewrite length_app.
      rewrite !length_quote_line in *. change (length nl) with 1 in Hn. lia.
Qed.

(** The quote rule on quoted lines: the match is the lines and the line
    feed after them. *)
Lemma exec_quoteRegexp (c1 : jsstring) (l : list jsstring)
  (tail : jsstring) :
  forallb line_content (c1 :: l) = true ->
  after_quote tail = true ->
  exec quoteRegexp (quoted c1 l ++ tail)
  = Some (MkMatch 0 (quoted c1 l ++ firstn 1 tail) []).
Proof.
  intros Hl Htail. simpl in Hl. apply andb_prop in Hl as [Hc1 Hl].
  change quoteRegexp with (Seq Bol (Rep true 1 None quoteLine)).
  rewrite exec_anchored, m_Rep.
  change (groups quoteLine) with (@nil nat).
  rewrite quote_loop; try assumption; [| lia | simpl; lia].
  cbn [m_pos m_caps Nat.add]. f_equal. f_equal.
  apply (@firstn_prefix cu _ _ (skipn 1 tail)).
  rewrite <- app_assoc. now rewrite firstn_skipn.
Qed.

(** ** Trimming quoted lines *)

Lemma trimStart_text (a : cu) (t : jsstring) :
  is_space a = false -> trimStart (a :: t) = a :: t.
Proof. intros H. simpl. now rewrite H. Qed.

Lemma trimEnd_text (s : jsstring) (x : cu) :
  is_space x = false -> trimEnd (s ++ [x]) = s ++ [x].
Proof.
  intros H. unfold trimEnd. rewrite rev_unit, trimStart_text by assumption.
  simpl. now rewrite rev_involutive.
Qed.

Lemma trimEnd_nl (s : jsstring) : trimEnd (s ++ nl) = trimEnd s.
Proof. unfold trimEnd, nl. now rewrite rev_unit. Qed.

Lemma trimStart_not_blank (l : jsstring) (x : cu) :
  is_space x = false -> trimStart (l ++ [x]) <> [].
Proof.
  intros H. induction l as [| c l IH]; simpl.
  - now rewrite H.
  - destruct (is_space c); [assumption | discriminate].
Qed.

(** A text that starts with a character that is no white space is not
    blank. *)
Lemma trim_not_blank (a : cu) (t : jsstring) :
  is_space a = false -> jsstring_eqb (trim (a :: t)) [] = false.
Proof.
  intros H. unfold trim. rewrite trimStart_text by assumption.
  unfold trimEnd. simpl rev.
  destruct (rev (trimStart (rev t ++ [a]))) eqn:E; [| reflexivity].
  exfalso. apply (f_equal (@rev cu)) in E. rewrite rev_involutive in E.
  now apply (@trimStart_not_blank (rev t) a).
Qed.

Lemma ends_with_text_inv (c : jsstring) :
  ends_with_text c = true ->
  exists c0 x, c = c0 ++ [x] /\ is_space x = false.
Proof.
  unfold ends_with_text. destruct (rev c) as [| x r] eqn:E; [discriminate |].
  intros H. apply negb_true_iff in H.
  exists (rev r), x. split; [| assumption].
  apply (f_equal (@rev cu)) in E. now rewrite rev_involutive in E.
Qed.

Lemma quoted_cons (c1 c2 : jsstring) (l : list jsstring) :
  quoted c1 (c2 :: l) = quote_line c1 ++ nl ++ quoted c2 l.
Proof. unfold quoted. cbn [map concat]. now rewrite <- !app_assoc. Qed.

Lemma last_cons {A : Type} (l : list A) :
  forall a d, last (a :: l) d = last l a.
Proof.
  induction l as [| b l IH]; intros a d; [reflexivity |].
  change (last (a :: b :: l) d) with (last (b :: l) d).
  now rewrite !IH.
Qed.

Lemma quoted_ends_with_text (l : list jsstring) :
  forall c1, ends_with_text (last l c1) = true ->
             exists p x, quoted c1 l = p ++ [x] /\ is_space x = false.
Proof.
  induction l as [| c2 l IH]; intros c1 H.
  - cbn [last] in H. apply ends_with_text_inv in H as [c0 [x [-> Hx]]].
    exists (quote_line c0), x. split; [| assumption].
    unfold quoted, quote_line. cbn [map concat].
    now rewrite app_nil_r, app_assoc.
  - assert (H' : ends_with_text (last l c2) = true)
      by now rewrite <- (last_cons l c2 c1).
    destruct (IH c2 H') as [p [x [E Hx]]].
    exists (quote_line c1 ++ nl ++ p), x. split; [| assumption].
    rewrite quoted_cons, E. now rewrite <- !app_assoc.
Qed.

(** The trimmed match of the quote rule is the quoted lines. *)
Lemma trim_quoted (c1 : jsstring) (l : list jsstring) (tail : jsstring) :
  ends_with_text (last l c1) = true ->
  after_quote tail = true ->
  trim (quoted c1 l ++ firstn 1 tail) = quoted c1 l.
Proof.
  intros Hlast Htail.
  destruct (quoted_ends_with_text l c1 Hlast) as [p [x [E Hx]]].
  assert (Hstart : trimStart (quoted c1 l ++ firstn 1 tail)
                   = quoted c1 l ++ firstn 1 tail) by reflexivity.
  unfold trim. rewrite Hstart.
  destruct (after_quote_inv _ Htail) as [-> | [rest [-> _]]]; cbn [firstn].
  - rewrite app_nil_r, E. now apply trimEnd_text.
  - change [10%N] with nl. rewrite trimEnd_nl, E. now apply trimEnd_text.
Qed.

(** ** The two replacements of [parseQuoteBlock] *)

Lemma opt_chr_cons (c : cu) (k : cont) (z : mstate) (pos : nat)
  (t : jsstring) (caps : list (nat * jsstring)) :
  k (MState (S pos) t caps) = Some z ->
  m (Rep true 0 (Some 1) (Chr c)) k (MState pos (c :: t) caps) = Some z.
Proof.
  intros Hk. rewrite m_Rep. cbn [m_rest length Nat.add groups].
  rewrite repeat_S. cbn [is_zero negb Nat.eqb]. cbv zeta.
  rewrite clear_caps_nil, m_Chr_cons. unfold cu_eqb. rewrite N.eqb_refl.
  cbn [m_pos andb pred option_map]. rewrite succ_neqb.
  rewrite repeat_S. cbn [is_zero]. now rewrite Hk.
Qed.

Lemma is_dot_not_nl (c : cu) : is_dot c = true -> cu_eqb c 10 = false.
Proof.
  unfold is_dot, is_line_terminator, cu_eqb.
  destruct (c =? 10)%N; [discriminate | reflexivity].
Qed.

(** [quoteLineRegexp] matches nowhere in a text without line feed. *)
Lemma exec_quoteLineRegexp_skip (w : jsstring) :
  forall i rest,
    line_content w = true ->
    exec_from quoteLineRegexp i (w ++ rest)
    = exec_from quoteLineRegexp (i + length w) rest.
Proof.
  induction w as [| c w IH]; intros i rest Hw; simpl app.
  - now rewrite Nat.add_0_r.
  - simpl in Hw. apply andb_prop in Hw as [Hc Hw].
    cbn [exec_from].
    change quoteLineRegexp
      with (Seq (Chr 10) (Seq (Chr 62) (Rep true 0 (Some 1) (Chr 32)))).
    rewrite m_Seq, m_Chr_cons, (is_dot_not_nl c Hc).
    rewrite IH by assumption. simpl length. f_equal. lia.
Qed.

(** It matches the line feed, the [>] and the space of a quoted line. *)
Lemma exec_quoteLineRegexp_line (i : nat) (rest : jsstring) :
  exec_from quoteLineRegexp i (nl ++ quote_line rest)
  = Some (MkMatch i [10%N; 62%N; 32%N] []).
Proof.
  change (nl ++ quote_line rest) with (10%N :: 62%N :: 32%N :: rest).
  cbn [exec_from].
  change quoteLineRegexp
    with (Seq (Chr 10) (Seq (Chr 62) (Rep true 0 (Some 1) (Chr 32)))).
  rewrite m_Seq, m_Chr_cons. cbn [cu_eqb N.eqb Pos.eqb].
  rewrite m_Seq, m_Chr_cons. cbn [cu_eqb N.eqb Pos.eqb].
  rewrite (@opt_chr_cons 32%N accept (MState (S (S (S i))) rest []))
    by reflexivity.
  cbn [m_pos m_caps].
  replace (S (S (S i)) - i) with 3 by lia. reflexivity.
Qed.

Lemma skipn_plus {A : Type} (w x : list A) (k : nat) :
  skipn (length w + k) (w ++ x) = skipn k x.
Proof. induction w as [| a w IH]; [reflexivity | exact IH]. Qed.

(** The first replacement removes the [>] and the space of every line
    but the first. *)
Lemma replace_g_quoted (l : list jsstring) :
  forall w n i,
    line_content w = true ->
    forallb line_content l = true ->
    length (w ++ concat (map (fun y => nl ++ quote_line y) l)) < n ->
    replace_g_from n quoteLineRegexp (fun _ => nl) i
                   (w ++ concat (map (fun y => nl ++ quote_line y) l))
    = w ++ concat (map (fun y => nl ++ y) l).
Proof.
  induction l as [| c2 l IH]; intros w n i Hw Hl Hn;
    (destruct n as [| n]; [lia |]); cbn [replace_g_from map concat].
  - rewrite exec_quoteLineRegexp_skip by assumption. reflexivity.
  - simpl in Hl. apply andb_prop in Hl as [Hc2 Hl].
    rewrite exec_quoteLineRegexp_skip by assumption.
    rewrite <- app_assoc.
    change (nl ++ quote_line c2
            ++ concat (map (fun y => nl ++ quote_line y) l))
      with (nl ++ quote_line
                    (c2 ++ concat (map (fun y => nl ++ quote_line y) l))).
    rewrite exec_quoteLineRegexp_line.
    cbn [index match0 length].
    replace (i + length w - i) with (length w) by lia.
    rewrite (@firstn_prefix cu _ w _ eq_refl), skipn_plus.
    change (skipn 3 (nl ++ quote_line
                       (c2 ++ concat (map (fun y => nl ++ quote_line y) l))))
      with (c2 ++ concat (map (fun y => nl ++ quote_line y) l)).
    rewrite IH; try assumption.
    + now rewrite <- app_assoc.
    + cbn [map concat] in Hn. repeat rewrite length_app in Hn.
      rewrite length_quote_line in Hn. rewrite length_app. lia.
Qed.

Lemma line_content_quote_line (c : jsstring) :
  line_content c = true -> line_content (quote_line c) = true.
Proof. intros H. exact H. Qed.

Lemma join_lines_concat (l : list jsstring) :
  forall c1, join_lines (c1 :: l) = c1 ++ concat (map (fun y => nl ++ y) l).
Proof.
  induction l as [| c2 l IH]; intros c1.
  - simpl. now rewrite app_nil_r.
  - change (join_lines (c1 :: c2 :: l))
      with (c1 ++ nl ++ join_lines (c2 :: l)).
    rewrite IH. cbn [map concat]. now rewrite <- app_assoc.
Qed.

Lemma join_lines_quoted (c1 : jsstring) (l : list jsstring) :
  join_lines (map quote_line (c1 :: l)) = quoted c1 l.
Proof.
  cbn [map]. rewrite join_lines_concat, map_map. reflexivity.
Qed.

(** [parseQuoteBlock] on quoted lines: the body is the contents of the
    lines, joined by line feeds. *)
Lemma parseQuoteBlock_quoted (c1 : jsstring) (l : list jsstring) :
  forallb line_content (c1 :: l) = true ->
  parseQuoteBlock (quoted c1 l)
  = (body <- parseTextBody (join_lines (c1 :: l)) ;; Ok (QuoteBlock body)).
Proof.
  intros Hl. unfold parseQuoteBlock.
  pose proof (@exec_quoteRegexp c1 l [] Hl eq_refl) as Hex.
  cbn [firstn] in Hex. rewrite app_nil_r in Hex. rewrite Hex.
  cbn [match0].
  simpl in Hl. apply andb_prop in Hl as [Hc1 Hl].
  unfold replace_g, quoted.
  rewrite replace_g_quoted;
    [| now apply line_content_quote_line | assumption | lia].
  rewrite join_lines_concat. reflexivity.
Qed.

(** ** The quote rule in [parseBlocks] *)

Lemma test_headingRegexp_quote (t : jsstring) :
  test headingRegexp (62%N :: t) = false.
Proof.
  unfold test.
  change headingRegexp
    with (Seq Bol (Seq (Grp 1 (Rep true 1 (Some 6) (Chr 35)))
                       (Seq (Cls is_space) (Grp 2 (Rep true 1 None dot))))).
  now rewrite exec_anchored.
Qed.

(** Without [>] and a white-space character at its start, a text is not
    matched by the quote rule. *)
Lemma test_quoteRegexp_none (s : jsstring) :
  starts_quote s = false -> test quoteRegexp s = false.
Proof.
  intros H. unfold test.
  change quoteRegexp with (Seq Bol (Rep true 1 None quoteLine)).
  rewrite exec_anchored, m_Rep, repeat_S.
  cbn [is_zero negb Nat.eqb]. cbv zeta.
  change (groups quoteLine) with (@nil nat).
  rewrite clear_caps_nil. now rewrite quoteLine_none.
Qed.

Lemma bind_assoc {A B C : Type} (o : outcome A) (f : A -> outcome B)
  (g : B -> outcome C) :
  bind (bind o f) g = bind o (fun a => bind (f a) g).
Proof. now destruct o. Qed.

(** C7, as stated, fails: a line that begins with [>] and a character
    that is no white space is not matched by the quote rule; it is a
    paragraph. *)
Lemma quote_without_space_is_paragraph :
  test quoteRegexp (str ">Q") = false
  /\ parseBlocks (str ">Q")
     = Ok [ParagraphBlock [SText (MkTextBody plain (Some (str ">Q")))]].
Proof. split; vm_compute; reflexivity. Qed.

(** C7, amended: for every body that starts with one or more lines each
    made of [>], a space and a content without line terminator (the last
    content not empty and not ending with white space), followed by
    nothing or by a line feed and a text that does not start with [>] and
    a white-space character, the quote rule matches these lines and the
    line feed after them, [parseBlocks] builds a single quote block from
    them, whose body is the inline body of the contents joined by line
    feeds, and goes on with the trimmed remainder.  A text that does not
    start with [>] and a white-space character is not matched by the
    quote rule. *)
Theorem quote_block_of_lines (c1 : jsstring) (l : list jsstring)
  (tail : jsstring) :
  forallb line_content (c1 :: l) = true ->
  ends_with_text (last l c1) = true ->
  after_quote tail = true ->
  exec quoteRegexp (join_lines (map quote_line (c1 :: l)) ++ tail)
  = Some (MkMatch 0 (join_lines (map quote_line (c1 :: l)) ++ firstn 1 tail)
                  [])
  /\ parseQuoteBlock
       (trim (join_lines (map quote_line (c1 :: l)) ++ firstn 1 tail))
     = (body <- parseTextBody (join_lines (c1 :: l)) ;; Ok (QuoteBlock body))
  /\ parseBlocks (join_lines (map quote_line (c1 :: l)) ++ tail)
     = (body <- parseTextBody (join_lines (c1 :: l)) ;;
        bs <- parseBlocks (trim (skipn 1 tail)) ;;
        Ok (QuoteBlock body :: bs))
  /\ (forall s, starts_quote s = false -> test quoteRegexp s = false).
Proof.
  intros Hl Hlast Htail. rewrite join_lines_quoted.
  pose proof (@exec_quoteRegexp c1 l tail Hl Htail) as Hex.
  pose proof (@trim_quoted c1 l tail Hlast Htail) as Htrim.
  pose proof (@parseQuoteBlock_quoted c1 l Hl) as Hquote.
  split; [exact Hex | split; [now rewrite Htrim | split]].
  - rewrite parseBlocks_eq.
    change (quoted c1 l ++ tail)
      with (62%N :: 32%N
            :: (c1 ++ concat (map (fun y => nl ++ quote_line y) l)) ++ tail)
      at 1 2.
    rewrite trim_not_blank by reflexivity.
    cbn [regexpToParserPairs firstMatch].
    rewrite test_headingRegexp_quote.
    change (62%N :: 32%N
            :: (c1 ++ concat (map (fun y => nl ++ quote_line y) l)) ++ tail)
      with (quoted c1 l ++ tail).
    unfold test. rewrite Hex. cbn [match0]. rewrite Htrim, Hquote.
    rewrite slice1_of_nat.
    replace (skipn (length (quoted c1 l ++ firstn 1 tail)) (quoted c1 l ++ tail))
      with (skipn 1 tail).
    + now rewrite bind_assoc.
    + rewrite <- (firstn_skipn 1 tail) at 3.
      rewrite app_assoc, <- (Nat.add_0_r (length _)), skipn_plus.
      reflexivity.
  - exact test_quoteRegexp_none.
Qed.

Lemma quote_block_of_lines_witness :
  exec quoteRegexp (str "> a" ++ nl ++ str "> b *c*" ++ nl ++ str "P")
  = Some (MkMatch 0 (str "> a" ++ nl ++ str "> b *c*" ++ nl) [])
  /\ parseQuoteBlock (trim (str "> a" ++ nl ++ str "> b *c*" ++ nl))
     = (body <- parseTextBody (str "a" ++ nl ++ str "b *c*") ;;
        Ok (QuoteBlock body))
  /\ parseBlocks (str "> a" ++ nl ++ str "> b *c*" ++ nl ++ str "P")
     = (body <- parseTextBody (str "a" ++ nl ++ str "b *c*") ;;
        bs <- parseBlocks (trim (str "P")) ;;
        Ok (QuoteBlock body :: bs))
  /\ (forall s, starts_quote s = false -> test quoteRegexp s = false).
Proof.
  apply (@quote_block_of_lines (str "a") [str "b *c*"] (nl ++ str "P"));
    vm_compute; reflexivity.
Defined.

(* ================================================================== *)
(** * More about the tokenizers *)
(* ================================================================== *)

(** X1: the tokenizer of parser.ts throws exactly when the scan of the
    input ends with a non-plain run in progress and no finished run, and
    what it throws is a [TypeError]; on every other input it returns. *)
Theorem tokenize_throws_iff (input : jsstring) :
  (tokenize input = Throw TypeError
   <-> exists p, progress (scanEnd input) = Some p
                 /\ p_style p <> plain
                 /\ result (scanEnd input) = [])
  /\ ((exists runs, tokenize input = Ok runs)
      \/ tokenize input = Throw TypeError).
Proof.
  rewrite tokenize_scan. unfold finish.
  destruct (progress (scanEnd input)) as [p |] eqn:Hp.
  - destruct (style_eqb (p_style p) plain) eqn:Hs; cbn [negb].
    + split; [| left; eexists; reflexivity].
      split; [discriminate |].
      intros [q [[= <-] [Hq _]]]. destruct (p_style p); discriminate || congruence.
    + destruct (last_elem (result (scanEnd input))) as [l |] eqn:Hl.
      * cbn [defined bind].
        assert (Hne : result (scanEnd input) <> [])
          by (intros E; rewrite E in Hl; discriminate).
        destruct (style_eqb (style l) plain);
          (split; [| left; eexists; reflexivity]);
          (split; [discriminate | intros [q [_ [_ E]]]; contradiction]).
      * cbn [defined bind]. split; [| now right].
        split; [intros _ | reflexivity].
        exists p. repeat split.
        -- intros E. rewrite E in Hs. discriminate.
        -- destruct (result (scanEnd input)) as [| t r] eqn:E; [reflexivity |].
           destruct (@exists_last _ (t :: r) ltac:(discriminate))
             as [r' [x E']].
           rewrite E', last_elem_snoc in Hl. discriminate.
  - split; [| left; eexists; reflexivity].
    split; [discriminate | intros [q [[=] _]]].
Qed.

Lemma tokenize_throws_iff_witness :
  tokenize (str "**b") = Throw TypeError.
Proof.
  apply (proj1 (tokenize_throws_iff (str "**b"))).
  exists (MkProgress strong (Some (str "b"))).
  split; [vm_compute; reflexivity |].
  split; [simpl; discriminate | vm_compute; reflexivity].
Defined.

(** X2: the standalone tokenizer of parseTextBody.ts returns on every
    input: the finished runs of the scan, followed by the run in
    progress at the end of the input, as it is. *)
Theorem standalone_parseTextBody_total (input : jsstring) :
  Standalone.parseTextBody input = Ok (flushed (scanEnd input)).
Proof.
  destruct (@standalone_flushed (S (length input))
              (Standalone.MkResult input None []) ltac:(simpl; lia))
    as [r [Hr Hm]].
  unfold Standalone.parseTextBody, Standalone.parseTextBodyStyle.
  simpl Standalone.text. rewrite Hr. simpl. f_equal. exact Hm.
Qed.

(** ** The values of the runs *)

Lemma char_at_0 (s : jsstring) :
  match s with
  | [] => char_at s 0 = None /\ slice1 s 1 = []
  | c :: t => char_at s 0 = Some [c] /\ slice1 s 1 = t
  end.
Proof. destruct s; rewrite slice1_1; split; reflexivity. Qed.

Lemma checkHeadStyle_nil_plain (t : jsstring) :
  t <> [] -> fst (checkHeadStyle t) = plain -> snd (checkHeadStyle t) <> [].
Proof.
  rewrite checkHeadStyle_eq. destruct t as [| c1 t1]; [congruence |].
  intros _.
  destruct (c1 =? 42)%N.
  - destruct t1 as [| c2 t2]; [discriminate |].
    destruct (c2 =? 42)%N; discriminate.
  - destruct (c1 =? 95)%N; [discriminate |].
    destruct (c1 =? 96)%N; [discriminate |]. discriminate.
Qed.

Lemma app_not_nil_l {A : Type} (a b : list A) : a <> [] -> a ++ b <> [].
Proof. destruct a; [congruence | discriminate]. Qed.

Lemma value_inv_next (a : TextBodyParseResult) :
  text a <> [] -> value_inv a -> value_inv (next a).
Proof.
  intros Hne [Hres Hprog]. unfold next.
  pose proof (checkHeadStyle_nil_plain Hne) as Hplain.
  destruct (checkHeadStyle (text a)) as [hs ht]. cbn [fst snd] in Hplain.
  pose proof (char_at_0 ht) as Hfirst.
  assert (Hnew : forall s r,
             value_inv (MkParse (slice1 ht 1)
                          (Some (MkProgress s (char_at ht 0))) r)
             <-> Forall value_ok r).
  { intros s r. unfold value_inv. cbn [result progress text p_text].
    destruct ht as [| c t]; destruct Hfirst as [E1 E2]; rewrite E1, ?E2.
    - split; [tauto | intros H; split; [exact H | reflexivity]].
    - split; [tauto | intros H; split; [exact H | discriminate]]. }
  destruct (progress a) as [p |] eqn:Hp; [| now apply Hnew].
  assert (Htext : exists t, p_text p = Some t /\ t <> []).
  { destruct (p_text p) as [t |]; [now exists t | contradiction]. }
  destruct Htext as [t [Ht Htne]].
  assert (Hflush : forall s, Forall value_ok (result a ++ [MkTextBody s (Some t)])).
  { intros s. apply Forall_app. split; [assumption |].
    constructor; [| constructor]. now exists t. }
  assert (Hext : forall s headText,
             value_inv (MkParse headText
                          (Some (MkProgress s
                                   (Some (or_empty (p_text p)
                                          ++ to_string (char_at ht 0)))))
                          (result a))).
  { intros s headText. split; [assumption |]. cbn [progress p_text].
    rewrite Ht. now apply app_not_nil_l. }
  destruct (p_style p) eqn:Hs.
  - destruct hs; try apply Hext; apply Hnew; rewrite Ht; apply Hflush.
  - destruct (style_eqb hs italic); [| apply Hext].
    split; [| exact I]. cbn [result]. rewrite Ht. apply Hflush.
  - destruct (style_eqb hs strong); [| apply Hext].
    split; [| exact I]. cbn [result]. rewrite Ht. apply Hflush.
  - destruct (style_eqb hs code); [| apply Hext].
    split; [| exact I]. cbn [result]. rewrite Ht. apply Hflush.
Qed.

Lemma to_string_not_nil_mark (v t : strU) (s : TextBodyStyle) :
  to_string v ++ mark s ++ to_string t <> [].
Proof.
  intros H. apply app_eq_nil in H as [_ H]. apply app_eq_nil in H as [H _].
  destruct s; discriminate.
Qed.

(** X3: in the sequence the tokenizer returns, no value is the empty
    string, and every value but the last is a non-empty string; the last
    is [undefined] or a non-empty string. *)
Theorem tokenize_values (input : jsstring) (runs : list TextBody)
  (i : nat) (t : TextBody) :
  tokenize input = Ok runs ->
  nth_error runs i = Some t ->
  value t <> Some [] /\ (S i < length runs -> value_ok t).
Proof.
  rewrite tokenize_scan. intros Hr Ht.
  assert (Hinv : value_inv (scanEnd input)).
  { unfold scanEnd. apply scan_invariant.
    - intros a Ha. apply value_inv_next. intros E. now rewrite E in Ha.
    - split; [constructor | exact I]. }
  destruct Hinv as [Hres Hprog].
  assert (Hall : exists init x,
             runs = init ++ [x] /\ Forall value_ok init
             /\ value x <> Some []
             \/ Forall value_ok runs).
  { unfold finish in Hr.
    destruct (progress (scanEnd input)) as [p |].
    - assert (Hp : value (MkTextBody (p_style p) (p_text p)) <> Some []).
      { cbn [value]. destruct (p_text p) as [s |]; [| discriminate].
        intros [= ->]. contradiction. }
      destruct (negb (style_eqb (p_style p) plain)).
      + destruct (last_elem (result (scanEnd input))) as [l |] eqn:Hl;
          [| discriminate].
        cbn [defined bind] in Hr.
        destruct (style_eqb (style l) plain); injection Hr as <-.
        * destruct (last_elem_inv _ Hl) as [init E].
          rewrite E, slice2_init. rewrite E in Hres.
          apply Forall_app in Hres as [Hinit _].
          exists init. eexists. left. split; [reflexivity |].
          split; [assumption |]. cbn [value]. intros [= E'].
          now apply to_string_not_nil_mark in E'.
        * exists (result (scanEnd input)). eexists. left.
          split; [reflexivity | split; assumption].
      + injection Hr as <-.
        exists (result (scanEnd input)). eexists. left.
        split; [reflexivity | split; assumption].
    - injection Hr as <-. exists [], t. now right. }
  destruct Hall as [init [x [[-> [Hinit Hx]] | Hall]]].
  - rewrite length_app. cbn [length].
    destruct (Nat.lt_ge_cases i (length init)) as [Hi | Hi].
    + rewrite nth_error_app1 in Ht by assumption.
      apply nth_error_In in Ht.
      rewrite Forall_forall in Hinit. destruct (Hinit t Ht) as [s [Hs Hne]].
      split; [rewrite Hs; congruence | intros _; now exists s].
    + rewrite nth_error_app2 in Ht by assumption.
      destruct (i - length init) as [| j] eqn:Ej;
        [| destruct j; discriminate].
      injection Ht as <-. split; [assumption | lia].
  - apply nth_error_In in Ht.
    rewrite Forall_forall in Hall. destruct (Hall t Ht) as [s [Hs Hne]].
    split; [rewrite Hs; congruence | intros _; now exists s].
Qed.

Lemma tokenize_values_witness :
  value (MkTextBody italic (Some (str "a"))) <> Some []
  /\ (1 < length [MkTextBody italic (Some (str "a")); MkTextBody code None]
      -> value_ok (MkTextBody italic (Some (str "a")))).
Proof.
  apply (@tokenize_values (str "*a*`")
           [MkTextBody italic (Some (str "a")); MkTextBody code None] 0).
  - vm_compute; reflexivity.
  - reflexivity.
Defined.

(* ================================================================== *)
(** * More about the link extractor and the inline body *)
(* ================================================================== *)

Lemma no_bracket_no_link (input : jsstring) :
  ~ In 91%N input -> exec linkRegexp input = None.
Proof.
  intros H. destruct (exec linkRegexp input) as [mr |] eqn:E; [| reflexivity].
  exfalso. apply H. apply has_link_bracket.
  exact (@linkRegexp_has_link input mr E).
Qed.

(** X4: on a text without ["["], [parseTextBody] is the tokenizer: the
    runs of the whole text, or the exception of the tokenizer; so a text
    without ["["] and without markers gives one plain run with the text
    as value, and the empty text gives no run. *)
Theorem parseTextBody_without_bracket (input : jsstring) :
  ~ In 91%N input ->
  parseTextBody input = (runs <- tokenize input ;; Ok (map SText runs))
  /\ (marker_free input = true ->
      parseTextBody input
      = Ok match input with
           | [] => []
           | _ :: _ => [SText (MkTextBody plain (Some input))]
           end).
Proof.
  intros Hno.
  assert (H : parseTextBody input
              = (runs <- tokenize input ;; Ok (map SText runs))).
  { unfold parseTextBody, parseLinkInText. cbn [parseLinkInText_fuel].
    rewrite (@no_bracket_no_link input Hno). cbn [bind styleItems].
    unfold tokenize.
    destruct (parseTextBodyStyle (MkParse input None [])); cbn [bind];
      try reflexivity.
    now rewrite app_nil_r. }
  split; [exact H |].
  intros Hfree. rewrite H. unfold tokenize.
  destruct input as [| c t]; [reflexivity |].
  rewrite <- (app_nil_r (c :: t)) at 1.
  rewrite parseTextBodyStyle_plain by (assumption || reflexivity).
  reflexivity.
Qed.

Lemma parseTextBody_without_bracket_witness :
  parseTextBody (str "a *b* c")
  = (runs <- tokenize (str "a *b* c") ;; Ok (map SText runs))
  /\ (marker_free (str "a *b* c") = true ->
      parseTextBody (str "a *b* c")
      = Ok [SText (MkTextBody plain (Some (str "a *b* c")))]).
Proof.
  apply (@parseTextBody_without_bracket (str "a *b* c")).
  vm_compute. intros H.
  repeat (destruct H as [H | H]; [discriminate H |]). exact H.
Defined.

(** ** [indexOf] finds the link *)

Lemma starts_with_app (p r : jsstring) : starts_with p (p ++ r) = true.
Proof.
  induction p as [| a p IH]; [reflexivity |]. simpl.
  unfold cu_eqb. now rewrite N.eqb_refl.
Qed.

Lemma starts_with_inv (p s : jsstring) :
  starts_with p s = true -> exists r, s = p ++ r.
Proof.
  revert s. induction p as [| a p IH]; intros s H.
  - now exists s.
  - destruct s as [| b s]; [discriminate |]. simpl in H.
    apply andb_prop in H as [Hab H]. apply N.eqb_eq in Hab. subst b.
    destruct (IH s H) as [r ->]. now exists r.
Qed.

(** [indexOf] of a part of the string is the index of an occurrence. *)
Lemma indexOf_from_found (needle : jsstring) :
  forall pre post i,
  exists k r,
    indexOf_from needle (pre ++ needle ++ post) i = (i + Z.of_nat k)%Z
    /\ skipn k (pre ++ needle ++ post) = needle ++ r.
Proof.
  induction pre as [| c pre IH]; intros post i.
  - exists 0, post. cbn [app skipn].
    destruct (needle ++ post) eqn:E; cbn [indexOf_from];
      rewrite <- E, starts_with_app; split; (lia || reflexivity).
  - cbn [app indexOf_from].
    destruct (starts_with needle (c :: pre ++ needle ++ post)) eqn:E.
    + apply starts_with_inv in E as [r E].
      exists 0, r. split; [lia | exact E].
    + destruct (IH post (i + 1)%Z) as [k [r [H1 H2]]].
      exists (S k), r. split; [rewrite H1; lia | exact H2].
Qed.

(** The three parts [before], [link] and [after] of the input. *)
Lemma link_parts (input : jsstring) (linkMatch : MatchResult) :
  exec linkRegexp input = Some linkMatch ->
  input
  = slice2 input 0 (indexOf input (match0 linkMatch))
    ++ match0 linkMatch
    ++ slice1 input (indexOf input (match0 linkMatch)
                     + Z.of_nat (length (match0 linkMatch)))
  /\ match0 linkMatch <> [].
Proof.
  intros Hex. apply exec_from_Some in Hex as [pre [post [Hin [_ Hmin]]]].
  change (minlen linkRegexp) with 6 in Hmin.
  split; [| intros E; rewrite E in Hmin; simpl in Hmin; lia].
  destruct (@indexOf_from_found (match0 linkMatch) pre post 0%Z)
    as [k [r [H1 H2]]].
  rewrite <- Hin in H1, H2. fold (indexOf input (match0 linkMatch)) in H1.
  rewrite H1.
  assert (Hk : k + length (match0 linkMatch) <= length input).
  { pose proof (f_equal (@length cu) H2) as Hl.
    rewrite length_skipn, length_app in Hl. lia. }
  rewrite !Z.add_0_l, <- Nat2Z.inj_add.
  rewrite slice1_of_nat.
  unfold slice2. rewrite (rel_index_of_nat (length input) k).
  cbn [rel_index Z.ltb Z.compare Z.to_nat Nat.min skipn].
  rewrite Nat.sub_0_r, Nat.min_l by lia.
  rewrite Nat.add_comm, <- skipn_skipn, H2.
  rewrite skipn_app, Nat.sub_diag, skipn_all. cbn [skipn app].
  rewrite <- H2. symmetry. apply firstn_skipn.
Qed.

Lemma concat_filter_truthy (l : list jsstring) :
  concat (filter truthy_string l) = concat l.
Proof.
  induction l as [| s l IH]; [reflexivity |].
  cbn [filter concat]. destruct s as [| c s]; [exact IH |].
  cbn [truthy_string length Nat.eqb negb concat]. now rewrite IH.
Qed.

Lemma splitLinkFromText_fuel_concat (n : nat) (input : jsstring) :
  length input < n ->
  exists pieces,
    splitLinkFromText_fuel n input = Ok pieces
    /\ concat pieces = input
    /\ (pieces = [input] \/ Forall (fun s => s <> []) pieces).
Proof.
  revert input. induction n as [| n IH]; intros input Hn; [lia |].
  cbn [splitLinkFromText_fuel].
  destruct (exec linkRegexp input) as [linkMatch |] eqn:Hex.
  - pose proof (@link_remainder input linkMatch Hex) as Hlt.
    destruct (@link_parts input linkMatch Hex) as [Hparts Hne].
    set (after := slice1 input (indexOf input (match0 linkMatch)
                                + Z.of_nat (length (match0 linkMatch)))) in *.
    destruct (IH after ltac:(lia)) as [tl [Htl [Hcat _]]].
    rewrite Htl. cbn [bind]. eexists. split; [reflexivity |].
    split.
    + rewrite concat_filter_truthy. cbn [app concat].
      rewrite Hcat. symmetry. exact Hparts.
    + right. apply Forall_forall. intros s Hs.
      apply filter_In in Hs as [_ Hs]. intros ->. discriminate.
  - exists [input]. split; [reflexivity |].
    split; [cbn [concat]; apply app_nil_r | now left].
Qed.

(** X5: [splitLinkFromText] returns on every input, and loses no text:
    the pieces concatenate to the input; without a link the input is the
    only piece, otherwise no piece is empty. *)
Theorem splitLinkFromText_concat (input : jsstring) :
  exists pieces,
    splitLinkFromText input = Ok pieces
    /\ concat pieces = input
    /\ ((exec linkRegexp input = None /\ pieces = [input])
        \/ (exec linkRegexp input <> None
            /\ Forall (fun s => s <> []) pieces)).
Proof.
  unfold splitLinkFromText. cbn [splitLinkFromText_fuel].
  destruct (exec linkRegexp input) as [linkMatch |] eqn:Hex.
  - pose proof (@link_remainder input linkMatch Hex) as Hlt.
    destruct (@link_parts input linkMatch Hex) as [Hparts Hne].
    set (after := slice1 input (indexOf input (match0 linkMatch)
                                + Z.of_nat (length (match0 linkMatch)))) in *.
    destruct (@splitLinkFromText_fuel_concat (length input) after Hlt)
      as [tl [Htl [Hcat _]]].
    rewrite Htl. cbn [bind]. eexists. split; [reflexivity |].
    split.
    + rewrite concat_filter_truthy. cbn [app concat].
      rewrite Hcat. symmetry. exact Hparts.
    + right. split; [discriminate |].
      apply Forall_forall. intros s Hs.
      apply filter_In in Hs as [_ Hs]. intros ->. discriminate.
  - exists [input]. split; [reflexivity |].
    split; [cbn [concat]; apply app_nil_r | now left].
Qed.

Lemma Forall2_filter {A B : Type} (R : A -> B -> Prop) (f : A -> bool)
  (g : B -> bool) (l1 : list A) (l2 : list B) :
  (forall a b, R a b -> f a = g b) ->
  Forall2 R l1 l2 -> Forall2 R (filter f l1) (filter g l2).
Proof.
  intros Hfg H. induction H as [| a b l1 l2 Hab H IH]; [constructor |].
  cbn [filter]. rewrite (Hfg a b Hab).
  destruct (g b); [constructor |]; assumption.
Qed.

Lemma Ok_inj {A : Type} (a b : A) : Ok a = Ok b -> a = b.
Proof. now intros [=]. Qed.

Lemma item_of_piece_truthy (item : jsstring + Link) (piece : jsstring) :
  item_of_piece item piece -> truthy item = truthy_string piece.
Proof.
  destruct item as [s | l]; simpl.
  - now intros ->.
  - intros [_ [_ H]]. now destruct piece.
Qed.

Lemma parseLinkInText_fuel_pieces (n : nat) :
  forall input items,
    parseLinkInText_fuel n input = Ok items ->
    exists pieces,
      splitLinkFromText_fuel n input = Ok pieces
      /\ Forall2 item_of_piece items pieces.
Proof.
  induction n as [| n IH]; intros input items; [discriminate |].
  cbn [parseLinkInText_fuel splitLinkFromText_fuel].
  destruct (exec linkRegexp input) as [linkMatch |] eqn:Hex.
  - destruct (@link_parts input linkMatch Hex) as [_ Hne].
    destruct (parseTextBodyStyle _) as [r | |] eqn:Hr; try discriminate.
    cbn [bind].
    destruct (parseLinkInText_fuel n _) as [tl | |] eqn:Htl; try discriminate.
    cbn [bind]. intros Hi. apply Ok_inj in Hi. subst items.
    destruct (IH _ _ Htl) as [pieces [Hp Hall]].
    rewrite Hp. cbn [bind]. eexists. split; [reflexivity |].
    apply Forall2_filter; [exact item_of_piece_truthy |].
    cbn [app]. constructor; [reflexivity |].
    constructor; [| exact Hall].
    cbn [item_of_piece body url]. unfold tokenize. rewrite Hr.
    repeat split. exact Hne.
  - intros [= <-]. exists [input]. split; [reflexivity |].
    constructor; [reflexivity | constructor].
Qed.

(** X6: [parseLinkInText] cuts the input where [splitLinkFromText] cuts
    it: when it returns, its items are, one for one, the pieces of
    [splitLinkFromText]: a string item is the piece itself, and a link
    item has the url of the link literal and, as body, the runs of its
    label. *)
Theorem parseLinkInText_pieces (input : jsstring)
  (items : list (jsstring + Link)) :
  parseLinkInText input = Ok items ->
  exists pieces,
    splitLinkFromText input = Ok pieces
    /\ Forall2 item_of_piece items pieces.
Proof. apply parseLinkInText_fuel_pieces. Qed.

Lemma parseLinkInText_pieces_witness :
  exists pieces,
    splitLinkFromText (str "see [x](http://e) now") = Ok pieces
    /\ Forall2 item_of_piece
         [inl (str "see ");
          inr (MkLink [MkTextBody plain (Some (str "x"))] (str "http://e"));
          inl (str " now")]
         pieces.
Proof.
  apply (@parseLinkInText_pieces (str "see [x](http://e) now")).
  vm_compute. reflexivity.
Defined.

(* ================================================================== *)
(** * Runs of one character in a match *)
(* ================================================================== *)

Lemma char_matcher_Cls (p : cu -> bool) :
  char_matcher p (fun k' y => m (Cls p) k' y).
Proof. split; reflexivity. Qed.

Lemma char_matcher_Chr (c : cu) :
  char_matcher (fun c' => cu_eqb c' c) (fun k' y => m (Chr c) k' y).
Proof. split; reflexivity. Qed.

(** A greedy run takes the whole run of characters [w] when the
    continuation succeeds after it: [w] is as long as the quantifier
    wants, and is followed by the end of the text or another character,
    or is as long as the quantifier allows. *)
Lemma greedy_run (p : cu -> bool) (mb : cont -> mstate -> option mstate)
  (k : cont) (z : mstate) (rest' : jsstring)
  (caps : list (nat * jsstring)) :
  char_matcher p mb ->
  forall w n min max pos,
    forallb p w = true ->
    min <= length w ->
    match max with
    | Some mx => length w < mx /\ stops p rest' = true \/ length w = mx
    | None => stops p rest' = true
    end ->
    min + length (w ++ rest') < n ->
    k (MState (pos + length w) rest' caps) = Some z ->
    repeat mb [] true k n min max (MState pos (w ++ rest') caps) = Some z.
Proof.
  intros [Hcons Hnil].
  induction w as [| c w IH]; intros n min max pos Hw Hmin Hmax Hn Hk;
    (destruct n as [| n]; [lia |]); rewrite repeat_S; cbv zeta;
    rewrite clear_caps_nil.
  - simpl in Hmin, Hk. assert (min = 0) by lia. subst min.
    rewrite Nat.add_0_r in Hk. cbn [app Nat.eqb negb].
    destruct (is_zero max) eqn:Hz; [assumption |].
    assert (Hstop : stops p rest' = true).
    { destruct max as [[| mx] |]; try discriminate; [| assumption].
      simpl in Hmax. destruct Hmax as [[_ H] | H]; [assumption | lia]. }
    destruct rest' as [| c t].
    + now rewrite Hnil.
    + simpl in Hstop. apply negb_true_iff in Hstop.
      now rewrite Hcons, Hstop.
  - simpl in Hw. apply andb_prop in Hw as [Hc Hw]. simpl in Hmin, Hk.
    assert (Hz : is_zero max = false).
    { destruct max as [[| mx] |]; try reflexivity.
      simpl in Hmax. destruct Hmax as [[H _] | H]; lia. }
    rewrite Hz. cbn [app]. rewrite Hcons, Hc. cbn [m_pos].
    rewrite succ_neqb, andb_false_r.
    rewrite (IH n (pred min) (option_map pred max) (S pos)); try assumption.
    + now destruct (negb (min =? 0)).
    + lia.
    + destruct max as [mx |]; cbn [option_map]; [| assumption].
      simpl in Hmax. destruct Hmax as [[H1 H2] | H]; [left | right];
        try split; try assumption; lia.
    + simpl in Hn. lia.
    + now replace (S pos + length w) with (pos + S (length w)) by lia.
Qed.

(** A run fails when the continuation fails after every part of the run
    of characters [w] the quantifier can take. *)
Lemma run_fails (p : cu -> bool) (mb : cont -> mstate -> option mstate)
  (greedy : bool) (k : cont) (rest' : jsstring)
  (caps : list (nat * jsstring)) :
  char_matcher p mb ->
  forall w n min max pos,
    forallb p w = true ->
    max = Some (length w) \/ stops p rest' = true ->
    (forall j, j <= length w ->
               k (MState (pos + j) (skipn j w ++ rest') caps) = None) ->
    repeat mb [] greedy k n min max (MState pos (w ++ rest') caps) = None.
Proof.
  intros [Hcons Hnil].
  induction w as [| c w IH]; intros n min max pos Hw Hmax Hk;
    (destruct n as [| n]; [reflexivity |]); rewrite repeat_S; cbv zeta;
    rewrite clear_caps_nil;
    pose proof (Hk 0 ltac:(lia)) as Hk0; cbn [skipn] in Hk0;
    rewrite Nat.add_0_r in Hk0; rewrite Hk0.
  - destruct (is_zero max) eqn:Hz; [reflexivity |].
    assert (Hstop : stops p rest' = true).
    { destruct Hmax as [-> | H]; [discriminate | assumption]. }
    assert (Hmb : forall d, mb d (MState pos ([] ++ rest') caps) = None).
    { intros d. cbn [app]. destruct rest' as [| c t]; [apply Hnil |].
      simpl in Hstop. apply negb_true_iff in Hstop.
      now rewrite Hcons, Hstop. }
    rewrite Hmb. now destruct (negb (min =? 0)), greedy.
  - simpl in Hw. apply andb_prop in Hw as [Hc Hw].
    destruct (is_zero max) eqn:Hz; [reflexivity |].
    cbn [app]. rewrite Hcons, Hc. cbn [m_pos].
    rewrite succ_neqb, andb_false_r.
    rewrite (IH n (pred min) (option_map pred max) (S pos)); try assumption.
    + now destruct (negb (min =? 0)), greedy.
    + destruct Hmax as [-> | H]; [left; reflexivity | now right].
    + intros j Hj. specialize (Hk (S j) ltac:(simpl; lia)).
      cbn [skipn] in Hk.
      now replace (S pos + j) with (pos + S j) by lia.
Qed.

Lemma forallb_repeat (p : cu -> bool) (c : cu) (k : nat) :
  p c = true -> forallb p (List.repeat c k) = true.
Proof. intros H. induction k; simpl; [reflexivity | now rewrite H]. Qed.

(* ================================================================== *)
(** * The rules and the first characters of the input *)
(* ================================================================== *)

Unset Implicit Arguments.

Lemma test_headingRegexp_first (c : cu) (t : jsstring) :
  cu_eqb c 35 = false -> test headingRegexp (c :: t) = false.
Proof.
  intros H. unfold test.
  change headingRegexp
    with (Seq Bol (Seq (Grp 1 (Rep true 1 (Some 6) (Chr 35)))
                       (Seq (Cls is_space) (Grp 2 (Rep true 1 None dot))))).
  rewrite exec_anchored, m_Seq, m_Grp, m_Rep, repeat_S.
  cbn [is_zero Nat.eqb negb]. cbv zeta.
  now rewrite clear_caps_nil, m_Chr_cons, H.
Qed.

Lemma test_listRegexp_first (c : cu) (t : jsstring) :
  cu_eqb c 45 = false -> is_digit c = false ->
  test listRegexp (c :: t) = false.
Proof.
  intros H1 H2. unfold test.
  change listRegexp
    with (Seq Bol (Rep true 1 None
            (Seq (Alt (Chr 45) (Seq (Rep true 1 None (Cls is_digit)) (Chr 46)))
                 (Seq (Cls is_space)
                      (Seq (Grp 1 (Rep true 1 None dot))
                           (Rep true 0 (Some 1) (Chr 10))))))).
  rewrite exec_anchored, m_Rep, repeat_S.
  cbn [is_zero Nat.eqb negb groups app]. cbv zeta.
  unfold clear_caps. cbn [m_pos m_rest m_caps filter].
  rewrite m_Seq, m_Alt, m_Chr_cons, H1, m_Seq, m_Rep, repeat_S.
  cbn [is_zero Nat.eqb negb]. cbv zeta.
  now rewrite clear_caps_nil, m_Cls_cons, H2.
Qed.

Lemma test_listRegexp_hyphen (c : cu) (t : jsstring) :
  is_space c = false -> test listRegexp (45%N :: c :: t) = false.
Proof.
  intros H. unfold test.
  change listRegexp
    with (Seq Bol (Rep true 1 None
            (Seq (Alt (Chr 45) (Seq (Rep true 1 None (Cls is_digit)) (Chr 46)))
                 (Seq (Cls is_space)
                      (Seq (Grp 1 (Rep true 1 None dot))
                           (Rep true 0 (Some 1) (Chr 10))))))).
  rewrite exec_anchored, m_Rep, repeat_S.
  cbn [is_zero Nat.eqb negb groups app]. cbv zeta.
  unfold clear_caps. cbn [m_pos m_rest m_caps filter].
  rewrite m_Seq, m_Alt, m_Chr_cons. cbn [cu_eqb N.eqb Pos.eqb].
  rewrite m_Seq, m_Cls_cons, H, m_Seq, m_Rep, repeat_S.
  cbn [is_zero Nat.eqb negb]. cbv zeta.
  now rewrite clear_caps_nil, m_Cls_cons.
Qed.

Lemma test_imageRegexp_first (c : cu) (t : jsstring) :
  cu_eqb c 33 = false -> test imageRegexp (c :: t) = false.
Proof.
  intros H. unfold test.
  change imageRegexp
    with (Seq Bol (Seq (Chr 33)
            (seq [ch "["; Grp 1 (star dot); ch "]"; ch "(";
                  Grp 2 (lazy_plus dot); ch ")"; Grp 3 (star dot)]))).
  now rewrite exec_anchored, m_Seq, m_Chr_cons, H.
Qed.

Lemma test_codeRegexp_first (c : cu) (t : jsstring) :
  cu_eqb c 96 = false -> test codeRegexp (c :: t) = false.
Proof.
  intros H. unfold test.
  change codeRegexp
    with (Seq Bol (Seq (Seq (Chr 96) (Seq (Chr 96) (Chr 96)))
            (seq [opt (Grp 1 (plus (Cls is_word))); Chr 10;
                  Grp 2 (lazy_star (Cls is_any)); Chr 10; lit "```"]))).
  now rewrite exec_anchored, !m_Seq, m_Chr_cons, H.
Qed.

Lemma test_thematicBreakRegexp_first (c : cu) (t : jsstring) :
  cu_eqb c 45 = false -> test thematicBreakRegexp (c :: t) = false.
Proof.
  intros H. unfold test.
  change thematicBreakRegexp with (Seq Bol (Rep true 3 None (Chr 45))).
  rewrite exec_anchored, m_Rep, repeat_S.
  cbn [is_zero Nat.eqb negb]. cbv zeta.
  now rewrite clear_caps_nil, m_Chr_cons, H.
Qed.

(** The step of [parseBlocks] with the rule that matches, when the rules
    before it do not. *)
Lemma firstMatch_skip (recur : jsstring -> outcome (list Block))
  (regexp : regex) (parser : jsstring -> outcome Block)
  (tl : list (regex * (jsstring -> outcome Block))) (input : jsstring) :
  test regexp input = false ->
  firstMatch recur ((regexp, parser) :: tl) input = firstMatch recur tl input.
Proof. intros H. cbn [firstMatch]. now rewrite H. Qed.

Lemma firstMatch_hit (recur : jsstring -> outcome (list Block))
  (regexp : regex) (parser : jsstring -> outcome Block)
  (tl : list (regex * (jsstring -> outcome Block))) (input : jsstring)
  (mr : MatchResult) :
  exec regexp input = Some mr ->
  firstMatch recur ((regexp, parser) :: tl) input
  = (b <- parser (trim (match0 mr)) ;;
     bs <- recur (trim (slice1 input (Z.of_nat (length (match0 mr))))) ;;
     Ok (b :: bs)).
Proof. intros H. cbn [firstMatch]. unfold test. now rewrite H. Qed.

(* ================================================================== *)
(** * The thematic break *)
(* ================================================================== *)

Lemma exec_thematicBreakRegexp (n : nat) (tail : jsstring) :
  3 <= n ->
  stops (fun c => cu_eqb c 45) tail = true ->
  exec thematicBreakRegexp (hyphens n ++ tail)
  = Some (MkMatch 0 (hyphens n) []).
Proof.
  intros Hn Htail.
  change thematicBreakRegexp with (Seq Bol (Rep true 3 None (Chr 45))).
  rewrite exec_anchored, m_Rep.
  assert (Hlen : length (hyphens n) = n) by apply repeat_length.
  rewrite (@greedy_run (fun c => cu_eqb c 45) _ accept
             (MState (0 + length (hyphens n)) tail []) tail []
             (char_matcher_Chr 45%N));
    try reflexivity; try assumption.
  - cbn [m_pos m_caps Nat.add]. f_equal. f_equal.
    now apply (@firstn_prefix cu _ _ tail).
  - now apply forallb_repeat.
  - lia.
  - cbn [m_rest]. lia.
Qed.

Lemma trim_hyphens (n : nat) : 1 <= n -> trim (hyphens n) = hyphens n.
Proof.
  intros Hn. destruct n as [| n]; [lia |].
  change (hyphens (S n)) with (45%N :: List.repeat 45%N n).
  unfold trim. rewrite trimStart_text by reflexivity.
  rewrite !repeat_cons. now apply trimEnd_text.
Qed.

(** X7: three or more hyphens at the start of the body are a thematic
    break, not a list item, and what follows the hyphens, on the same
    line or after it, is parsed as the blocks that follow. *)
Theorem thematic_break_of_hyphens (n : nat) (tail : jsstring) :
  3 <= n ->
  stops (fun c => cu_eqb c 45) tail = true ->
  parseBlocks (hyphens n ++ tail)
  = (bs <- parseBlocks (trim tail) ;; Ok (ThematicBreakBlock :: bs)).
Proof.
  intros Hn Htail.
  pose proof (exec_thematicBreakRegexp n tail Hn Htail) as Hex.
  destruct n as [| [| [| n]]]; try lia.
  rewrite parseBlocks_eq.
  change (hyphens (S (S (S n))) ++ tail)
    with (45%N :: 45%N :: (hyphens (S n) ++ tail)).
  rewrite trim_not_blank by reflexivity.
  unfold regexpToParserPairs.
  rewrite firstMatch_skip by (now apply test_headingRegexp_first).
  rewrite firstMatch_skip by (now apply test_quoteRegexp_none).
  rewrite firstMatch_skip by (now apply test_listRegexp_hyphen).
  rewrite firstMatch_skip by (now apply test_imageRegexp_first).
  rewrite firstMatch_skip by (now apply test_codeRegexp_first).
  change (45%N :: 45%N :: (hyphens (S n) ++ tail))
    with (hyphens (S (S (S n))) ++ tail).
  rewrite (firstMatch_hit _ _ _ _ _ _ Hex). cbn [match0].
  unfold parseThematicBreakBlock. cbn [bind].
  rewrite slice1_of_nat.
  replace (length (hyphens (S (S (S n))))) with (length (hyphens (S (S (S n)))) + 0)
    by lia.
  now rewrite skipn_plus.
Qed.

Lemma thematic_break_of_hyphens_witness :
  parseBlocks (hyphens 4 ++ str "x")
  = (bs <- parseBlocks (trim (str "x")) ;; Ok (ThematicBreakBlock :: bs)).
Proof.
  apply (thematic_break_of_hyphens 4 (str "x")); [lia | reflexivity].
Defined.

(* ================================================================== *)
(** * Headings *)
(* ================================================================== *)

Lemma length_hashes (k : nat) : length (hashes k) = k.
Proof. apply repeat_length. Qed.

Lemma firstn_hashes (k : nat) (r : jsstring) :
  firstn k (hashes k ++ r) = hashes k.
Proof.
  rewrite <- (length_hashes k) at 1. now apply (@firstn_prefix cu _ _ r).
Qed.

(** The heading pattern on a heading line: the hashes, the space and the
    text up to the end of the line. *)
Lemma exec_headingRegexp (k : nat) (text tail : jsstring) :
  1 <= k <= 6 ->
  text <> [] ->
  line_content text = true ->
  stops is_dot tail = true ->
  exec headingRegexp (hashes k ++ 32%N :: text ++ tail)
  = Some (MkMatch 0 (hashes k ++ 32%N :: text) [(2, text); (1, hashes k)]).
Proof.
  intros Hk Hne Htext Htail.
  change headingRegexp
    with (Seq Bol (Seq (Grp 1 (Rep true 1 (Some 6) (Chr 35)))
                       (Seq (Cls is_space) (Grp 2 (Rep true 1 None (Cls is_dot)))))).
  rewrite exec_anchored, m_Seq, m_Grp, m_Rep.
  cbn [groups m_rest m_pos].
  rewrite (@greedy_run (fun c => cu_eqb c 35) _ _
             (MState (k + 1 + length text) tail [(2, text); (1, hashes k)])
             (32%N :: text ++ tail) [] (char_matcher_Chr 35%N)).
  - cbn [m_pos m_caps]. f_equal. f_equal.
    replace (k + 1 + length text) with (length (hashes k ++ 32%N :: text))
      by (rewrite length_app, length_hashes; simpl; lia).
    apply (@firstn_prefix cu _ _ tail).
    rewrite <- app_assoc. reflexivity.
  - now apply forallb_repeat.
  - rewrite length_hashes. lia.
  - rewrite length_hashes.
    destruct (Nat.eq_dec k 6) as [-> | Hk6]; [now right | left].
    split; [lia | reflexivity].
  - lia.
  - rewrite length_hashes. cbn [set_cap m_pos m_rest m_caps Nat.add].
    rewrite Nat.sub_0_r, firstn_hashes.
    unfold set_cap. cbn [m_pos m_rest m_caps].
    rewrite m_Seq, m_Cls_cons. change (is_space 32) with true. cbv iota.
    rewrite m_Grp, m_Rep. cbn [groups m_rest m_pos].
    rewrite (@greedy_run is_dot _ _
               (MState (k + 1 + length text) tail [(2, text); (1, hashes k)])
               tail [(1, hashes k)] (char_matcher_Cls is_dot));
      try reflexivity; try assumption.
    + destruct text; [congruence | simpl; lia].
    + lia.
    + unfold set_cap, accept. cbn [m_pos m_rest m_caps].
      replace (S k + length text - S k) with (length text) by lia.
      rewrite (@firstn_prefix cu _ text tail eq_refl).
      now replace (S k + length text) with (k + 1 + length text) by lia.
Qed.

Lemma ends_with_text_app (s t : jsstring) :
  ends_with_text t = true -> ends_with_text (s ++ t) = true.
Proof.
  intros H. destruct (ends_with_text_inv t H) as [t0 [x [-> Hx]]].
  unfold ends_with_text. rewrite app_assoc, rev_unit. now rewrite Hx.
Qed.

(** A text that starts and ends with characters that are no white space
    is its own trimmed text. *)
Lemma trim_text (a : cu) (s : jsstring) :
  is_space a = false -> ends_with_text (a :: s) = true ->
  trim (a :: s) = a :: s.
Proof.
  intros Ha Hs. unfold trim. rewrite trimStart_text by assumption.
  destruct (ends_with_text_inv _ Hs) as [s0 [x [-> Hx]]].
  now apply trimEnd_text.
Qed.

Lemma ends_with_text_not_nil (t : jsstring) :
  ends_with_text t = true -> t <> [].
Proof. intros H ->. discriminate. Qed.

Lemma skipn_exact {A : Type} (w x : list A) : skipn (length w) (w ++ x) = x.
Proof. rewrite <- (Nat.add_0_r (length w)). apply skipn_plus. Qed.

(** X8: a line of one to six hashes, a space and a text is a heading of
    the level given by the number of hashes, with the inline body of the
    text; [parseBlocks] goes on with what follows the line. *)
Theorem heading_of_line (k : nat) (text tail : jsstring) :
  1 <= k <= 6 ->
  line_content text = true ->
  ends_with_text text = true ->
  stops is_dot tail = true ->
  parseHeadingBlock (hashes k ++ str " " ++ text)
  = (body <- parseTextBody text ;; Ok (HeadingBlock k body))
  /\ parseBlocks (hashes k ++ str " " ++ text ++ tail)
     = (body <- parseTextBody text ;;
        bs <- parseBlocks (trim tail) ;;
        Ok (HeadingBlock k body :: bs)).
Proof.
  intros Hk Htext Hend Htail.
  pose proof (ends_with_text_not_nil text Hend) as Hne.
  change (str " " ++ text) with (32%N :: text).
  change (str " " ++ text ++ tail) with (32%N :: text ++ tail).
  assert (Hbuild : parseHeadingBlock (hashes k ++ 32%N :: text)
                   = (body <- parseTextBody text ;; Ok (HeadingBlock k body))).
  { unfold parseHeadingBlock.
    pose proof (exec_headingRegexp k text [] Hk Hne Htext eq_refl) as Hex.
    rewrite app_nil_r in Hex. rewrite Hex.
    cbn [cap captures lookup_cap Nat.eqb defined bind].
    now rewrite length_hashes. }
  split; [exact Hbuild |].
  pose proof (exec_headingRegexp k text tail Hk Hne Htext Htail) as Hex.
  assert (Hblank : jsstring_eqb (trim (hashes k ++ 32%N :: text ++ tail)) []
                   = false).
  { destruct k as [| k]; [lia |]. now apply trim_not_blank. }
  assert (Htrim : trim (hashes k ++ 32%N :: text) = hashes k ++ 32%N :: text).
  { destruct k as [| k]; [lia |].
    apply (trim_text 35%N (hashes k ++ 32%N :: text)); [reflexivity |].
    pose proof (ends_with_text_app (35%N :: hashes k ++ [32%N]) text Hend)
      as H.
    cbn [app] in H. now rewrite <- app_assoc in H. }
  assert (Hrest : skipn (length (hashes k ++ 32%N :: text))
                        (hashes k ++ 32%N :: text ++ tail) = tail).
  { replace (hashes k ++ 32%N :: text ++ tail)
      with ((hashes k ++ 32%N :: text) ++ tail)
      by now rewrite <- app_assoc.
    apply skipn_exact. }
  rewrite parseBlocks_eq, Hblank.
  unfold regexpToParserPairs.
  rewrite (firstMatch_hit _ _ _ _ _ _ Hex). cbn [match0].
  rewrite Htrim, Hbuild, bind_assoc. cbn [bind].
  now rewrite slice1_of_nat, Hrest.
Qed.

Lemma heading_of_line_witness :
  parseHeadingBlock (hashes 2 ++ str " " ++ str "T *x*")
  = (body <- parseTextBody (str "T *x*") ;; Ok (HeadingBlock 2 body))
  /\ parseBlocks (hashes 2 ++ str " " ++ str "T *x*" ++ nl ++ str "P")
     = (body <- parseTextBody (str "T *x*") ;;
        bs <- parseBlocks (trim (nl ++ str "P")) ;;
        Ok (HeadingBlock 2 body :: bs)).
Proof.
  apply (heading_of_line 2 (str "T *x*") (nl ++ str "P"));
    [lia | reflexivity | reflexivity | reflexivity].
Defined.

(** ** More than six hashes *)

Lemma hashes_app (a b : nat) : hashes a ++ hashes b = hashes (a + b).
Proof. unfold hashes. now rewrite repeat_app. Qed.

Lemma skipn_hashes (j n : nat) : skipn j (hashes n) = hashes (n - j).
Proof.
  revert n. induction j as [| j IH]; intros n.
  - now rewrite Nat.sub_0_r.
  - destruct n as [| n]; [reflexivity |]. exact (IH n).
Qed.

(** With seven hashes or more the heading pattern does not match. *)
Lemma test_headingRegexp_hashes (k : nat) (t : jsstring) :
  7 <= k -> test headingRegexp (hashes k ++ t) = false.
Proof.
  intros Hk. unfold test.
  change headingRegexp
    with (Seq Bol (Seq (Grp 1 (Rep true 1 (Some 6) (Chr 35)))
                       (Seq (Cls is_space) (Grp 2 (Rep true 1 None (Cls is_dot)))))).
  rewrite exec_anchored, m_Seq, m_Grp, m_Rep.
  cbn [groups m_rest m_pos].
  replace (hashes k ++ t) with (hashes 6 ++ (hashes (k - 6) ++ t))
    by (rewrite app_assoc, hashes_app; f_equal; f_equal; lia).
  rewrite (@run_fails (fun c => cu_eqb c 35) _ true _
             (hashes (k - 6) ++ t) [] (char_matcher_Chr 35%N));
    [reflexivity | reflexivity | now left |].
  intros j Hj. rewrite skipn_hashes, app_assoc, hashes_app.
  change (length (hashes 6)) with 6 in Hj.
  replace (6 - j + (k - 6)) with (S (k - j - 1)) by lia.
  unfold set_cap. cbn [m_pos m_rest m_caps hashes List.repeat app].
  now rewrite m_Seq, m_Cls_cons.
Qed.
(* ================================================================== *)
(** * The paragraph *)
(* ================================================================== *)

Lemma test_quoteRegexp_first (c : cu) (t : jsstring) :
  cu_eqb c 62 = false -> test quoteRegexp (c :: t) = false.
Proof.
  intros H. apply test_quoteRegexp_none. destruct t; simpl; [reflexivity |].
  now rewrite H.
Qed.

Lemma line_length_le (s : jsstring) : line_length s <= length s.
Proof.
  induction s as [| c s IH]; simpl; [lia |].
  destruct (cu_eqb c 10); simpl; lia.
Qed.

(** The step of [parseBlocks] when no rule before the paragraph rule
    matches: the paragraph is the text up to the first line feed. *)
Lemma parseBlocks_paragraph (c : cu) (t : jsstring) :
  is_space c = false ->
  test headingRegexp (c :: t) = false ->
  test quoteRegexp (c :: t) = false ->
  test listRegexp (c :: t) = false ->
  test imageRegexp (c :: t) = false ->
  test codeRegexp (c :: t) = false ->
  test thematicBreakRegexp (c :: t) = false ->
  parseBlocks (c :: t)
  = (body <- parseTextBody (trim (c :: firstn (line_length t) t)) ;;
     bs <- parseBlocks (trim (skipn (line_length t) t)) ;;
     Ok (ParagraphBlock body :: bs)).
Proof.
  intros Hc H1 H2 H3 H4 H5 H6.
  rewrite parseBlocks_eq, trim_not_blank by assumption.
  unfold regexpToParserPairs.
  rewrite !firstMatch_skip by assumption.
  destruct (exec_paragraphRegexp c t) as [caps Hex].
  rewrite (firstMatch_hit _ _ _ _ _ _ Hex). cbn [match0].
  unfold parseParagraphBlock. rewrite bind_assoc. cbn [bind].
  rewrite slice1_of_nat. cbn [length skipn].
  now rewrite firstn_length_le by apply line_length_le.
Qed.

Lemma line_length_line (text tail : jsstring) :
  forallb not_lf text = true -> stops not_lf tail = true ->
  firstn (line_length (text ++ tail)) (text ++ tail) = text ++ firstn 1 tail
  /\ skipn (line_length (text ++ tail)) (text ++ tail) = skipn 1 tail.
Proof.
  intros Htext Htail. induction text as [| a text IH].
  - destruct tail as [| b tail]; [now split |].
    unfold stops, not_lf in Htail. rewrite negb_involutive in Htail.
    cbn [app line_length]. rewrite Htail. now split.
  - cbn [forallb] in Htext. apply andb_prop in Htext as [Ha Htext].
    unfold not_lf in Ha. apply negb_true_iff in Ha.
    cbn [app line_length]. rewrite Ha. cbn [firstn skipn].
    destruct (IH Htext) as [E1 E2]. now rewrite E1, E2.
Qed.

Lemma trim_line (c : cu) (text tail : jsstring) :
  is_space c = false -> stops not_lf tail = true ->
  trim (c :: text ++ firstn 1 tail) = trim (c :: text).
Proof.
  intros Hc Htail. destruct tail as [| b tail].
  - cbn [firstn]. now rewrite app_nil_r.
  - unfold stops, not_lf in Htail. rewrite negb_involutive in Htail.
    apply N.eqb_eq in Htail. subst b.
    unfold trim. rewrite !trimStart_text by assumption.
    change (c :: text ++ firstn 1 (10%N :: tail)) with ((c :: text) ++ nl).
    apply trimEnd_nl.
Qed.

Lemma trim_skip_lf (tail : jsstring) :
  stops not_lf tail = true -> trim (skipn 1 tail) = trim tail.
Proof.
  destruct tail as [| b tail]; [reflexivity |].
  unfold stops, not_lf. rewrite negb_involutive. intros H.
  apply N.eqb_eq in H. subst b. reflexivity.
Qed.

(** The paragraph of a line, when no rule before the paragraph rule
    matches. *)
Lemma parseBlocks_paragraph_line (c : cu) (text tail : jsstring) :
  is_space c = false ->
  forallb not_lf text = true -> stops not_lf tail = true ->
  test headingRegexp (c :: text ++ tail) = false ->
  test quoteRegexp (c :: text ++ tail) = false ->
  test listRegexp (c :: text ++ tail) = false ->
  test imageRegexp (c :: text ++ tail) = false ->
  test codeRegexp (c :: text ++ tail) = false ->
  test thematicBreakRegexp (c :: text ++ tail) = false ->
  parseBlocks (c :: text ++ tail)
  = (body <- parseTextBody (trim (c :: text)) ;;
     bs <- parseBlocks (trim tail) ;;
     Ok (ParagraphBlock body :: bs)).
Proof.
  intros Hc Htext Htail H1 H2 H3 H4 H5 H6.
  rewrite parseBlocks_paragraph by assumption.
  destruct (line_length_line text tail Htext Htail) as [E1 E2].
  now rewrite E1, E2, trim_line, trim_skip_lf.
Qed.

(** X9: a line whose first character is no white space and none of the
    characters a heading, a quote, a list, an image, a code block or a
    thematic break starts with is a paragraph: its body is the inline
    body of the trimmed line, and [parseBlocks] goes on after the line
    feed that ends the line. *)
Theorem paragraph_of_line (c : cu) (text tail : jsstring) :
  is_space c = false ->
  opens_block c = false ->
  forallb not_lf text = true ->
  stops not_lf tail = true ->
  parseBlocks (c :: text ++ tail)
  = (body <- parseTextBody (trim (c :: text)) ;;
     bs <- parseBlocks (trim tail) ;;
     Ok (ParagraphBlock body :: bs)).
Proof.
  intros Hc Hopen Htext Htail.
  unfold opens_block in Hopen.
  repeat (apply orb_false_elim in Hopen as [Hopen ?]).
  apply parseBlocks_paragraph_line; try assumption.
  - now apply test_headingRegexp_first.
  - now apply test_quoteRegexp_first.
  - now apply test_listRegexp_first.
  - now apply test_imageRegexp_first.
  - now apply test_codeRegexp_first.
  - now apply test_thematicBreakRegexp_first.
Qed.

Lemma paragraph_of_line_witness :
  parseBlocks (str "a *b* " ++ nl ++ str "# c")
  = (body <- parseTextBody (trim (str "a *b* ")) ;;
     bs <- parseBlocks (trim (nl ++ str "# c")) ;;
     Ok (ParagraphBlock body :: bs)).
Proof.
  apply (paragraph_of_line 97%N (str " *b* ") (nl ++ str "# c"));
    reflexivity.
Defined.

(** X10: seven hashes or more start no heading: the heading builder
    rejects the line, and [parseBlocks] makes a paragraph of it, hashes
    included. *)
Theorem seven_hashes_is_paragraph (k : nat) (text tail : jsstring) :
  7 <= k ->
  forallb not_lf text = true ->
  stops not_lf tail = true ->
  parseHeadingBlock (hashes k ++ text)
  = Throw (Error (str "Invalid heading block"))
  /\ parseBlocks (hashes k ++ text ++ tail)
     = (body <- parseTextBody (trim (hashes k ++ text)) ;;
        bs <- parseBlocks (trim tail) ;;
        Ok (ParagraphBlock body :: bs)).
Proof.
  intros Hk Htext Htail. split.
  - unfold parseHeadingBlock.
    pose proof (test_headingRegexp_hashes k text Hk) as H. unfold test in H.
    now destruct (exec headingRegexp (hashes k ++ text)).
  - pose proof (test_headingRegexp_hashes k (text ++ tail) Hk) as H.
    destruct k as [| k]; [lia |].
    change (hashes (S k)) with (35%N :: hashes k) in *.
    cbn [app] in *. rewrite app_assoc in *.
    apply parseBlocks_paragraph_line; try assumption; try reflexivity.
    + rewrite forallb_app, Htext, andb_true_r.
      now apply forallb_repeat.
    + now apply test_quoteRegexp_first.
    + now apply test_listRegexp_first.
    + now apply test_imageRegexp_first.
    + now apply test_codeRegexp_first.
    + now apply test_thematicBreakRegexp_first.
Qed.

Lemma seven_hashes_is_paragraph_witness :
  parseHeadingBlock (hashes 7 ++ str " t")
  = Throw (Error (str "Invalid heading block"))
  /\ parseBlocks (hashes 7 ++ str " t" ++ nl ++ str "u")
     = (body <- parseTextBody (trim (hashes 7 ++ str " t")) ;;
        bs <- parseBlocks (trim (nl ++ str "u")) ;;
        Ok (ParagraphBlock body :: bs)).
Proof.
  apply (seven_hashes_is_paragraph 7 (str " t") (nl ++ str "u"));
    [lia | reflexivity | reflexivity].
Defined.
(* ================================================================== *)
(** * Lazy runs *)
(* ================================================================== *)

(** A lazy run without an upper bound takes the shortest part of the run
    of characters [w] after which the continuation succeeds. *)
Lemma lazy_run (p : cu -> bool) (mb : cont -> mstate -> option mstate)
  (k : cont) (z : mstate) (rest' : jsstring)
  (caps : list (nat * jsstring)) :
  char_matcher p mb ->
  forall w n min pos,
    forallb p w = true ->
    min <= length w ->
    (forall j, min <= j < length w ->
               k (MState (pos + j) (skipn j w ++ rest') caps) = None) ->
    min + length (w ++ rest') < n ->
    k (MState (pos + length w) rest' caps) = Some z ->
    repeat mb [] false k n min None (MState pos (w ++ rest') caps) = Some z.
Proof.
  intros [Hcons Hnil].
  induction w as [| c w IH]; intros n min pos Hw Hmin Hfail Hn Hk;
    (destruct n as [| n]; [lia |]); rewrite repeat_S; cbv zeta;
    rewrite clear_caps_nil; cbn [is_zero].
  - simpl in Hmin, Hk. assert (min = 0) by lia. subst min.
    rewrite Nat.add_0_r in Hk. cbn [app Nat.eqb negb]. now rewrite Hk.
  - simpl in Hw. apply andb_prop in Hw as [Hc Hw]. simpl in Hmin, Hk.
    assert (Hrec : repeat mb [] false k n (pred min) None
                     (MState (S pos) (w ++ rest') caps) = Some z).
    { apply IH; try assumption.
      - lia.
      - intros j Hj. specialize (Hfail (S j) ltac:(simpl; lia)).
        cbn [skipn] in Hfail.
        now replace (S pos + j) with (pos + S j) by lia.
      - simpl in Hn. lia.
      - now replace (S pos + length w) with (pos + S (length w)) by lia. }
    cbn [app option_map]. rewrite Hcons, Hc. cbn [m_pos].
    rewrite succ_neqb, andb_false_r, Hrec.
    destruct min as [| min]; cbn [Nat.eqb negb]; [| reflexivity].
    specialize (Hfail 0 ltac:(simpl; lia)). cbn [skipn app] in Hfail.
    rewrite Nat.add_0_r in Hfail. now rewrite Hfail.
Qed.

(** Before the index [indexOf] returns, the needle does not occur. *)
Lemma indexOf_from_first (needle : jsstring) :
  forall s i n,
    (0 <= i)%Z ->
    indexOf_from needle s i = (i + Z.of_nat n)%Z ->
    forall j, j < n -> starts_with needle (skipn j s) = false.
Proof.
  induction s as [| c s IH]; intros i n Hi H j Hj.
  - rewrite skipn_nil. cbn [indexOf_from] in H.
    destruct (starts_with needle []); [lia | reflexivity].
  - cbn [indexOf_from] in H.
    destruct (starts_with needle (c :: s)) eqn:E; [lia |].
    destruct j as [| j]; [exact E |].
    destruct n as [| n]; [lia |]. cbn [skipn].
    apply (IH (i + 1)%Z n); lia.
Qed.

Lemma indexOf_first (s needle : jsstring) (n : nat) :
  indexOf s needle = Z.of_nat n ->
  forall j, j < n -> starts_with needle (skipn j s) = false.
Proof. intros H. now apply (indexOf_from_first needle s 0%Z n). Qed.
(* ================================================================== *)
(** * Fenced code *)
(* ================================================================== *)

(** The optional language of the code pattern takes the word characters
    before the line feed. *)
Lemma code_lang (k : cont) (z : mstate) (pos : nat) (lang r : jsstring) :
  forallb is_word lang = true ->
  k (MState (pos + length lang) (10%N :: r) (lang_caps lang)) = Some z ->
  m (opt (Grp 1 (plus (Cls is_word)))) k (MState pos (lang ++ 10%N :: r) [])
  = Some z.
Proof.
  intros Hlang Hk.
  change (opt (Grp 1 (plus (Cls is_word))))
    with (Rep true 0 (Some 1) (Grp 1 (Rep true 1 None (Cls is_word)))).
  rewrite m_Rep, repeat_S.
  cbn [is_zero Nat.eqb negb groups app andb m_pos m_rest pred option_map].
  cbv zeta. unfold clear_caps. cbn [m_pos m_rest m_caps filter].
  rewrite m_Grp, m_Rep. cbn [groups m_pos m_rest].
  destruct lang as [| c lang].
  - cbn [app length] in *. rewrite Nat.add_0_r in Hk.
    rewrite repeat_S. cbn [is_zero Nat.eqb negb]. cbv zeta.
    rewrite clear_caps_nil, m_Cls_cons.
    change (is_word 10) with false. cbv iota. exact Hk.
  - rewrite (@greedy_run is_word _ _ z (10%N :: r) []
               (char_matcher_Cls is_word)); try reflexivity; try assumption.
    + simpl. lia.
    + lia.
    + unfold set_cap. cbn [m_pos m_rest m_caps].
      replace (pos + length (c :: lang) =? pos) with false
        by (symmetry; apply Nat.eqb_neq; simpl; lia).
      cbn [length Nat.add app]. rewrite repeat_S. cbn [is_zero].
      replace (pos + S (length lang) - pos) with (length (c :: lang))
        by (simpl; lia).
      change (c :: lang ++ 10%N :: r) with ((c :: lang) ++ 10%N :: r).
      now rewrite (@firstn_prefix cu _ (c :: lang) (10%N :: r) eq_refl).
Qed.

Lemma forallb_is_any (s : jsstring) : forallb is_any s = true.
Proof. induction s; simpl; [reflexivity | now rewrite is_any_true]. Qed.

Lemma starts_with_app_r (p s r : jsstring) :
  length p <= length s -> starts_with p (s ++ r) = starts_with p s.
Proof.
  revert s. induction p as [| a p IH]; intros s H; [reflexivity |].
  destruct s as [| b s]; [simpl in H; lia |].
  cbn [app starts_with]. rewrite IH; [reflexivity | simpl in H; lia].
Qed.

(** The end of the code pattern fails where no fence starts. *)
Lemma fence_fails (k : cont) (pos : nat) (s : jsstring)
  (caps : list (nat * jsstring)) :
  starts_with fence s = false ->
  m (Seq (Chr 10) (Seq (Chr 96) (Seq (Chr 96) (Chr 96)))) k
    (MState pos s caps) = None.
Proof.
  intros H.
  change fence with [10%N; 96%N; 96%N; 96%N] in H.
  rewrite m_Seq.
  destruct s as [| c1 s]; [reflexivity |]. rewrite m_Chr_cons.
  cbn [starts_with] in H. unfold cu_eqb in *. rewrite (N.eqb_sym 10 c1) in H.
  destruct (c1 =? 10)%N; [| reflexivity]. cbn [andb] in H. rewrite m_Seq.
  destruct s as [| c2 s]; [reflexivity |]. rewrite m_Chr_cons.
  cbn [starts_with] in H. unfold cu_eqb in *. rewrite (N.eqb_sym 96 c2) in H.
  destruct (c2 =? 96)%N; [| reflexivity]. cbn [andb] in H. rewrite m_Seq.
  destruct s as [| c3 s]; [reflexivity |]. rewrite m_Chr_cons.
  cbn [starts_with] in H. unfold cu_eqb in *. rewrite (N.eqb_sym 96 c3) in H.
  destruct (c3 =? 96)%N; [| reflexivity]. cbn [andb] in H.
  destruct s as [| c4 s]; [reflexivity |]. rewrite m_Chr_cons.
  cbn [starts_with] in H. unfold cu_eqb in *. rewrite (N.eqb_sym 96 c4) in H.
  destruct (c4 =? 96)%N; [discriminate | reflexivity].
Qed.

(** The code pattern on a fenced block: the language is the word after
    the opening backquotes, the body is the text up to the first fence. *)
Lemma exec_codeRegexp (lang body tail : jsstring) :
  forallb is_word lang = true ->
  indexOf (body ++ fence) fence = Z.of_nat (length body) ->
  exec codeRegexp (ticks ++ lang ++ nl ++ body ++ fence ++ tail)
  = Some (MkMatch 0 (ticks ++ lang ++ nl ++ body ++ fence)
                  ((2, body) :: lang_caps lang)).
Proof.
  intros Hlang Hbody.
  change codeRegexp
    with (Seq Bol (Seq (Seq (Chr 96) (Seq (Chr 96) (Chr 96)))
            (Seq (opt (Grp 1 (plus (Cls is_word))))
              (Seq (Chr 10)
                (Seq (Grp 2 (Rep false 0 None (Cls is_any)))
                     (Seq (Chr 10) (Seq (Chr 96) (Seq (Chr 96) (Chr 96))))))))).
  change (ticks ++ lang ++ nl ++ body ++ fence ++ tail)
    with (96%N :: 96%N :: 96%N :: lang ++ 10%N :: body
            ++ 10%N :: 96%N :: 96%N :: 96%N :: tail).
  rewrite exec_anchored, !m_Seq.
  do 3 (rewrite ?m_Seq, m_Chr_cons; change (cu_eqb 96 96) with true;
        cbv beta iota).
  rewrite m_Seq.
  rewrite (code_lang _
             (MState (3 + length lang + 1 + length body + 4) tail
                     ((2, body) :: lang_caps lang)) 3 lang _ Hlang).
  - cbn [m_pos m_caps]. f_equal. f_equal.
    replace (3 + length lang + 1 + length body + 4)
      with (length (ticks ++ lang ++ nl ++ body ++ fence))
      by (rewrite !length_app; simpl; lia).
    apply (@firstn_prefix cu _ _ tail).
    change (ticks ++ lang ++ nl ++ body ++ fence)
      with (96%N :: 96%N :: 96%N :: lang ++ 10%N :: body ++ fence).
    cbn [app]. do 3 f_equal. rewrite <- app_assoc. cbn [app]. f_equal.
    rewrite <- app_assoc. reflexivity.
  - rewrite m_Seq, m_Chr_cons. change (cu_eqb 10 10) with true.
    cbv beta iota. rewrite m_Seq, m_Grp, m_Rep. cbn [groups m_pos m_rest].
    apply (lazy_run is_any _ _ _ (10%N :: 96%N :: 96%N :: 96%N :: tail)
             (lang_caps lang) (char_matcher_Cls is_any)).
    + apply forallb_is_any.
    + lia.
    + intros j Hj. unfold set_cap. cbn [m_pos m_rest m_caps].
      apply fence_fails.
      change (10%N :: 96%N :: 96%N :: 96%N :: tail) with (fence ++ tail).
      rewrite app_assoc, starts_with_app_r.
      * replace (skipn j body ++ fence) with (skipn j (body ++ fence))
          by (rewrite skipn_app; now replace (j - length body) with 0 by lia).
        now apply (indexOf_first _ _ _ Hbody).
      * rewrite length_app. simpl. lia.
    + lia.
    + unfold set_cap. cbn [m_pos m_rest m_caps].
      replace (S (3 + length lang) + length body - S (3 + length lang))
        with (length body) by lia.
      rewrite (@firstn_prefix cu _ body _ eq_refl).
      rewrite m_Seq, m_Chr_cons. change (cu_eqb 10 10) with true. cbv iota.
      rewrite m_Seq, m_Chr_cons. change (cu_eqb 96 96) with true. cbv iota.
      rewrite m_Seq, m_Chr_cons. change (cu_eqb 96 96) with true. cbv iota.
      rewrite m_Chr_cons. change (cu_eqb 96 96) with true. cbv iota.
      unfold accept. do 2 f_equal. lia.
Qed.

(** X11: a fenced block of code is read verbatim.  The opening fence is
    three backquotes and an optional language of word characters; the
    body runs to the first line feed that three backquotes follow, and is
    kept as it is, inline markers and line feeds included; the language
    is absent when none is given.  [parseBlocks] goes on right after the
    closing backquotes. *)
Theorem fenced_code_block (lang body tail : jsstring) :
  forallb is_word lang = true ->
  indexOf (body ++ fence) fence = Z.of_nat (length body) ->
  parseCodeBlock (ticks ++ lang ++ nl ++ body ++ fence)
  = Ok (CodeBlock (or_undefined (Some lang)) body)
  /\ parseBlocks (ticks ++ lang ++ nl ++ body ++ fence ++ tail)
     = (bs <- parseBlocks (trim tail) ;;
        Ok (CodeBlock (or_undefined (Some lang)) body :: bs)).
Proof.
  intros Hlang Hbody.
  assert (Hbuild : parseCodeBlock (ticks ++ lang ++ nl ++ body ++ fence)
                   = Ok (CodeBlock (or_undefined (Some lang)) body)).
  { unfold parseCodeBlock.
    pose proof (exec_codeRegexp lang body [] Hlang Hbody) as Hex.
    rewrite app_nil_r in Hex. rewrite Hex.
    unfold cap. cbn [captures lookup_cap Nat.eqb defined bind].
    now destruct lang. }
  split; [exact Hbuild |].
  pose proof (exec_codeRegexp lang body tail Hlang Hbody) as Hex.
  set (block := ticks ++ lang ++ nl ++ body ++ fence) in *.
  assert (E : ticks ++ lang ++ nl ++ body ++ fence ++ tail = block ++ tail).
  { unfold block. now rewrite <- !app_assoc. }
  rewrite E in *.
  assert (Hcons : block = 96%N :: skipn 1 block) by reflexivity.
  assert (Htrim : trim block = block).
  { rewrite Hcons. apply trim_text; [reflexivity |].
    change (ends_with_text block = true).
    unfold block. rewrite !app_assoc. now apply ends_with_text_app. }
  rewrite parseBlocks_eq.
  replace (jsstring_eqb (trim (block ++ tail)) []) with false
    by (rewrite Hcons; symmetry; now apply trim_not_blank).
  unfold regexpToParserPairs.
  rewrite firstMatch_skip
    by (rewrite Hcons; now apply test_headingRegexp_first).
  rewrite firstMatch_skip
    by (rewrite Hcons; now apply test_quoteRegexp_first).
  rewrite firstMatch_skip
    by (rewrite Hcons; now apply test_listRegexp_first).
  rewrite firstMatch_skip
    by (rewrite Hcons; now apply test_imageRegexp_first).
  rewrite (firstMatch_hit _ _ _ _ _ _ Hex). cbn [match0].
  rewrite Htrim, Hbuild. cbn [bind].
  now rewrite slice1_of_nat, skipn_exact.
Qed.

Lemma fenced_code_block_witness :
  parseCodeBlock (ticks ++ str "js" ++ nl ++ str "a *b*" ++ fence)
  = Ok (CodeBlock (or_undefined (Some (str "js"))) (str "a *b*"))
  /\ parseBlocks (ticks ++ str "js" ++ nl ++ str "a *b*" ++ fence ++ str "x")
     = (bs <- parseBlocks (trim (str "x")) ;;
        Ok (CodeBlock (or_undefined (Some (str "js"))) (str "a *b*") :: bs)).
Proof.
  apply (fenced_code_block (str "js") (str "a *b*") (str "x"));
    reflexivity.
Defined.
(* ================================================================== *)
(** * Documents without a frontmatter *)
(* ================================================================== *)

Lemma trimStart_head (s : jsstring) :
  match trimStart s with
  | [] => True
  | a :: _ => is_space a = false
  end.
Proof.
  induction s as [| c s IH]; simpl; [exact I |].
  destruct (is_space c) eqn:E; [exact IH | exact E].
Qed.

Lemma trimStart_suffix (s : jsstring) : exists w, s = w ++ trimStart s.
Proof.
  induction s as [| c s [w IH]]; [now exists [] |]. simpl.
  destruct (is_space c).
  - exists (c :: w). simpl. now f_equal.
  - now exists [].
Qed.

(** A trimmed text is empty, or starts and ends with characters that are
    no white space. *)
Lemma trim_cases (s : jsstring) :
  trim s = []
  \/ exists a t, trim s = a :: t /\ is_space a = false
                 /\ ends_with_text (a :: t) = true.
Proof.
  unfold trim, trimEnd.
  pose proof (trimStart_head s) as Hhead.
  destruct (trimStart s) as [| a u]; [now left | right].
  pose proof (trimStart_head (rev (a :: u))) as Hlast.
  destruct (trimStart_suffix (rev (a :: u))) as [w Hw].
  pose proof (@trimStart_not_blank (rev u) a Hhead) as Hne.
  change (rev u ++ [a]) with (rev (a :: u)) in Hne.
  destruct (trimStart (rev (a :: u))) as [| x v]; [congruence |].
  apply (f_equal (@rev cu)) in Hw.
  rewrite rev_involutive, rev_app_distr in Hw.
  destruct (rev (x :: v)) as [| b t] eqn:E.
  - apply (f_equal (@rev cu)) in E. rewrite rev_involutive in E.
    discriminate.
  - cbn [app] in Hw. injection Hw as <- _.
    exists a, t. split; [reflexivity |]. split; [assumption |].
    unfold ends_with_text. rewrite <- E, rev_involutive.
    now rewrite Hlast.
Qed.

Lemma trim_trim (s : jsstring) : trim (trim s) = trim s.
Proof.
  destruct (trim_cases s) as [-> | [a [t [-> [Ha Ht]]]]]; [reflexivity |].
  now apply trim_text.
Qed.

(** The frontmatter pattern needs the three hyphens and the line feed at
    the start of the text. *)
Lemma exec_headRegexp_none (s : jsstring) :
  starts_with (hyphens 3 ++ nl) s = false -> exec headRegexp s = None.
Proof.
  intros H.
  change headRegexp
    with (Seq Bol
           (Seq (Grp 1 (Seq (Seq (Chr 45) (Seq (Chr 45) (Chr 45)))
                            (Seq (Chr 10)
                                 (Seq (lazy_star (Cls is_any)) (lit "---")))))
                (star (Chr 10)))).
  change (hyphens 3 ++ nl) with [45%N; 45%N; 45%N; 10%N] in H.
  rewrite exec_anchored, m_Seq, m_Grp, !m_Seq.
  destruct s as [| c1 s]; [reflexivity |]. rewrite m_Chr_cons.
  cbn [starts_with] in H. unfold cu_eqb in *. rewrite (N.eqb_sym 45 c1) in H.
  destruct (c1 =? 45)%N; [| reflexivity]. cbn [andb] in H.
  rewrite m_Seq.
  destruct s as [| c2 s]; [reflexivity |]. rewrite m_Chr_cons.
  cbn [starts_with] in H. unfold cu_eqb in *. rewrite (N.eqb_sym 45 c2) in H.
  destruct (c2 =? 45)%N; [| reflexivity]. cbn [andb] in H.
  destruct s as [| c3 s]; [reflexivity |]. rewrite m_Chr_cons.
  cbn [starts_with] in H. unfold cu_eqb in *. rewrite (N.eqb_sym 45 c3) in H.
  destruct (c3 =? 45)%N; [| reflexivity]. cbn [andb] in H.
  rewrite m_Seq.
  destruct s as [| c4 s]; [reflexivity |]. rewrite m_Chr_cons.
  cbn [starts_with] in H. unfold cu_eqb in *. rewrite (N.eqb_sym 10 c4) in H.
  destruct (c4 =? 10)%N; [discriminate | reflexivity].
Qed.

(** X12: a document whose trimmed text does not start with a line of
    three hyphens has no frontmatter: [split] gives an empty head and the
    trimmed text as the body, and [parse] returns the blocks of the
    trimmed text, or throws what [parseBlocks] throws on it. *)
Theorem parse_without_frontmatter (input : jsstring) :
  starts_with (hyphens 3 ++ nl) (trim input) = false ->
  split input = ([], trim input)
  /\ parse input
     = (blocks <- parseBlocks (trim input) ;; Ok (MkDocument [] blocks)).
Proof.
  intros H.
  assert (Hsplit : split input = ([], trim input)).
  { unfold split. rewrite (exec_headRegexp_none _ H).
    cbn [cap1_of or_empty length]. rewrite slice1_of_nat. cbn [skipn].
    now rewrite trim_trim. }
  split; [exact Hsplit |].
  unfold parse. now rewrite Hsplit.
Qed.

Lemma parse_without_frontmatter_witness :
  split (str " # a ") = ([], trim (str " # a "))
  /\ parse (str " # a ")
     = (blocks <- parseBlocks (trim (str " # a ")) ;;
        Ok (MkDocument [] blocks)).
Proof. apply (parse_without_frontmatter (str " # a ")). reflexivity. Defined.
(* ================================================================== *)
(** * Greedy runs that give characters back *)
(* ================================================================== *)

(** A greedy run without an upper bound takes all the characters it can
    and gives back as few as the continuation needs: it stops after [w1]
    when the continuation succeeds there and fails after every longer
    part of the run [w1 ++ w2]. *)
Lemma greedy_backtrack (p : cu -> bool)
  (mb : cont -> mstate -> option mstate) (k : cont) (z : mstate)
  (w2 rest' : jsstring) (caps : list (nat * jsstring)) :
  char_matcher p mb ->
  forallb p w2 = true ->
  stops p rest' = true ->
  forall w1 n min pos,
    forallb p w1 = true ->
    min <= length w1 ->
    (forall j, 1 <= j <= length w2 ->
               k (MState (pos + length w1 + j) (skipn j w2 ++ rest') caps)
               = None) ->
    min + length (w1 ++ w2 ++ rest') < n ->
    k (MState (pos + length w1) (w2 ++ rest') caps) = Some z ->
    repeat mb [] true k n min None (MState pos (w1 ++ w2 ++ rest') caps)
    = Some z.
Proof.
  intros Hmb Hw2 Hstop.
  induction w1 as [| c w1 IH]; intros n min pos Hw1 Hmin Hfail Hn Hk;
    (destruct n as [| n]; [lia |]); rewrite repeat_S; cbv zeta;
    rewrite clear_caps_nil; cbn [is_zero].
  - simpl in Hmin, Hk. assert (min = 0) by lia. subst min.
    rewrite Nat.add_0_r in Hk. cbn [app Nat.eqb negb pred option_map].
    rewrite Hk.
    destruct w2 as [| c w2].
    + destruct Hmb as [Hcons Hnil]. cbn [app].
      destruct rest' as [| c t]; [now rewrite Hnil |].
      simpl in Hstop. apply negb_true_iff in Hstop.
      now rewrite Hcons, Hstop.
    + simpl in Hw2. apply andb_prop in Hw2 as [Hc Hw2].
      pose proof Hmb as [Hcons Hnil].
      cbn [app]. rewrite Hcons, Hc. cbn [m_pos].
      rewrite succ_neqb, andb_false_r.
      rewrite (@run_fails p mb true k rest' caps Hmb w2 n 0 None (S pos));
        [reflexivity | assumption | now right |].
      intros j Hj. specialize (Hfail (S j) ltac:(simpl; lia)).
      cbn [skipn length] in Hfail.
      now replace (S pos + j) with (pos + 0 + S j) by lia.
  - simpl in Hw1. apply andb_prop in Hw1 as [Hc Hw1]. simpl in Hmin, Hk.
    assert (Hrec : repeat mb [] true k n (pred min) None
                     (MState (S pos) (w1 ++ w2 ++ rest') caps) = Some z).
    { apply IH; try assumption.
      - lia.
      - intros j Hj. specialize (Hfail j Hj). cbn [length] in Hfail.
        now replace (S pos + length w1 + j)
          with (pos + S (length w1) + j) by lia.
      - simpl in Hn. lia.
      - now replace (S pos + length w1) with (pos + S (length w1)) by lia. }
    destruct Hmb as [Hcons Hnil].
    cbn [app option_map]. rewrite Hcons, Hc. cbn [m_pos].
    rewrite succ_neqb, andb_false_r, Hrec.
    now destruct (negb (min =? 0)).
Qed.
(* ================================================================== *)
(** * Images *)
(* ================================================================== *)

Lemma m_Chr_stops (c : cu) (k : cont) (pos : nat) (s : jsstring)
  (caps : list (nat * jsstring)) :
  stops (fun x => cu_eqb x c) s = true ->
  m (Chr c) k (MState pos s caps) = None.
Proof.
  destruct s as [| a s]; [reflexivity |]. simpl. intros H.
  apply negb_true_iff in H. now rewrite H.
Qed.

Lemma no_char_skipn (c : cu) (w rest : jsstring) (j : nat) :
  no_char c w = true -> j < length w ->
  stops (fun x => cu_eqb x c) (skipn j w ++ rest) = true.
Proof.
  revert j. induction w as [| a w IH]; intros j Hw Hj; [simpl in Hj; lia |].
  simpl in Hw. apply andb_prop in Hw as [Ha Hw].
  destruct j as [| j]; [exact Ha |].
  cbn [skipn]. apply IH; [assumption | simpl in Hj; lia].
Qed.

Lemma no_char_stops (c : cu) (w rest : jsstring) (j : nat) :
  no_char c w = true -> stops (fun x => cu_eqb x c) rest = true ->
  stops (fun x => cu_eqb x c) (skipn j w ++ rest) = true.
Proof.
  intros Hw Hrest. destruct (Nat.lt_ge_cases j (length w)) as [H | H].
  - now apply no_char_skipn.
  - now rewrite skipn_all2.
Qed.

(** What is no content of a line is no given printable character. *)
Lemma stops_dot_char (c : cu) (s : jsstring) :
  is_dot c = true -> stops is_dot s = true ->
  stops (fun x => cu_eqb x c) s = true.
Proof.
  intros Hc. destruct s as [| a s]; [reflexivity |]. simpl. intros H.
  apply negb_true_iff in H. apply negb_true_iff.
  unfold cu_eqb. destruct (N.eqb_spec a c) as [-> |]; congruence.
Qed.

(** The image pattern on an image line: the alternative text, the url
    and what follows the closing parenthesis. *)
Lemma exec_imageRegexp (alt url note tail : jsstring) :
  line_content alt = true ->
  line_content url = true -> url <> [] ->
  no_char 41 url = true -> no_char 93 url = true ->
  line_content note = true -> no_char 93 note = true ->
  stops is_dot tail = true ->
  exec imageRegexp
       (33%N :: 91%N :: alt ++ 93%N :: 40%N :: url ++ 41%N :: note ++ tail)
  = Some (MkMatch 0
            (33%N :: 91%N :: alt ++ 93%N :: 40%N :: url ++ 41%N :: note)
            [(3, note); (2, url); (1, alt)]).
Proof.
  intros Halt Hurl Hne Hparen Hbr Hnote Hbr' Htail.
  change imageRegexp
    with (Seq Bol (Seq (Chr 33) (Seq (Chr 91)
            (Seq (Grp 1 (Rep true 0 None (Cls is_dot)))
              (Seq (Chr 93) (Seq (Chr 40)
                (Seq (Grp 2 (Rep false 1 None (Cls is_dot)))
                  (Seq (Chr 41)
                       (Grp 3 (Rep true 0 None (Cls is_dot))))))))))).
  rewrite exec_anchored.
  rewrite m_Seq, m_Chr_cons. change (cu_eqb 33 33) with true. cbv beta iota.
  rewrite m_Seq, m_Chr_cons. change (cu_eqb 91 91) with true. cbv beta iota.
  rewrite m_Seq, m_Grp, m_Rep. cbn [groups m_pos m_rest app].
  set (w2 := 93%N :: 40%N :: url ++ 41%N :: note).
  set (z := MState (2 + length alt + length w2) tail
                   [(3, note); (2, url); (1, alt)]).
  assert (Hin : alt ++ 93%N :: 40%N :: url ++ 41%N :: note ++ tail
                = alt ++ w2 ++ tail).
  { unfold w2. cbn [app]. now rewrite <- app_assoc. }
  rewrite Hin.
  rewrite (greedy_backtrack is_dot _ _ z w2 tail []
             (char_matcher_Cls is_dot)).
  - unfold z. cbn [m_pos m_caps]. f_equal. f_equal.
    change (33%N :: 91%N :: alt ++ w2 ++ tail)
      with ((33%N :: 91%N :: alt) ++ w2 ++ tail).
    rewrite app_assoc.
    replace (2 + length alt + length w2)
      with (length ((33%N :: 91%N :: alt) ++ w2))
      by (rewrite length_app;
          change (length (33%N :: 91%N :: alt)) with (S (S (length alt)));
          lia).
    now apply (@firstn_prefix cu _ _ tail).
  - unfold w2. cbn [forallb]. rewrite forallb_app. cbn [forallb].
    unfold line_content in *. now rewrite Hurl, Hnote.
  - assumption.
  - assumption.
  - lia.
  - intros j Hj. unfold set_cap. cbn [m_pos m_rest m_caps].
    rewrite m_Seq. apply m_Chr_stops.
    destruct j as [| j]; [lia |]. unfold w2. cbn [skipn].
    apply no_char_stops.
    + unfold no_char in *. cbn [forallb]. rewrite forallb_app. cbn [forallb].
      now rewrite Hbr, Hbr'.
    + now apply stops_dot_char.
  - apply Nat.lt_succ_diag_r.
  - unfold set_cap. cbn [m_pos m_rest m_caps].
    replace (2 + length alt - 2) with (length alt) by lia.
    rewrite (@firstn_prefix cu _ alt (w2 ++ tail) eq_refl).
    unfold w2. cbn [app].
    rewrite m_Seq, m_Chr_cons. change (cu_eqb 93 93) with true.
    cbv beta iota.
    rewrite m_Seq, m_Chr_cons. change (cu_eqb 40 40) with true.
    cbv beta iota.
    rewrite m_Seq, m_Grp, m_Rep. cbn [groups m_pos m_rest].
    rewrite <- app_assoc. cbn [app].
    apply (lazy_run is_dot _ _ _ (41%N :: note ++ tail) [(1, alt)]
             (char_matcher_Cls is_dot)).
    + assumption.
    + destruct url; [congruence | simpl; lia].
    + intros j Hj. unfold set_cap. cbn [m_pos m_rest m_caps].
      rewrite m_Seq. apply m_Chr_stops.
      apply no_char_skipn; [assumption | lia].
    + apply Nat.lt_succ_diag_r.
    + unfold set_cap. cbn [m_pos m_rest m_caps].
      replace (S (S (2 + length alt)) + length url - S (S (2 + length alt)))
        with (length url) by lia.
      rewrite (@firstn_prefix _ _ url _ eq_refl).
      rewrite m_Seq, m_Chr_cons. change (cu_eqb 41 41) with true.
      cbv beta iota.
      rewrite m_Grp, m_Rep. cbn [groups m_pos m_rest].
      rewrite (@greedy_run is_dot _ _ z tail [(2, url); (1, alt)]
                 (char_matcher_Cls is_dot)); try reflexivity;
        try assumption; try lia; try apply Nat.lt_succ_diag_r.
      unfold set_cap, accept, z. cbn [m_pos m_rest m_caps].
      replace (S (S (S (2 + length alt)) + length url) + length note
               - S (S (S (2 + length alt)) + length url))
        with (length note) by lia.
      rewrite (@firstn_prefix _ _ note _ eq_refl).
      do 2 f_equal. unfold w2. cbn [length]. rewrite length_app.
      cbn [length]. lia.
Qed.

(** X13: an image line is an exclamation mark, the alternative text in
    square brackets and the url in parentheses.  The alternative text is
    the longest one the line allows, the url ends at the first closing
    parenthesis, and what follows it on the line is the caption, without
    the parentheses around it if there are some; [parseBlocks] goes on
    with the next line. *)
Theorem image_of_line (alt url note tail : jsstring) :
  line_content alt = true ->
  line_content url = true -> url <> [] ->
  no_char 41 url = true -> no_char 93 url = true ->
  line_content note = true -> no_char 93 note = true ->
  ends_with_text (str ")" ++ note) = true ->
  stops is_dot tail = true ->
  parseImageBlock (str "![" ++ alt ++ str "](" ++ url ++ str ")" ++ note)
  = Ok (ImageBlock url alt (replace note captionRegexp dollar1))
  /\ parseBlocks (str "![" ++ alt ++ str "](" ++ url ++ str ")" ++ note ++ tail)
     = (bs <- parseBlocks (trim tail) ;;
        Ok (ImageBlock url alt (replace note captionRegexp dollar1) :: bs)).
Proof.
  intros Halt Hurl Hne Hparen Hbr Hnote Hbr' Hend Htail.
  change (str "![" ++ alt ++ str "](" ++ url ++ str ")" ++ note)
    with (33%N :: 91%N :: alt ++ 93%N :: 40%N :: url ++ 41%N :: note).
  change (str "![" ++ alt ++ str "](" ++ url ++ str ")" ++ note ++ tail)
    with (33%N :: 91%N :: alt ++ 93%N :: 40%N :: url ++ 41%N :: note ++ tail).
  pose proof (exec_imageRegexp alt url note [] Halt Hurl Hne Hparen Hbr Hnote
                Hbr' eq_refl) as Hex0.
  rewrite app_nil_r in Hex0.
  pose proof (exec_imageRegexp alt url note tail Halt Hurl Hne Hparen Hbr Hnote
                Hbr' Htail) as Hex.
  set (line := 33%N :: 91%N :: alt ++ 93%N :: 40%N :: url ++ 41%N :: note)
    in *.
  assert (E : 33%N :: 91%N :: alt ++ 93%N :: 40%N :: url ++ 41%N :: note ++ tail
              = line ++ tail).
  { unfold line. cbn [app]. do 2 f_equal. rewrite <- app_assoc.
    cbn [app]. do 3 f_equal. now rewrite <- app_assoc. }
  rewrite E in *.
  assert (Hbuild : parseImageBlock line
                   = Ok (ImageBlock url alt
                           (replace note captionRegexp dollar1))).
  { unfold parseImageBlock. rewrite Hex0. reflexivity. }
  split; [exact Hbuild |].
  assert (Hcons : line = 33%N :: skipn 1 line) by reflexivity.
  assert (Htrim : trim line = line).
  { rewrite Hcons. apply trim_text; [reflexivity |].
    change (ends_with_text line = true). unfold line.
    change (33%N :: 91%N :: alt ++ 93%N :: 40%N :: url ++ 41%N :: note)
      with ((33%N :: 91%N :: alt) ++ (93%N :: 40%N :: url) ++ 41%N :: note).
    rewrite app_assoc. now apply ends_with_text_app. }
  rewrite parseBlocks_eq.
  replace (jsstring_eqb (trim (line ++ tail)) []) with false
    by (rewrite Hcons; symmetry; now apply trim_not_blank).
  unfold regexpToParserPairs.
  rewrite firstMatch_skip
    by (rewrite Hcons; now apply test_headingRegexp_first).
  rewrite firstMatch_skip
    by (rewrite Hcons; now apply test_quoteRegexp_first).
  rewrite firstMatch_skip
    by (rewrite Hcons; now apply test_listRegexp_first).
  rewrite (firstMatch_hit _ _ _ _ _ _ Hex). cbn [match0].
  rewrite Htrim, Hbuild. cbn [bind].
  now rewrite slice1_of_nat, skipn_exact.
Qed.

Lemma image_of_line_witness :
  parseImageBlock (str "![" ++ str "a]b" ++ str "](" ++ str "u.png" ++ str ")"
                   ++ str "(c)")
  = Ok (ImageBlock (str "u.png") (str "a]b")
          (replace (str "(c)") captionRegexp dollar1))
  /\ parseBlocks (str "![" ++ str "a]b" ++ str "](" ++ str "u.png" ++ str ")"
                  ++ str "(c)" ++ nl ++ str "x")
     = (bs <- parseBlocks (trim (nl ++ str "x")) ;;
        Ok (ImageBlock (str "u.png") (str "a]b")
              (replace (str "(c)") captionRegexp dollar1) :: bs)).
Proof.
  apply (image_of_line (str "a]b") (str "u.png") (str "(c)") (nl ++ str "x"));
    try reflexivity.
  discriminate.
Defined.

(** X14: the caption of an image is what follows the url without the
    parentheses around it; a text that does not start with a parenthesis
    is the caption as it is. *)
Theorem image_caption (text note : jsstring) :
  text <> [] -> line_content text = true ->
  stops (fun x => cu_eqb x 40) note = true ->
  replace (str "(" ++ text ++ str ")") captionRegexp dollar1 = text
  /\ replace note captionRegexp dollar1 = note.
Proof.
  intros Hne Htext Hnote.
  change captionRegexp
    with (Seq Bol (Seq (Chr 40)
            (Seq (Grp 1 (Rep true 1 None (Cls is_dot))) (Seq (Chr 41) Eol)))).
  split.
  - unfold replace.
    change (str "(" ++ text ++ str ")") with (40%N :: text ++ [41%N]).
    rewrite exec_anchored, m_Seq, m_Chr_cons.
    change (cu_eqb 40 40) with true. cbv beta iota.
    rewrite m_Seq, m_Grp, m_Rep. cbn [groups m_pos m_rest].
    replace (text ++ [41%N]) with (text ++ [41%N] ++ [])
      by now rewrite app_nil_r.
    rewrite (greedy_backtrack is_dot _ _
               (MState (S (S (length text))) [] [(1, text)]) [41%N] [] []
               (char_matcher_Cls is_dot)); try reflexivity; try assumption.
    + cbn [index match0 m_pos m_caps dollar1 cap captures lookup_cap
           Nat.eqb or_empty app Nat.add].
      replace (S (S (length text))) with (length (40%N :: text ++ [41%N]))
        by (cbn [length]; rewrite length_app; simpl; lia).
      rewrite firstn_O, firstn_all, skipn_all. apply app_nil_r.
    + destruct text; [congruence | simpl; lia].
    + intros j Hj. cbn [length] in Hj. assert (j = 1) by lia. subst j.
      unfold set_cap. cbn [skipn app m_pos m_rest m_caps].
      now rewrite m_Seq, m_Chr_nil.
    + apply Nat.lt_succ_diag_r.
    + unfold set_cap. cbn [m_pos m_rest m_caps app].
      replace (1 + length text - 1) with (length text) by lia.
      rewrite (@firstn_prefix _ _ text _ eq_refl).
      rewrite m_Seq, m_Chr_cons. change (cu_eqb 41 41) with true.
      cbv beta iota. rewrite m_Eol. cbn [m_rest]. unfold accept.
      reflexivity.
  - unfold replace.
    rewrite exec_anchored, m_Seq, m_Chr_stops by assumption. reflexivity.
Qed.

Lemma image_caption_witness :
  replace (str "(" ++ str "a (b)" ++ str ")") captionRegexp dollar1
  = str "a (b)"
  /\ replace (str "c") captionRegexp dollar1 = str "c".
Proof.
  apply (image_caption (str "a (b)") (str "c"));
    [discriminate | reflexivity | reflexivity].
Defined.
(* ================================================================== *)
(** * Lists *)
(* ================================================================== *)

(** After the marker of an item: the space, the content and the line
    feed, if there is one. *)
Lemma item_content (k : cont) (z : mstate) (c rest : jsstring) (pos : nat) :
  c <> [] -> line_content c = true -> stops not_lf rest = true ->
  k (MState (S pos + length c + length (firstn 1 rest)) (skipn 1 rest)
            [(1, c)]) = Some z ->
  m (Seq ws (Seq (Grp 1 (plus dot)) (opt (Chr 10)))) k
    (MState pos (32%N :: c ++ rest) []) = Some z.
Proof.
  intros Hne Hc Hrest Hk.
  unfold ws. rewrite m_Seq, m_Cls_cons. change (is_space 32) with true.
  cbv beta iota.
  rewrite m_Seq, m_Grp. unfold plus, dot. rewrite m_Rep.
  cbn [groups m_pos m_rest].
  assert (Hstop : stops is_dot rest = true).
  { destruct rest as [| a rest]; [reflexivity |].
    unfold stops, not_lf in Hrest. rewrite negb_involutive in Hrest.
    apply N.eqb_eq in Hrest. now subst a. }
  rewrite (@greedy_run is_dot _ _ z rest [] (char_matcher_Cls is_dot));
    try reflexivity; try assumption.
  - destruct c; [congruence | simpl; lia].
  - apply Nat.lt_succ_diag_r.
  - unfold set_cap. cbn [m_pos m_rest m_caps].
    replace (S pos + length c - S pos) with (length c) by lia.
    rewrite (@firstn_prefix _ _ c _ eq_refl).
    destruct rest as [| a rest].
    + cbn [firstn skipn length] in Hk. rewrite Nat.add_0_r in Hk.
      unfold opt. now rewrite opt_nl_nil.
    + unfold stops, not_lf in Hrest. rewrite negb_involutive in Hrest.
      apply N.eqb_eq in Hrest. subst a.
      apply opt_nl_cons. cbn [firstn skipn length] in Hk.
      now replace (S (S pos + length c)) with (S pos + length c + 1) by lia.
Qed.

(** One item of a list: the marker, a space, the content and the line
    feed after it, if there is one. *)
Lemma listItem_line (k : cont) (z : mstate) (it : ItemMark * jsstring)
  (rest : jsstring) (pos : nat) :
  item_ok it = true -> stops not_lf rest = true ->
  k (MState (pos + length (item_line it) + length (firstn 1 rest))
            (skipn 1 rest) [(1, snd it)]) = Some z ->
  m listItem k (MState pos (item_line it ++ rest) []) = Some z.
Proof.
  destruct it as [mk c]. unfold item_ok, item_line. cbn [fst snd].
  intros Hok Hrest Hk.
  apply andb_prop in Hok as [Hok Hc]. apply andb_prop in Hok as [Hmk Hne].
  assert (Hne' : c <> []) by (intros ->; discriminate).
  change listItem
    with (Seq (Alt (Chr 45) (Seq (Rep true 1 None (Cls is_digit)) (Chr 46)))
              (Seq ws (Seq (Grp 1 (plus dot)) (opt (Chr 10))))).
  rewrite m_Seq, m_Alt.
  destruct mk as [| d].
  - change ((mark_str Bullet ++ str " " ++ c) ++ rest)
      with (45%N :: 32%N :: c ++ rest).
    rewrite m_Chr_cons. change (cu_eqb 45 45) with true. cbv beta iota.
    rewrite (item_content k z c rest (S pos) Hne' Hc Hrest); [reflexivity |].
    cbn [mark_str str length app] in Hk. rewrite length_app in Hk.
    cbn [length] in Hk.
    now replace (S (S pos) + length c) with (pos + S (S (length c))) by lia.
  - cbn [mark_ok] in Hmk. apply andb_prop in Hmk as [Hd Hdig].
    destruct d as [| a d]; [discriminate |].
    cbn [forallb] in Hdig. pose proof Hdig as Hdig'.
    apply andb_prop in Hdig' as [Ha _].
    assert (Ha' : cu_eqb a 45 = false).
    { unfold is_digit in Ha. apply andb_prop in Ha as [Ha _].
      apply N.leb_le in Ha. apply N.eqb_neq. lia. }
    cbn [mark_str]. change (str ".") with [46%N].
    change (str " ") with [32%N]. rewrite <- !app_assoc. cbn [app].
    rewrite m_Chr_cons, Ha'.
    rewrite m_Seq, m_Rep. cbn [groups m_pos m_rest].
    change (a :: d ++ 46%N :: 32%N :: c ++ rest)
      with ((a :: d) ++ 46%N :: 32%N :: c ++ rest).
    rewrite (@greedy_run is_digit _ _ z (46%N :: 32%N :: c ++ rest) []
               (char_matcher_Cls is_digit)); try reflexivity;
      try assumption.
    + simpl. lia.
    + apply Nat.lt_succ_diag_r.
    + rewrite m_Chr_cons. change (cu_eqb 46 46) with true. cbv beta iota.
      apply item_content; try assumption.
      cbn [mark_str] in Hk. rewrite !length_app in Hk.
      change (length (str ".")) with 1 in Hk.
      change (length (str " ")) with 1 in Hk.

      now replace (S (S (pos + length (a :: d))) + length c)
        with (pos + (length (a :: d) + 1 + (1 + length c))) by lia.
Qed.

(** No item where the text does not start with a hyphen or a digit. *)
Lemma listItem_none (k : cont) (rest : jsstring) (pos : nat)
  (caps : list (nat * jsstring)) :
  stops opens_item rest = true ->
  m listItem k (MState pos rest caps) = None.
Proof.
  intros H.
  change listItem
    with (Seq (Alt (Chr 45) (Seq (Rep true 1 None (Cls is_digit)) (Chr 46)))
              (Seq ws (Seq (Grp 1 (plus dot)) (opt (Chr 10))))).
  rewrite m_Seq, m_Alt, m_Seq, m_Rep, repeat_S.
  cbn [is_zero Nat.eqb negb]. cbv zeta. rewrite clear_caps_nil.
  destruct rest as [| a rest]; [reflexivity |].
  unfold stops, opens_item in H. apply negb_true_iff in H.
  apply orb_false_elim in H as [H1 H2].
  now rewrite m_Chr_cons, H1, m_Cls_cons, H2.
Qed.

(** The loop of [listRegexp] after its last item. *)
Lemma list_loop_end (n pos : nat) (rest : jsstring)
  (caps : list (nat * jsstring)) :
  stops opens_item rest = true ->
  repeat (fun k' y => m listItem k' y) [1] true accept (S n) 0 None
         (MState pos rest caps)
  = Some (MState pos rest caps).
Proof.
  intros H. rewrite repeat_S. cbn [is_zero negb Nat.eqb]. cbv zeta.
  unfold clear_caps. cbn [m_pos m_rest m_caps].
  now rewrite listItem_none.
Qed.

(** One more turn of the loop. *)
Lemma list_loop_step (n min pos : nat) (rest : jsstring) (z : mstate)
  (caps : list (nat * jsstring)) :
  min <= 1 ->
  clear_caps [1] (MState pos rest caps) = MState pos rest [] ->
  m listItem
    (fun y => if (min =? 0) && (m_pos y =? pos) then None
              else repeat (fun k' y0 => m listItem k' y0) [1] true accept n
                          0 None y)
    (MState pos rest []) = Some z ->
  repeat (fun k' y => m listItem k' y) [1] true accept (S n) min None
         (MState pos rest caps) = Some z.
Proof.
  intros Hmin Hcaps H. rewrite repeat_S. cbn [is_zero]. cbv zeta.
  rewrite Hcaps. cbn [m_pos option_map].
  destruct min as [| [| min]]; [| | lia]; cbn [Nat.eqb negb pred andb];
    cbn [Nat.eqb negb pred andb] in H.
  - now rewrite H.
  - exact H.
Qed.

Lemma after_list_inv (tail : jsstring) :
  after_list tail = true ->
  stops not_lf tail = true /\ stops opens_item (skipn 1 tail) = true.
Proof.
  destruct tail as [| c rest]; [now split |]. simpl. intros H.
  apply andb_prop in H as [Hc Hr]. unfold not_lf. now rewrite Hc.
Qed.

Lemma length_item_line (it : ItemMark * jsstring) :
  2 <= length (item_line it).
Proof.
  destruct it as [[| d] c]; unfold item_line; cbn [fst snd mark_str].
  - simpl. lia.
  - rewrite !length_app. simpl. lia.
Qed.

Lemma item_pos_neqb (pos d e : nat) :
  2 <= d -> (pos + d + e =? pos) = false.
Proof. intros H. apply Nat.eqb_neq. lia. Qed.

(** The loop of [listRegexp] over the lines of a list: it takes every
    line and the line feed after the last one, and keeps the content of
    the last item. *)
Lemma list_loop (its : list (ItemMark * jsstring)) :
  forall it1 n min pos tail caps0,
    forallb item_ok (it1 :: its) = true ->
    after_list tail = true ->
    min <= 1 ->
    (forall p r, clear_caps [1] (MState p r caps0) = MState p r []) ->
    length (join_lines (map item_line (it1 :: its)) ++ tail) < n ->
    repeat (fun k' y => m listItem k' y) [1] true accept n min None
           (MState pos (join_lines (map item_line (it1 :: its)) ++ tail)
                   caps0)
    = Some (MState (pos + length (join_lines (map item_line (it1 :: its))
                                  ++ firstn 1 tail))
                   (skipn 1 tail) [(1, snd (last its it1))]).
Proof.
  induction its as [| it2 its IH];
    intros it1 n min pos tail caps0 Hok Htail Hmin Hcaps Hn;
    (destruct n as [| n]; [lia |]); apply list_loop_step; try assumption;
    try apply Hcaps;
    cbn [forallb] in Hok; apply andb_prop in Hok as [Hok1 Hok].
  - cbn [map join_lines last].
    destruct (after_list_inv _ Htail) as [Hlf Hrest].
    apply listItem_line; try assumption.
    cbv beta. cbn [m_pos].
    rewrite andb_comm, item_pos_neqb by apply length_item_line.
    cbn [andb].
    destruct n as [| n].
    { cbn [map join_lines] in Hn. rewrite length_app in Hn.
      pose proof (length_item_line it1). lia. }
    rewrite list_loop_end by assumption.
    rewrite length_app. do 2 f_equal. lia.
  - change (join_lines (map item_line (it1 :: it2 :: its)))
      with (item_line it1 ++ nl ++ join_lines (map item_line (it2 :: its)))
      in *.
    rewrite <- !app_assoc.
    change (nl ++ join_lines (map item_line (it2 :: its)) ++ tail)
      with (10%N :: join_lines (map item_line (it2 :: its)) ++ tail).
    apply listItem_line; [assumption | reflexivity |].
    cbv beta. cbn [m_pos].
    rewrite firstn_cons, firstn_O, skipn_cons, skipn_O.
    change (length [10%N]) with 1.
    rewrite andb_comm, item_pos_neqb by apply length_item_line.
    cbn [andb].
    rewrite (IH it2 n 0 _ tail [(1, snd it1)]); try assumption;
      try reflexivity; try lia.
    + f_equal. f_equal.
      * rewrite !length_app. change (length nl) with 1. lia.
      * now rewrite last_cons.
    + rewrite !length_app in Hn. change (length nl) with 1 in Hn.
      rewrite length_app. lia.
Qed.

(** The list rule on the lines of a list: the match is the lines and the
    line feed after them; the group holds the content of the last
    item. *)
Lemma exec_listRegexp (it1 : ItemMark * jsstring)
  (its : list (ItemMark * jsstring)) (tail : jsstring) :
  forallb item_ok (it1 :: its) = true ->
  after_list tail = true ->
  exec listRegexp (join_lines (map item_line (it1 :: its)) ++ tail)
  = Some (MkMatch 0 (join_lines (map item_line (it1 :: its)) ++ firstn 1 tail)
                  [(1, snd (last its it1))]).
Proof.
  intros Hok Htail.
  change listRegexp with (Seq Bol (Rep true 1 None listItem)).
  rewrite exec_anchored, m_Rep.
  change (groups listItem) with [1].
  cbn [m_rest].
  rewrite list_loop; try assumption; try reflexivity; try lia.
  cbn [m_pos m_caps Nat.add]. f_equal. f_equal.
  apply (@firstn_prefix _ _ _ (skipn 1 tail)).
  rewrite <- app_assoc. now rewrite firstn_skipn.
Qed.

(** ** Splitting a text into its lines *)

Lemma newlines_none (q : nat) (s : jsstring) :
  stops (fun x => cu_eqb x 10) s = true ->
  m newlinesRegexp accept (MState q s []) = None.
Proof.
  intros H. unfold newlinesRegexp, plus.
  rewrite m_Rep, repeat_S. cbn [is_zero Nat.eqb negb groups]. cbv zeta.
  rewrite clear_caps_nil. now apply m_Chr_stops.
Qed.

Lemma newlines_one (q : nat) (t : jsstring) :
  stops (fun x => cu_eqb x 10) t = true ->
  m newlinesRegexp accept (MState q (10%N :: t) []) = Some (MState (S q) t []).
Proof.
  intros H. unfold newlinesRegexp, plus.
  rewrite m_Rep. cbn [groups m_rest].
  change (10%N :: t) with ([10%N] ++ t).
  rewrite (@greedy_run (fun x => cu_eqb x 10) _ _ (MState (S q) t []) t []
             (char_matcher_Chr 10%N)); try reflexivity; try assumption.
  - simpl. lia.
  - unfold accept. simpl. do 2 f_equal. lia.
Qed.

Lemma line_ok_stops (l rest : jsstring) :
  line_ok l = true -> stops (fun x => cu_eqb x 10) (l ++ rest) = true.
Proof.
  unfold line_ok. intros H. apply andb_prop in H as [Hne H].
  destruct l as [| c l]; [discriminate |].
  simpl in H. apply andb_prop in H as [Hc _]. exact Hc.
Qed.

Lemma skipn_cons_inv {A : Type} (s : list A) (q : nat) (c : A) (t : list A) :
  skipn q s = c :: t -> q < length s /\ skipn (S q) s = t.
Proof.
  intros H. split.
  - destruct (Nat.lt_ge_cases q (length s)) as [Hq | Hq]; [assumption |].
    rewrite skipn_all2 in H by assumption. discriminate.
  - change (S q) with (1 + q). rewrite <- skipn_skipn, H. reflexivity.
Qed.

(** Inside a line no separator is found. *)
Lemma split_scan (w2 : jsstring) :
  forall n s p q rest',
    skipn q s = w2 ++ rest' ->
    forallb not_lf w2 = true ->
    split_loop (length w2 + n) newlinesRegexp s p q
    = split_loop n newlinesRegexp s p (q + length w2).
Proof.
  induction w2 as [| c w2 IH]; intros n s p q rest' Hs Hw.
  - cbn [length Nat.add]. now rewrite Nat.add_0_r.
  - cbn [forallb] in Hw. apply andb_prop in Hw as [Hc Hw].
    cbn [app] in Hs. destruct (skipn_cons_inv _ _ _ _ Hs) as [Hq Hs'].
    cbn [length Nat.add split_loop].
    apply Nat.ltb_lt in Hq. rewrite Hq, Hs.
    rewrite newlines_none by exact Hc.
    rewrite (IH n s p (S q) rest' Hs' Hw). f_equal. lia.
Qed.

Lemma skipn_after {A : Type} (s l x : list A) (p : nat) :
  skipn p s = l ++ x -> skipn (p + length l) s = x.
Proof.
  intros H. rewrite Nat.add_comm, <- skipn_skipn, H. apply skipn_exact.
Qed.

Lemma skipn_length_eq {A : Type} (s l : list A) (p : nat) :
  l <> [] -> skipn p s = l -> length s = p + length l.
Proof.
  intros Hne H.
  assert (Hp : p < length s).
  { destruct (Nat.lt_ge_cases p (length s)) as [Hp | Hp]; [assumption |].
    rewrite skipn_all2 in H by assumption. congruence. }
  rewrite <- H, length_skipn. lia.
Qed.

(** [split] at line feeds gives back the lines that were joined. *)
Lemma split_lines (ls : list jsstring) :
  forall l1 n s p,
    skipn p s = l1 ++ concat (map (fun y => nl ++ y) ls) ->
    forallb line_ok (l1 :: ls) = true ->
    length (l1 ++ concat (map (fun y => nl ++ y) ls)) < n ->
    split_loop n newlinesRegexp s p p = l1 :: ls.
Proof.
  induction ls as [| l2 ls IH]; intros l1 n s p Hs Hok Hn;
    cbn [forallb] in Hok; apply andb_prop in Hok as [Hl1 Hok];
    pose proof Hl1 as Hl1'; unfold line_ok in Hl1';
    apply andb_prop in Hl1' as [Hne1 Hlf1];
    rewrite length_app in Hn;
    replace n with (length l1 + S (n - length l1 - 1)) by lia;
    rewrite (split_scan l1 _ s p p _ Hs Hlf1);
    pose proof (skipn_after _ _ _ _ Hs) as Hq;
    cbn [split_loop].
  - cbn [map concat] in *. rewrite app_nil_r in Hs.
    assert (Hlen : length s = p + length l1).
    { apply skipn_length_eq; [| assumption]. intros ->. discriminate. }
    rewrite Hlen, Nat.ltb_irrefl. now rewrite Hs.
  - cbn [forallb] in Hok. apply andb_prop in Hok as [Hl2 Hok].
    cbn [map concat] in Hq, Hn.
    change ((nl ++ l2) ++ concat (map (fun y => nl ++ y) ls))
      with (10%N :: l2 ++ concat (map (fun y => nl ++ y) ls)) in Hq, Hn.
    destruct (skipn_cons_inv _ _ _ _ Hq) as [Hlt Hq'].
    pose proof Hlt as Hlt'. apply Nat.ltb_lt in Hlt'. rewrite Hlt', Hq.
    rewrite newlines_one by now apply line_ok_stops.
    cbv zeta. cbn [m_pos].
    rewrite Nat.min_l by lia.
    replace (S (p + length l1) =? p) with false
      by (symmetry; apply Nat.eqb_neq; lia).
    replace (p + length l1 - p) with (length l1) by lia.
    rewrite (@firstn_prefix _ _ l1 _ Hs). f_equal.
    apply IH; try assumption.
    + cbn [forallb]. now rewrite Hl2.
    + cbn [length] in Hn. lia.
Qed.

Lemma split_re_lines (l1 : jsstring) (ls : list jsstring) :
  forallb line_ok (l1 :: ls) = true ->
  split_re (join_lines (l1 :: ls)) newlinesRegexp = l1 :: ls.
Proof.
  intros Hok. rewrite join_lines_concat. unfold split_re.
  destruct (l1 ++ concat (map (fun y => nl ++ y) ls)) as [| c t] eqn:E.
  - cbn [forallb] in Hok. apply andb_prop in Hok as [Hl1 _].
    destruct l1; discriminate.
  - rewrite <- E. apply split_lines; [reflexivity | assumption | lia].
Qed.

(** ** The builder of a list *)

Lemma is_digit_not_space (a : cu) : is_digit a = true -> is_space a = false.
Proof.
  unfold is_digit. intros H. apply andb_prop in H as [H1 H2].
  apply N.leb_le in H1. apply N.leb_le in H2. unfold is_space.
  repeat match goal with
         | |- context [(?x <=? ?y)%N] =>
             destruct (N.leb_spec x y); try lia
         | |- context [(?x =? ?y)%N] =>
             destruct (N.eqb_spec x y); try lia
         end; reflexivity.
Qed.

Lemma is_digit_not_lf (a : cu) : is_digit a = true -> not_lf a = true.
Proof.
  unfold is_digit, not_lf, cu_eqb. intros H. apply andb_prop in H as [H1 _].
  apply N.leb_le in H1. apply negb_true_iff, N.eqb_neq. lia.
Qed.

Lemma is_dot_not_lf (a : cu) : is_dot a = true -> not_lf a = true.
Proof.
  intros H. unfold not_lf. now rewrite (is_dot_not_nl a H).
Qed.

Lemma forallb_impl {A : Type} (p q : A -> bool) (l : list A) :
  (forall a, p a = true -> q a = true) ->
  forallb p l = true -> forallb q l = true.
Proof.
  intros Hpq. induction l as [| a l IH]; [reflexivity |]. simpl.
  intros H. apply andb_prop in H as [Ha Hl].
  now rewrite (Hpq a Ha), IH.
Qed.

(** The first character of an item is no white space. *)
Lemma item_line_head (it : ItemMark * jsstring) :
  item_ok it = true ->
  exists a t, item_line it = a :: t /\ is_space a = false.
Proof.
  destruct it as [[| d] c]; unfold item_ok, item_line; cbn [fst snd];
    intros H.
  - exists 45%N, (32%N :: c). now split.
  - apply andb_prop in H as [H _]. apply andb_prop in H as [H _].
    cbn [mark_ok] in H. apply andb_prop in H as [Hne Hd].
    destruct d as [| a d]; [discriminate |].
    cbn [forallb] in Hd. apply andb_prop in Hd as [Ha _].
    exists a, ((d ++ str ".") ++ str " " ++ c).
    split; [reflexivity | now apply is_digit_not_space].
Qed.

Lemma item_line_ok (it : ItemMark * jsstring) :
  item_ok it = true -> line_ok (item_line it) = true.
Proof.
  intros H. unfold line_ok.
  pose proof (length_item_line it) as Hlen.
  destruct (length (item_line it)) as [| n] eqn:E; [lia |]. cbn [Nat.eqb negb andb].
  destruct it as [mk c]. unfold item_ok, item_line in *. cbn [fst snd] in *.
  apply andb_prop in H as [H Hc]. apply andb_prop in H as [Hmk _].
  rewrite !forallb_app.
  rewrite (forallb_impl is_dot not_lf c is_dot_not_lf Hc).
  change (forallb not_lf (str " ")) with true. rewrite !andb_true_r.
  destruct mk as [| d]; [reflexivity |].
  cbn [mark_ok mark_str] in *. apply andb_prop in Hmk as [_ Hd].
  rewrite forallb_app.
  now rewrite (forallb_impl is_digit not_lf d is_digit_not_lf Hd).
Qed.

Lemma item_line_nonBlank (it : ItemMark * jsstring) :
  item_ok it = true -> nonBlank (item_line it) = true.
Proof.
  intros H. destruct (item_line_head it H) as [a [t [-> Ha]]].
  unfold nonBlank. now rewrite trim_not_blank.
Qed.

Lemma exec_listRegexp_line (it : ItemMark * jsstring) :
  item_ok it = true ->
  exec listRegexp (item_line it)
  = Some (MkMatch 0 (item_line it) [(1, snd it)]).
Proof.
  intros H.
  pose proof (exec_listRegexp it [] []) as Hex.
  cbn [map join_lines forallb last firstn] in Hex.
  rewrite !app_nil_r, H in Hex. now apply Hex.
Qed.

Lemma parseListItem_line (it : ItemMark * jsstring) :
  item_ok it = true ->
  parseListItem (item_line it) = parseTextBody (snd it).
Proof.
  intros H. unfold parseListItem. rewrite exec_listRegexp_line by assumption.
  reflexivity.
Qed.

(** An item is numbered when its marker is a number. *)
Lemma test_orderedRegexp_line (it : ItemMark * jsstring) :
  item_ok it = true ->
  test orderedRegexp (item_line it) = numbered (fst it).
Proof.
  destruct it as [mk c]. unfold item_ok, item_line. cbn [fst snd].
  intros H. apply andb_prop in H as [H _]. apply andb_prop in H as [Hmk _].
  unfold test.
  change orderedRegexp
    with (Seq Bol (Seq (Rep true 1 None (Cls is_digit)) (Chr 46))).
  rewrite exec_anchored, m_Seq, m_Rep. cbn [groups m_rest].
  destruct mk as [| d].
  - change (mark_str Bullet ++ str " " ++ c) with (45%N :: 32%N :: c).
    rewrite repeat_S. cbn [is_zero Nat.eqb negb]. cbv zeta.
    now rewrite clear_caps_nil, m_Cls_cons.
  - cbn [mark_ok mark_str numbered] in *.
    apply andb_prop in Hmk as [Hne Hd].
    change (str ".") with [46%N]. change (str " ") with [32%N].
    rewrite <- app_assoc. cbn [app].
    rewrite (@greedy_run is_digit _ _
               (MState (S (length d)) (32%N :: c) [])
               (46%N :: 32%N :: c) [] (char_matcher_Cls is_digit));
      try reflexivity; try assumption.
    + destruct d; [discriminate | simpl; lia].
    + apply Nat.lt_succ_diag_r.
Qed.

Lemma filter_all {A : Type} (f : A -> bool) (l : list A) :
  forallb f l = true -> filter f l = l.
Proof.
  induction l as [| a l IH]; [reflexivity |]. simpl. intros H.
  apply andb_prop in H as [Ha Hl]. now rewrite Ha, IH.
Qed.

Lemma forallb_map {A B : Type} (f : A -> B) (p : B -> bool) (l : list A) :
  forallb p (map f l) = forallb (fun a => p (f a)) l.
Proof. induction l as [| a l IH]; [reflexivity |]. simpl. now rewrite IH. Qed.

Lemma forallb_ext_in {A : Type} (p q r : A -> bool) (l : list A) :
  (forall a, r a = true -> p a = q a) ->
  forallb r l = true -> forallb p l = forallb q l.
Proof.
  intros Hpq. induction l as [| a l IH]; [reflexivity |]. simpl.
  intros H. apply andb_prop in H as [Ha Hl]. now rewrite (Hpq a Ha), IH.
Qed.

Lemma mapM_items (its : list (ItemMark * jsstring)) :
  forallb item_ok its = true ->
  mapM parseListItem (map item_line its)
  = mapM (fun it => parseTextBody (snd it)) its.
Proof.
  induction its as [| it its IH]; [reflexivity |]. cbn [forallb map mapM].
  intros H. apply andb_prop in H as [Hit Hits].
  now rewrite parseListItem_line, IH.
Qed.

(** The builder on the lines of a list: the items are the inline bodies
    of the contents, and the list is ordered when every marker is a
    number. *)
Lemma parseListBlock_lines (it1 : ItemMark * jsstring)
  (its : list (ItemMark * jsstring)) :
  forallb item_ok (it1 :: its) = true ->
  parseListBlock (join_lines (map item_line (it1 :: its)))
  = (items <- mapM (fun it => parseTextBody (snd it)) (it1 :: its) ;;
     Ok (ListBlock (forallb (fun it => numbered (fst it)) (it1 :: its))
                   items)).
Proof.
  intros Hok. unfold parseListBlock.
  change (map item_line (it1 :: its))
    with (item_line it1 :: map item_line its).
  rewrite split_re_lines.
  2:{ change (item_line it1 :: map item_line its)
        with (map item_line (it1 :: its)).
      rewrite forallb_map.
      apply (forallb_impl item_ok _ _ item_line_ok Hok). }
  change (item_line it1 :: map item_line its)
    with (map item_line (it1 :: its)).
  rewrite filter_all.
  2:{ rewrite forallb_map.
      apply (forallb_impl item_ok _ _ item_line_nonBlank Hok). }
  rewrite mapM_items by assumption.
  rewrite !forallb_map.
  rewrite (forallb_ext_in _ (fun it => numbered (fst it)) item_ok
             (it1 :: its)); [reflexivity | | assumption].
  intros it Hit. rewrite exec_listRegexp_line by assumption.
  cbn [match0]. now apply test_orderedRegexp_line.
Qed.

(** ** The list rule in [parseBlocks] *)

Lemma item_line_opens (it : ItemMark * jsstring) :
  item_ok it = true ->
  exists a t, item_line it = a :: t /\ opens_item a = true.
Proof.
  destruct it as [[| d] c]; unfold item_ok, item_line; cbn [fst snd];
    intros H.
  - exists 45%N, (32%N :: c). now split.
  - apply andb_prop in H as [H _]. apply andb_prop in H as [H _].
    cbn [mark_ok] in H. apply andb_prop in H as [Hne Hd].
    destruct d as [| a d]; [discriminate |].
    cbn [forallb] in Hd. apply andb_prop in Hd as [Ha _].
    exists a, ((d ++ str ".") ++ str " " ++ c).
    split; [reflexivity |]. unfold opens_item. now rewrite Ha, orb_true_r.
Qed.

Lemma opens_item_first (a : cu) :
  opens_item a = true ->
  is_space a = false /\ cu_eqb a 35 = false /\ cu_eqb a 62 = false.
Proof.
  unfold opens_item. intros H. apply orb_prop in H as [H | H].
  - apply N.eqb_eq in H. subst a. now repeat split.
  - split; [now apply is_digit_not_space |].
    unfold is_digit in H. apply andb_prop in H as [H1 H2].
    apply N.leb_le in H1. apply N.leb_le in H2.
    split; apply N.eqb_neq; lia.
Qed.

(** The lines of a list end with the content of the last item. *)
Lemma join_lines_last (its : list (ItemMark * jsstring)) :
  forall it1,
  exists p, join_lines (map item_line (it1 :: its)) = p ++ snd (last its it1).
Proof.
  induction its as [| it2 its IH]; intros it1.
  - exists (mark_str (fst it1) ++ str " "). cbn [map join_lines last].
    unfold item_line. now rewrite <- app_assoc.
  - destruct (IH it2) as [p Hp].
    exists (item_line it1 ++ nl ++ p).
    change (join_lines (map item_line (it1 :: it2 :: its)))
      with (item_line it1 ++ nl ++ join_lines (map item_line (it2 :: its))).
    rewrite Hp, last_cons. now rewrite <- !app_assoc.
Qed.

(** X15: lines that start with a hyphen or with a number and a dot, then
    a space and a content, are one list.  Its items are the inline bodies
    of the contents, in order, and the list is ordered exactly when every
    marker is a number; [parseBlocks] goes on after the line feed that
    ends the last item. *)
Theorem list_of_lines (it1 : ItemMark * jsstring)
  (its : list (ItemMark * jsstring)) (tail : jsstring) :
  forallb item_ok (it1 :: its) = true ->
  ends_with_text (snd (last its it1)) = true ->
  after_list tail = true ->
  parseBlocks (join_lines (map item_line (it1 :: its)) ++ tail)
  = (items <- mapM (fun it => parseTextBody (snd it)) (it1 :: its) ;;
     bs <- parseBlocks (trim tail) ;;
     Ok (ListBlock (forallb (fun it => numbered (fst it)) (it1 :: its))
                   items :: bs)).
Proof.
  intros Hok Hend Htail.
  pose proof (exec_listRegexp it1 its tail Hok Htail) as Hex.
  pose proof (parseListBlock_lines it1 its Hok) as Hbuild.
  destruct (after_list_inv _ Htail) as [Hlf _].
  destruct (join_lines_last its it1) as [p Hp].
  assert (Hhead : exists a t, join_lines (map item_line (it1 :: its)) = a :: t
                              /\ opens_item a = true).
  { cbn [forallb] in Hok. apply andb_prop in Hok as [Hok1 _].
    destruct (item_line_opens it1 Hok1) as [a [t [E Ha]]].
    change (map item_line (it1 :: its))
      with (item_line it1 :: map item_line its).
    rewrite join_lines_concat, E.
    exists a, (t ++ concat (map (fun y => nl ++ y) (map item_line its))).
    now split. }
  destruct Hhead as [a [t [E Ha]]].
  destruct (opens_item_first a Ha) as [Hsp [H35 H62]].
  assert (Hends : ends_with_text (a :: t) = true).
  { rewrite <- E, Hp. now apply ends_with_text_app. }
  set (J := join_lines (map item_line (it1 :: its))) in *.
  assert (Htrim : trim (J ++ firstn 1 tail) = J).
  { rewrite E. cbn [app]. rewrite trim_line by assumption.
    now apply trim_text. }
  rewrite parseBlocks_eq.
  replace (jsstring_eqb (trim (J ++ tail)) []) with false
    by (rewrite E; symmetry; now apply trim_not_blank).
  unfold regexpToParserPairs.
  rewrite firstMatch_skip
    by (rewrite E; now apply test_headingRegexp_first).
  rewrite firstMatch_skip
    by (rewrite E; now apply test_quoteRegexp_first).
  rewrite (firstMatch_hit _ _ _ _ _ _ Hex). cbn [match0].
  rewrite Htrim, Hbuild, bind_assoc. cbn [bind].
  rewrite slice1_of_nat.
  replace (J ++ tail) with ((J ++ firstn 1 tail) ++ skipn 1 tail)
    by (rewrite <- app_assoc; now rewrite firstn_skipn).
  now rewrite skipn_exact, trim_skip_lf.
Qed.

Lemma list_of_lines_witness :
  parseBlocks (join_lines (map item_line
                 [(Bullet, str "a"); (Number (str "2"), str "*b*")])
               ++ nl ++ nl ++ str "x")
  = (items <- mapM (fun it => parseTextBody (snd it))
                   [(Bullet, str "a"); (Number (str "2"), str "*b*")] ;;
     bs <- parseBlocks (trim (nl ++ nl ++ str "x")) ;;
     Ok (ListBlock (forallb (fun it => numbered (fst it))
                      [(Bullet, str "a"); (Number (str "2"), str "*b*")])
                   items :: bs)).
Proof.
  apply (list_of_lines (Bullet, str "a") [(Number (str "2"), str "*b*")]
           (nl ++ nl ++ str "x")); reflexivity.
Defined.
(* ================================================================== *)
(** * The lines of the frontmatter *)
(* ================================================================== *)

(** The key-value pattern on a line: the key is the text before the
    first colon, the value the text after the space. *)
Lemma exec_keyValueRegexp (kv : jsstring * jsstring) :
  entry_ok kv = true ->
  exec keyValueRegexp (entry_line kv)
  = Some (MkMatch 0 (entry_line kv) [(2, snd kv); (1, fst kv)]).
Proof.
  destruct kv as [key val]. unfold entry_ok, entry_line. cbn [fst snd].
  intros H.
  apply andb_prop in H as [H Hval]. apply andb_prop in H as [H Hvne].
  apply andb_prop in H as [H Hcolon]. apply andb_prop in H as [Hkne Hkey].
  change keyValueRegexp
    with (Seq Bol (Seq (Grp 1 (Rep false 1 None (Cls is_dot)))
            (Seq (Chr 58) (Seq (Cls is_space)
               (Grp 2 (Rep true 1 None (Cls is_dot))))))).
  change (str ": " ++ val) with (58%N :: 32%N :: val).
  rewrite exec_anchored, m_Seq, m_Grp, m_Rep. cbn [groups m_pos m_rest].
  rewrite (lazy_run is_dot _ _
             (MState (length key + 2 + length val) []
                     [(2, val); (1, key)])
             (58%N :: 32%N :: val) [] (char_matcher_Cls is_dot)).
  - cbn [m_pos m_caps]. f_equal. f_equal.
    replace (length key + 2 + length val)
      with (length (key ++ 58%N :: 32%N :: val))
      by (rewrite length_app; cbn [length]; lia).
    apply firstn_all.
  - assumption.
  - destruct key; [discriminate | simpl; lia].
  - intros j Hj. unfold set_cap. cbn [m_pos m_rest m_caps].
    rewrite m_Seq. apply m_Chr_stops.
    apply no_char_skipn; [assumption | lia].
  - apply Nat.lt_succ_diag_r.
  - unfold set_cap. cbn [m_pos m_rest m_caps].
    replace (0 + length key - 0) with (length key) by lia.
    rewrite (@firstn_prefix _ _ key _ eq_refl).
    rewrite m_Seq, m_Chr_cons. change (cu_eqb 58 58) with true.
    cbv beta iota.
    rewrite m_Seq, m_Cls_cons. change (is_space 32) with true.
    cbv beta iota.
    rewrite m_Grp, m_Rep. cbn [groups m_pos m_rest].
    replace (MState (S (S (0 + length key))) val [(1, key)])
      with (MState (S (S (0 + length key))) (val ++ []) [(1, key)])
      by now rewrite app_nil_r.
    rewrite (@greedy_run is_dot _ _
               (MState (length key + 2 + length val) []
                       [(2, val); (1, key)])
               [] [(1, key)] (char_matcher_Cls is_dot));
      try reflexivity; try assumption.
    + destruct val; [discriminate | simpl; lia].
    + rewrite app_nil_r. apply Nat.lt_succ_diag_r.
    + unfold set_cap, accept. cbn [m_pos m_rest m_caps].
      replace (S (S (0 + length key)) + length val - S (S (0 + length key)))
        with (length val) by lia.
      rewrite firstn_all. do 2 f_equal. lia.
Qed.

Lemma frontmatterLine_entry (entries : list (jsstring * jsstring))
  (kv : jsstring * jsstring) :
  entry_ok kv = true ->
  frontmatterLine entries (entry_line kv) = set_entry entries kv.
Proof.
  intros H. unfold frontmatterLine.
  rewrite exec_keyValueRegexp by assumption.
  unfold cap. cbn [captures lookup_cap Nat.eqb].
  destruct kv as [key val]. unfold entry_ok in H. cbn [fst snd] in *.
  apply andb_prop in H as [H _]. apply andb_prop in H as [H Hvne].
  apply andb_prop in H as [H _]. apply andb_prop in H as [Hkne _].
  destruct key; [discriminate |]. destruct val; [discriminate |].
  reflexivity.
Qed.

(** X16: a line of the frontmatter made of a key without colon, a colon,
    a space and a value sets the trimmed key to the trimmed value without
    the quote characters around it; the entry of a key that is already
    there is overwritten in place. *)
Theorem frontmatter_line (entries : list (jsstring * jsstring))
  (kv : jsstring * jsstring) :
  entry_ok kv = true ->
  frontmatterLine entries (entry_line kv)
  = map_set entries (trim (fst kv))
            (replace (trim (snd kv)) unquoteRegexp dollar1).
Proof. exact (frontmatterLine_entry entries kv). Qed.

Lemma frontmatter_line_witness :
  frontmatterLine [(str "title", str "a")] (entry_line (str "title", str "b"))
  = map_set [(str "title", str "a")] (trim (str "title"))
            (replace (trim (str "b")) unquoteRegexp dollar1).
Proof.
  apply (frontmatter_line [(str "title", str "a")] (str "title", str "b")).
  reflexivity.
Defined.

(** ** The quote characters around a value *)

(** An optional character of a class: it is taken when the rest of the
    pattern matches after it. *)
Lemma m_opt_cls (p : cu -> bool) (k : cont) (pos : nat) (s : jsstring)
  (caps : list (nat * jsstring)) :
  m (Rep true 0 (Some 1) (Cls p)) k (MState pos s caps)
  = match s with
    | c :: t =>
        if p c then
          match k (MState (S pos) t caps) with
          | Some z => Some z
          | None => k (MState pos s caps)
          end
        else k (MState pos s caps)
    | [] => k (MState pos [] caps)
    end.
Proof.
  rewrite m_Rep, repeat_S. cbn [is_zero Nat.eqb negb groups]. cbv zeta.
  rewrite clear_caps_nil. destruct s as [| c t]; [reflexivity |].
  rewrite m_Cls_cons. destruct (p c); [| reflexivity].
  cbn [m_pos m_rest length Nat.add andb pred option_map].
  rewrite succ_neqb, repeat_S. reflexivity.
Qed.

(** The end of the unquoting pattern fails before a text of two
    characters or more, and before a character that is no quote. *)
Lemma opt_quote_eol_fails (k : cont) (pos : nat) (s : jsstring)
  (caps : list (nat * jsstring)) :
  2 <= length s \/ (s <> [] /\ stops is_quote s = true) ->
  m (Seq (Rep true 0 (Some 1) (Cls is_quote)) Eol) k (MState pos s caps)
  = None.
Proof.
  intros H. rewrite m_Seq, m_opt_cls.
  destruct s as [| c [| c2 t]].
  - destruct H as [H | [H _]]; [simpl in H; lia | congruence].
  - destruct H as [H | [_ H]]; [simpl in H; lia |].
    simpl in H. apply negb_true_iff in H. now rewrite H.
  - now destruct (is_quote c).
Qed.

Lemma ends_unquoted_last (body : jsstring) (j : nat) (x : cu) :
  ends_unquoted body = true -> skipn j body = [x] -> is_quote x = false.
Proof.
  intros H E. unfold ends_unquoted in H.
  rewrite <- (firstn_skipn j body), E, rev_unit in H.
  now apply negb_true_iff in H.
Qed.

(** The lazy group of the unquoting pattern takes the text up to the
    quote character at its end, if there is one. *)
Lemma unquote_body (body q2 : jsstring) (pos : nat) :
  body <> [] -> line_content body = true -> opt_quote q2 = true ->
  (q2 = [] -> ends_unquoted body = true) ->
  m (Seq (Grp 1 (Rep false 1 None (Cls is_dot)))
         (Seq (Rep true 0 (Some 1) (Cls is_quote)) Eol))
    accept (MState pos (body ++ q2) [])
  = Some (MState (pos + length body + length q2) [] [(1, body)]).
Proof.
  intros Hne Hbody Hq2 Hend.
  rewrite m_Seq, m_Grp, m_Rep. cbn [groups m_pos m_rest].
  apply (lazy_run is_dot _ _ _ q2 [] (char_matcher_Cls is_dot)).
  - assumption.
  - destruct body; [congruence | simpl; lia].
  - intros j Hj. unfold set_cap. cbn [m_pos m_rest m_caps].
    apply opt_quote_eol_fails.
    assert (Hlen : length (skipn j body) = length body - j)
      by apply length_skipn.
    destruct q2 as [| c q2].
    + rewrite app_nil_r.
      destruct (skipn j body) as [| x [| y t]] eqn:E.
      * simpl in Hlen. lia.
      * right. split; [discriminate |]. simpl.
        now rewrite (ends_unquoted_last body j x (Hend eq_refl) E).
      * left. simpl. lia.
    + left. rewrite length_app. simpl. lia.
  - apply Nat.lt_succ_diag_r.
  - unfold set_cap. cbn [m_pos m_rest m_caps].
    replace (pos + length body - pos) with (length body) by lia.
    rewrite (@firstn_prefix _ _ body _ eq_refl).
    rewrite m_Seq, m_opt_cls.
    destruct q2 as [| c [| c2 q2]]; [| | discriminate].
    + rewrite m_Eol. cbn [m_rest length]. unfold accept.
      do 2 f_equal. lia.
    + cbn [opt_quote] in Hq2. rewrite Hq2, m_Eol. cbn [m_rest length].
      unfold accept. do 2 f_equal. lia.
Qed.

(** X17: the value of an entry loses one quote character at its start
    and one at its end, if they are there; the text between them is kept
    as it is. *)
Theorem unquote_value (q1 body q2 : jsstring) :
  opt_quote q1 = true -> opt_quote q2 = true ->
  body <> [] -> line_content body = true ->
  (q1 = [] -> stops is_quote body = true) ->
  (q2 = [] -> ends_unquoted body = true) ->
  replace (q1 ++ body ++ q2) unquoteRegexp dollar1 = body.
Proof.
  intros Hq1 Hq2 Hne Hbody Hstart Hend.
  assert (Hex : exec unquoteRegexp (q1 ++ body ++ q2)
                = Some (MkMatch 0 (q1 ++ body ++ q2) [(1, body)])).
  { change unquoteRegexp
      with (Seq Bol (Seq (Rep true 0 (Some 1) (Cls is_quote))
              (Seq (Grp 1 (Rep false 1 None (Cls is_dot)))
                   (Seq (Rep true 0 (Some 1) (Cls is_quote)) Eol)))).
    rewrite exec_anchored, m_Seq, m_opt_cls.
    destruct q1 as [| c [| c2 q1]]; [| | discriminate].
    - specialize (Hstart eq_refl). cbn [app].
      destruct body as [| b body]; [congruence |].
      cbn [app]. simpl in Hstart. apply negb_true_iff in Hstart.
      rewrite Hstart.
      change (b :: body ++ q2) with ((b :: body) ++ q2).
      rewrite unquote_body by assumption.
      cbn [m_pos m_caps]. f_equal. f_equal.
      replace (0 + length (b :: body) + length q2)
        with (length ((b :: body) ++ q2)) by (rewrite length_app; lia).
      apply firstn_all.
    - cbn [opt_quote] in Hq1. cbn [app]. rewrite Hq1.
      rewrite unquote_body by assumption.
      cbn [m_pos m_caps]. f_equal. f_equal.
      replace (1 + length body + length q2)
        with (length (c :: body ++ q2))
        by (cbn [length]; rewrite length_app; lia).
      apply firstn_all. }
  unfold replace. rewrite Hex.
  cbn [index match0 dollar1 cap captures lookup_cap Nat.eqb or_empty
       Nat.add].
  rewrite firstn_O, skipn_all. cbn [app]. apply app_nil_r.
Qed.

Lemma unquote_value_witness :
  replace (str "'" ++ str "a 'b' c" ++ []) unquoteRegexp dollar1
  = str "a 'b' c".
Proof.
  apply (unquote_value (str "'") (str "a 'b' c") []);
    try reflexivity; discriminate.
Defined.

(** ** The text between the lines of hyphens *)






(** ** The frontmatter of a document *)











(* ================================================================== *)
(** * The builders on a text of another kind *)
(* ================================================================== *)

Lemma test_false_exec (r : regex) (s : jsstring) :
  test r s = false -> exec r s = None.
Proof. unfold test. now destruct (exec r s). Qed.

(** X19: the builders of a heading, a quote, an image and a block of
    code are exported and can be called on any text: on the empty text,
    and on a text whose first character starts none of these blocks,
    each throws its own error. *)
Theorem builders_reject (input : jsstring) :
  stops opens_block input = true ->
  parseHeadingBlock input = Throw (Error (str "Invalid heading block"))
  /\ parseQuoteBlock input = Throw (Error (str "Invalid quote block"))
  /\ parseImageBlock input = Throw (Error (str "Invalid image block"))
  /\ parseCodeBlock input = Throw (Error (str "Invalid code block")).
Proof.
  intros H.
  unfold parseHeadingBlock, parseQuoteBlock, parseImageBlock, parseCodeBlock.
  destruct input as [| c t]; [now repeat split |].
  unfold stops, opens_block in H. apply negb_true_iff in H.
  repeat (apply orb_false_elim in H as [H ?]).
  rewrite (test_false_exec _ _ (test_headingRegexp_first c t ltac:(assumption))).
  rewrite (test_false_exec _ _ (test_quoteRegexp_first c t ltac:(assumption))).
  rewrite (test_false_exec _ _ (test_imageRegexp_first c t ltac:(assumption))).
  rewrite (test_false_exec _ _ (test_codeRegexp_first c t ltac:(assumption))).
  now repeat split.
Qed.

Lemma builders_reject_witness :
  parseHeadingBlock (str "text") = Throw (Error (str "Invalid heading block"))
  /\ parseQuoteBlock (str "text") = Throw (Error (str "Invalid quote block"))
  /\ parseImageBlock (str "text") = Throw (Error (str "Invalid image block"))
  /\ parseCodeBlock (str "text") = Throw (Error (str "Invalid code block")).
Proof. apply (builders_reject (str "text")). reflexivity. Defined.
(* ================================================================== *)
(** * Hashes without a space *)
(* ================================================================== *)

(** The heading pattern needs a white-space character after the
    hashes. *)
Lemma test_headingRegexp_no_space (k : nat) (c : cu) (t : jsstring) :
  is_space c = false -> cu_eqb c 35 = false ->
  test headingRegexp (hashes k ++ c :: t) = false.
Proof.
  intros Hsp Hc.
  destruct (Nat.le_gt_cases 7 k) as [Hk | Hk];
    [now apply test_headingRegexp_hashes |].
  unfold test.
  change headingRegexp
    with (Seq Bol (Seq (Grp 1 (Rep true 1 (Some 6) (Chr 35)))
                       (Seq (Cls is_space) (Grp 2 (Rep true 1 None (Cls is_dot)))))).
  rewrite exec_anchored, m_Seq, m_Grp, m_Rep.
  cbn [groups m_rest m_pos].
  rewrite (@run_fails (fun x => cu_eqb x 35) _ true _ (c :: t) []
             (char_matcher_Chr 35%N)); [reflexivity | | |].
  - now apply forallb_repeat.
  - right. simpl. now rewrite Hc.
  - intros j Hj. rewrite length_hashes in Hj.
    unfold set_cap. cbn [m_pos m_rest m_caps].
    rewrite m_Seq, skipn_hashes.
    destruct (k - j) as [| d]; cbn [hashes List.repeat app];
      rewrite m_Cls_cons; [now rewrite Hsp | reflexivity].
Qed.

(** X20: hashes that no white space follows start no heading: a line of
    hashes directly followed by a character that is neither white space
    nor a hash is a paragraph, hashes included. *)
Theorem hashes_without_space_is_paragraph (k : nat) (c : cu)
  (text tail : jsstring) :
  1 <= k ->
  is_space c = false -> cu_eqb c 35 = false ->
  forallb not_lf (c :: text) = true ->
  stops not_lf tail = true ->
  parseHeadingBlock (hashes k ++ c :: text)
  = Throw (Error (str "Invalid heading block"))
  /\ parseBlocks (hashes k ++ c :: text ++ tail)
     = (body <- parseTextBody (trim (hashes k ++ c :: text)) ;;
        bs <- parseBlocks (trim tail) ;;
        Ok (ParagraphBlock body :: bs)).
Proof.
  intros Hk Hsp Hc Htext Htail. split.
  - unfold parseHeadingBlock.
    now rewrite (test_false_exec _ _
                   (test_headingRegexp_no_space k c text Hsp Hc)).
  - pose proof (test_headingRegexp_no_space k c (text ++ tail) Hsp Hc) as H.
    destruct k as [| k]; [lia |].
    change (hashes (S k)) with (35%N :: hashes k) in *.
    cbn [app] in *.
    change (c :: text ++ tail) with ((c :: text) ++ tail) in *.
    rewrite app_assoc in *.
    apply parseBlocks_paragraph_line; try assumption; try reflexivity.
    + rewrite forallb_app, Htext, andb_true_r.
      now apply forallb_repeat.
    + now apply test_quoteRegexp_first.
    + now apply test_listRegexp_first.
    + now apply test_imageRegexp_first.
    + now apply test_codeRegexp_first.
    + now apply test_thematicBreakRegexp_first.
Qed.

Lemma hashes_without_space_is_paragraph_witness :
  parseHeadingBlock (hashes 1 ++ 116%N :: str "ag")
  = Throw (Error (str "Invalid heading block"))
  /\ parseBlocks (hashes 1 ++ 116%N :: str "ag" ++ nl ++ str "u")
     = (body <- parseTextBody (trim (hashes 1 ++ 116%N :: str "ag")) ;;
        bs <- parseBlocks (trim (nl ++ str "u")) ;;
        Ok (ParagraphBlock body :: bs)).
Proof.
  apply (hashes_without_space_is_paragraph 1 116%N (str "ag")
           (nl ++ str "u")); [lia | reflexivity ..].
Defined.
